(** * fcompile: dependency analysis and incremental scheduling

    A shallow embedding of [fcompile.py] (parser, graph builder, cache
    loading, scheduler and worker pool) and the properties of it that the
    specification states.

    Conventions of the embedding.
    - Python [str] is [string], a character being a code point below 256;
      white space, word characters and lower case are those of Unicode on
      that range.
    - A [dict] whose iteration order matters ([tasks]) is an association
      list in insertion order; every other [dict] is a [gmap]; a [set] is a
      [gset]. Python fixes no order for the iteration over a set: the
      order is taken from the environment, as one of the permutations of
      the elements.
    - A Python exception is a constructor of [exn]; fallible code returns a
      [result].
    - The recursion of [get_priority] and [get_ancestors] is bounded by the
      interpreter's recursion limit, which the embedding takes as [fuel]. *)

From Stdlib Require Import Ascii String ZArith List Lia.
From stdpp Require Import base option list gmap strings sorting.

Local Open Scope Z_scope.

(** ** Exceptions and results *)

Inductive exn : Type :=
  | AttributeError
  | KeyError (key : string)
  | TypeError
  | FileNotFoundError (path : string)
  | RecursionError
  | AssertionError
  | ZeroDivisionError
  | ModuleMultipleDefined (module : string) (sources : list string)
  | ModuleNotDefined (module : string)
  | CompilationError (source : string) (retcode : Z).

Inductive result (A : Type) : Type :=
  | Ok (a : A)
  | Raise (e : exn).

Arguments Ok {A} a.
Arguments Raise {A} e.

Global Instance result_ret : MRet result := fun _ a => Ok a.

Global Instance result_bind : MBind result := fun _ _ k r =>
  match r with
  | Ok a => k a
  | Raise e => Raise e
  end.

(** [d[k]] on a [dict]: [KeyError] when the key is absent. *)
Definition getitem {V : Type} (d : gmap string V) (k : string) : result V :=
  match d !! k with
  | Some v => Ok v
  | None => Raise (KeyError k)
  end.

(** ** Characters and strings, as [str] sees them *)

(** A [str] is modelled by a string of characters below U+0100; on that
    range the classes below and [lower] are Python's. Beyond it
    [str.lower] can make a string longer (U+0130 becomes two code
    points), which these strings do not show. *)

Module Py.

Definition between (lo hi n : N) : bool := ((lo <=? n) && (n <=? hi))%N.

(** [str.isspace]: TAB..CR, FS..US, the space, NEL and the no-break
    space. It is the class that [str.lstrip()] removes and that [\s]
    matches in a [str] pattern. *)
Definition isspace (c : ascii) : bool :=
  let n := N_of_ascii c in
  between 9 13 n || between 28 32 n || (n =? 133)%N || (n =? 160)%N.

(** The class [\w] of a [str] pattern: the underscore and what
    [str.isalnum] accepts, that is the digits, the letters, and, from 128
    on, the ordinal indicators, the superscript digits, the micro sign,
    the vulgar fractions and the accented letters. *)
Definition isword (c : ascii) : bool :=
  let n := N_of_ascii c in
  between 48 57 n || between 65 90 n || between 97 122 n || (n =? 95)%N
  || (n =? 170)%N || between 178 179 n || (n =? 181)%N || between 185 186 n
  || between 188 190 n || between 192 214 n || between 216 246 n
  || between 248 255 n.

(** [str.lower] on one character: the capital letters A..Z and, from
    128 on, the accented capitals are moved by 32. *)
Definition lower_char (c : ascii) : ascii :=
  let n := N_of_ascii c in
  if between 65 90 n || between 192 214 n || between 216 222 n
  then ascii_of_N (n + 32) else c.

Fixpoint lower (s : string) : string :=
  match s with
  | EmptyString => EmptyString
  | String c s' => String (lower_char c) (lower s')
  end.

(** Longest prefix of characters in class [p], and what follows it. *)
Fixpoint span (p : ascii → bool) (s : string) : string * string :=
  match s with
  | EmptyString => (EmptyString, EmptyString)
  | String c s' =>
      if p c then let '(a, b) := span p s' in (String c a, b)
      else (EmptyString, s)
  end.

(** [s.lstrip()] *)
Definition lstrip (s : string) : string := snd (span isspace s).

(** [s.split(' ', 1)[0]]: the part of [s] before its first space. *)
Definition first_word (s : string) : string :=
  fst (span (fun c => negb (Ascii.eqb c " ")) s).

(** Case-insensitive match of the literal [kw] (given in lower case) at
    the start of [s]; returns what follows. *)
Fixpoint strip_prefix_ci (kw s : string) : option string :=
  match kw with
  | EmptyString => Some s
  | String k kw' =>
      match s with
      | EmptyString => None
      | String c s' =>
          if Ascii.eqb (lower_char c) k then strip_prefix_ci kw' s' else None
      end
  end.

(** [re.match(kw + r'\s+(\w+)\s*', s, re.IGNORECASE)], as the optional
    content of group 1. The classes [\s] and [\w] are disjoint, so the
    greedy [\s+] takes the whole run of white space and backtracking
    cannot produce a match where the first attempt fails. *)
Definition re_match_group1 (kw s : string) : option string :=
  match strip_prefix_ci kw s with
  | None => None
  | Some rest =>
      let '(ws, rest') := span isspace rest in
      match ws with
      | EmptyString => None
      | _ =>
          let '(ident, _) := span isword rest' in
          match ident with
          | EmptyString => None
          | _ => Some ident
          end
      end
  end.

End Py.

(** ** Parser *)

(** State of the loop of [parse_modules]: the line counter, the list
    [defined] and the set [used]. *)
Definition parse_state : Type := Z * list string * gset string.

(** One iteration of [for line in f]. [re.match(...)] returns [None] when
    the pattern does not match, and [None.group(1)] raises
    [AttributeError]. *)
Definition parse_line (st : parse_state) (line : string) : result parse_state :=
  let '(nlines, defined, used) := st in
  let nlines := nlines + 1 in
  let line := Py.lstrip line in
  match line with
  | EmptyString => Ok (nlines, defined, used)
  | String c _ =>
      if Ascii.eqb c "!" then Ok (nlines, defined, used)
      else
        let word := Py.lower (Py.first_word line) in
        if String.eqb word "module" then
          match Py.re_match_group1 "module" line with
          | None => Raise AttributeError
          | Some g =>
              let module := Py.lower g in
              if negb (String.eqb module "procedure")
              then Ok (nlines, defined ++ [module], used)
              else Ok (nlines, defined, used)
          end
        else if String.eqb word "use" then
          match Py.re_match_group1 "use" line with
          | None => Raise AttributeError
          | Some g => Ok (nlines, defined, {[Py.lower g]} ∪ used)
          end
        else Ok (nlines, defined, used)
  end.

Fixpoint parse_lines (st : parse_state) (f : list string) : result parse_state :=
  match f with
  | [] => Ok st
  | line :: f' => st' ← parse_line st line; parse_lines st' f'
  end.

(** [parse_modules(f)], [f] being the lines that iterating the file
    yields (each with its line terminator, when it has one). *)
Definition parse_modules (f : list string) : result (Z * list string * gset string) :=
  '(nlines, defined, used) ← parse_lines (0, [], ∅) f;
  Ok (nlines, defined, used ∖ list_to_set defined).

(** ** Memoized traversals *)

(** [sum(call(n) for n in l)], the calls threading the memo table. *)
Fixpoint sum_calls {M : Type} (call : string → M → result (Z * M))
    (l : list string) (memo : M) : result (Z * M) :=
  match l with
  | [] => Ok (0, memo)
  | n :: l' =>
      '(p, memo) ← call n memo;
      '(s, memo) ← sum_calls call l' memo;
      Ok (p + s, memo)
  end.

(** The closure [getset] of [get_priority]; [priority] is the memo table
    and the result is paired with its final content. *)
Fixpoint priority_getset (fuel : nat) (tree : gmap string (list string))
    (node : string) (priority : gmap string Z) : result (Z * gmap string Z) :=
  match fuel with
  | O => Raise RecursionError
  | S fuel =>
      match priority !! node with
      | Some p => Ok (p, priority)
      | None =>
          children ← getitem tree node;
          '(s, priority) ← sum_calls (priority_getset fuel tree) children priority;
          let p := 1 + s in
          Ok (p, <[node := p]> priority)
      end
  end.

(** [for node in tree: getset(node)], over the keys in [order]. *)
Fixpoint priority_loop (fuel : nat) (tree : gmap string (list string))
    (order : list string) (priority : gmap string Z) : result (gmap string Z) :=
  match order with
  | [] => Ok priority
  | node :: order' =>
      '(_, priority) ← priority_getset fuel tree node priority;
      priority_loop fuel tree order' priority
  end.

(** [get_priority(tree)]; [order] lists the keys of [tree] in iteration
    order. *)
Definition get_priority (fuel : nat) (tree : gmap string (list string))
    (order : list string) : result (gmap string Z) :=
  priority_loop fuel tree order ∅.

(** [for n in l: ancs.update(call(n))] *)
Fixpoint update_calls {M : Type} (call : string → M → result (gset string * M))
    (l : list string) (ancs : gset string) (memo : M) : result (gset string * M) :=
  match l with
  | [] => Ok (ancs, memo)
  | n :: l' =>
      '(a, memo) ← call n memo;
      update_calls call l' (ancs ∪ a) memo
  end.

(** The closure [getset] of [get_ancestors]; [iter node] is the order in
    which [for n in tree[node]] visits the set. *)
Fixpoint ancestors_getset (iter : string → gset string → list string)
    (fuel : nat) (tree : gmap string (gset string))
    (node : string) (ancestors : gmap string (gset string))
    : result (gset string * gmap string (gset string)) :=
  match fuel with
  | O => Raise RecursionError
  | S fuel =>
      match ancestors !! node with
      | Some a => Ok (a, ancestors)
      | None =>
          parents ← getitem tree node;
          '(ancs, ancestors) ←
            update_calls (ancestors_getset iter fuel tree) (iter node parents)
              parents ancestors;
          Ok (ancs, <[node := ancs]> ancestors)
      end
  end.

Fixpoint ancestors_loop (iter : string → gset string → list string)
    (fuel : nat) (tree : gmap string (gset string))
    (order : list string) (ancestors : gmap string (gset string))
    : result (gmap string (gset string)) :=
  match order with
  | [] => Ok ancestors
  | node :: order' =>
      '(_, ancestors) ← ancestors_getset iter fuel tree node ancestors;
      ancestors_loop iter fuel tree order' ancestors
  end.

Definition get_ancestors (iter : string → gset string → list string)
    (fuel : nat) (tree : gmap string (gset string))
    (order : list string) : result (gmap string (gset string)) :=
  ancestors_loop iter fuel tree order ∅.

(** ** Tasks, files and hashes *)

Record Task : Type := {
  source : string;
  args : list string;
  includes : list string;
}.

(** A file as the program reads it: the lines that iterating it in text
    mode yields, and the bytes that reading it in binary mode yields. *)
Record file : Type := {
  text_lines : list string;
  raw_bytes : string;
}.

(** The places where the graph builder iterates over a set. *)
Inductive site : Type :=
  | InProduct (src : string)
      (* [product(task.includes, src_deps[src])] *)
  | InCheck
      (* [for mod in set(...)] *)
  | InUses (src : string)
      (* [for module in modules], [modules] being [src_deps[src]] *)
  | InParents (src : string)
      (* [set(mod_defs[m] for m in mods)], [mods] being [src_deps[src]] *)
  | InAncestors (node : string).
      (* [for n in tree[node]] in [get_ancestors] *)

(** What the program takes from the libraries, the interpreter and the
    operating system: the SHA-1 hex digest of [hashlib], [repr] on a
    tuple of strings, the file system, and the order in which a set is
    iterated at each place. *)
Record env : Type := {
  sha1_hexdigest : string → string;
  repr_tuple : list string → string;
  open_file : string → option file;
  path_exists : string → bool;
  iterate : site → gset string → list string;
}.

(** Iterating over a set visits each of its elements once. *)
Definition iterates_sets (e : env) : Prop :=
  ∀ s (X : gset string), iterate e s X ≡ₚ elements X.

Definition py_open (e : env) (path : string) : result file :=
  match open_file e path with
  | Some f => Ok f
  | None => Raise (FileNotFoundError path)
  end.

(** [get_hash(path, tpl)] *)
Definition get_hash (e : env) (path : string) (tpl : option (list string))
    : result string :=
  let salt := match tpl with Some t => repr_tuple e t | None => "" end in
  f ← py_open e path;
  Ok (sha1_hexdigest e (salt +:+ raw_bytes f)).

Record TaskTree : Type := {
  src_mods : gmap string (list string);
  mod_uses : gmap string (list string);
  hashes : gmap string string;
  line_nums : gmap string Z;
  priority : gmap string Z;
  ancestors : gmap string (gset string);
}.

(** [mod_uses[m]] on the [defaultdict(list)]. (Reading a missing key also
    stores the empty list under it; the embedding leaves such keys out and
    reads every key through [uses_of].) *)
Definition uses_of (mod_uses : gmap string (list string)) (m : string) : list string :=
  default [] (mod_uses !! m).

(** ** Graph builder *)

(** The dictionaries that the first loop of [get_tree] fills. *)
Record scan : Type := {
  sc_src_mods : gmap string (list string);
  sc_mod_defs : gmap string string;
  sc_src_deps : gmap string (gset string);
  sc_hashes : gmap string string;
  sc_line_nums : gmap string Z;
}.

Definition scan_empty : scan :=
  {| sc_src_mods := ∅; sc_mod_defs := ∅; sc_src_deps := ∅;
     sc_hashes := ∅; sc_line_nums := ∅ |}.

(** [for module in defined: ...] *)
Fixpoint record_defs (src : string) (defined : list string)
    (mod_defs : gmap string string) : result (gmap string string) :=
  match defined with
  | [] => Ok mod_defs
  | module :: defined' =>
      match mod_defs !! module with
      | Some first => Raise (ModuleMultipleDefined module [first; src])
      | None => record_defs src defined' (<[module := src]> mod_defs)
      end
  end.

(** Body of [for src, task in tasks.items()] (first loop). *)
Definition scan_task (e : env) (sc : scan) (st : string * Task) : result scan :=
  let '(src, task) := st in
  f ← py_open e (source task);
  '(nlines, defined, used) ← parse_modules (text_lines f);
  h ← get_hash e (source task) (Some (args task));
  mod_defs ← record_defs src defined (sc_mod_defs sc);
  Ok {| sc_src_mods := <[src := defined]> (sc_src_mods sc);
        sc_mod_defs := mod_defs;
        sc_src_deps := <[src := used]> (sc_src_deps sc);
        sc_hashes := <[src := h]> (sc_hashes sc);
        sc_line_nums := <[src := nlines]> (sc_line_nums sc) |}.

Fixpoint scan_tasks (e : env) (sc : scan) (tasks : list (string * Task)) : result scan :=
  match tasks with
  | [] => Ok sc
  | st :: tasks' => sc' ← scan_task e sc st; scan_tasks e sc' tasks'
  end.

(** The two [discard] loops: [iso_c_binding] always, [mpi] when no source
    defines it. *)
Definition drop_intrinsics (mod_defs : gmap string string)
    (src_deps : gmap string (gset string)) : gmap string (gset string) :=
  let src_deps := (fun used : gset string => used ∖ {["iso_c_binding"]}) <$> src_deps in
  if decide (mod_defs !! "mpi" = None)
  then (fun used : gset string => used ∖ {["mpi"]}) <$> src_deps
  else src_deps.

(** [itertools.product(a, b)]: both arguments are read in full before the
    first pair is produced. *)
Definition product {A B : Type} (a : list A) (b : list B) : list (A * B) :=
  x ← a; y ← b; [(x, y)].

(** [for incdir, module in product(...)], on the set [src_deps[src]];
    [set.remove] raises [KeyError] on a missing element. *)
Fixpoint drop_found (e : env) (pairs : list (string * string)) (used : gset string)
    : result (gset string) :=
  match pairs with
  | [] => Ok used
  | (incdir, module) :: pairs' =>
      if path_exists e (incdir +:+ "/" +:+ module +:+ ".mod") then
        if decide (module ∈ used) then drop_found e pairs' (used ∖ {[module]})
        else Raise (KeyError module)
      else drop_found e pairs' used
  end.

(** Second loop over [tasks.items()]. *)
Fixpoint drop_included (e : env) (tasks : list (string * Task))
    (src_deps : gmap string (gset string)) : result (gmap string (gset string)) :=
  match tasks with
  | [] => Ok src_deps
  | (src, task) :: tasks' =>
      match includes task with
      | [] => drop_included e tasks' src_deps
      | _ =>
          used ← getitem src_deps src;
          used' ← drop_found e
                     (product (includes task) (iterate e (InProduct src) used)) used;
          drop_included e tasks' (<[src := used']> src_deps)
      end
  end.

(** [for mod in set(...): if mod not in mod_defs: raise ...] *)
Fixpoint check_defined (mod_defs : gmap string string) (mods : list string) : result unit :=
  match mods with
  | [] => Ok tt
  | m :: mods' =>
      match mod_defs !! m with
      | None => Raise (ModuleNotDefined m)
      | Some _ => check_defined mod_defs mods'
      end
  end.

(** [set(mod for mods in src_deps.values() for mod in mods)] *)
Definition all_used (src_deps : gmap string (gset string)) : gset string :=
  map_fold (fun _ used acc => used ∪ acc) ∅ src_deps.

(** [mod_uses[module].append(src)] for every module of [modules]. *)
Definition add_uses (src : string) (modules : list string)
    (mod_uses : gmap string (list string)) : gmap string (list string) :=
  fold_left (fun mu module => <[module := uses_of mu module ++ [src]]> mu) modules mod_uses.

(** [for src, modules in src_deps.items(): ...]; [src_deps] keeps the
    insertion order of [tasks], which [order] lists. *)
Fixpoint build_mod_uses (e : env) (order : list string)
    (src_deps : gmap string (gset string))
    (mod_uses : gmap string (list string)) : gmap string (list string) :=
  match order with
  | [] => mod_uses
  | src :: order' =>
      build_mod_uses e order' src_deps
        (add_uses src (iterate e (InUses src) (default ∅ (src_deps !! src))) mod_uses)
  end.

(** [[t for m in mods for t in mod_uses[m]]] *)
Definition children_of (mod_uses : gmap string (list string)) (mods : list string)
    : list string :=
  m ← mods; uses_of mod_uses m.

(** [set(mod_defs[m] for m in mods)] *)
Fixpoint parents_of (mod_defs : gmap string string) (mods : list string)
    : result (gset string) :=
  match mods with
  | [] => Ok ∅
  | m :: mods' =>
      s ← getitem mod_defs m;
      ps ← parents_of mod_defs mods';
      Ok ({[s]} ∪ ps)
  end.

(** The dict comprehension passed to [get_ancestors]. *)
Fixpoint parents_tree (e : env) (mod_defs : gmap string string) (order : list string)
    (src_deps : gmap string (gset string)) : result (gmap string (gset string)) :=
  match order with
  | [] => Ok ∅
  | src :: order' =>
      ps ← parents_of mod_defs
             (iterate e (InParents src) (default ∅ (src_deps !! src)));
      t ← parents_tree e mod_defs order' src_deps;
      Ok (<[src := ps]> t)
  end.

(** [get_tree(tasks)] *)
Definition get_tree (e : env) (fuel : nat) (tasks : list (string * Task))
    : result TaskTree :=
  sc ← scan_tasks e scan_empty tasks;
  let mod_defs := sc_mod_defs sc in
  let src_deps := drop_intrinsics mod_defs (sc_src_deps sc) in
  src_deps ← drop_included e tasks src_deps;
  _ ← check_defined mod_defs (iterate e InCheck (all_used src_deps));
  let order := tasks.*1 in
  let mod_uses := build_mod_uses e order src_deps ∅ in
  priority ← get_priority fuel (children_of mod_uses <$> sc_src_mods sc) order;
  ptree ← parents_tree e mod_defs order src_deps;
  ancestors ← get_ancestors (λ node, iterate e (InAncestors node)) fuel ptree order;
  Ok {| src_mods := sc_src_mods sc; mod_uses := mod_uses; hashes := sc_hashes sc;
        line_nums := sc_line_nums sc; priority := priority; ancestors := ancestors |}.

(** ** Cache store *)

(** What [json.load] returns. *)
#[local] Unset Elimination Schemes.
Inductive json : Type :=
  | JNull
  | JBool (b : bool)
  | JNumber (n : Z)
      (* an integer *)
  | JFloat (text : string)
      (* any other number, as it is written *)
  | JString (s : string)
  | JArray (items : list json)
  | JObject (fields : list (string * json)).
#[local] Set Elimination Schemes.

(** What opening and decoding the cache file can give: [open] raises
    [FileNotFoundError]; [json.load] raises [ValueError] (the text is not
    JSON); [json.load] returns a value. (A file that is there and cannot
    be opened is left out.) *)
Inductive cache_file : Type :=
  | Missing
  | NotJson
  | Document (doc : json).

(** A decoded object as a [dict]: of two fields with one name the later
    one wins. *)
Definition dict_of (fields : list (string * json)) : gmap string json :=
  list_to_map (reverse fields).

(** [hashes = json.load(f)['hashes']] under
    [except (ValueError, FileNotFoundError): hashes = {}]. Subscripting a
    value that is not an object raises [TypeError], a missing key raises
    [KeyError]; neither is caught. *)
Definition load_cache (c : cache_file) : result json :=
  match c with
  | Missing => Ok (JObject [])
  | NotJson => Ok (JObject [])
  | Document (JObject fields) =>
      match dict_of fields !! "hashes" with
      | Some v => Ok v
      | None => Raise (KeyError "hashes")
      end
  | Document _ => Raise TypeError
  end.

(** The loaded value used as a [dict] ([hashes.get], [hashes.pop], ...). *)
Definition as_dict (v : json) : result (gmap string json) :=
  match v with
  | JObject fields => Ok (dict_of fields)
  | _ => Raise AttributeError
  end.

(** [h != hashes.get(k)], [h] a digest and [hashes] the live map. *)
Definition hash_differs (h : string) (stored : option json) : bool :=
  match stored with
  | Some (JString h') => negb (String.eqb h h')
  | _ => true
  end.

(** ** Scheduler and worker pool *)

(** [tasks[src]] *)
Definition task_of (tasks : list (string * Task)) (src : string) : result Task :=
  match list_find (fun st => st.1 = src) tasks with
  | Some (_, (_, t)) => Ok t
  | None => Raise (KeyError src)
  end.

(** An entry of the priority queue and an entry of the result queue (the
    wall-clock time of the result is left out). *)
Definition item : Type := Z * string * list string.
Definition outcome : Type := string * Z.

(** Local variables of [scheduler], with the live [hashes] map. *)
Record sched : Type := {
  s_hashes : gmap string json;
  n_all_lines : Z;
  n_lines : Z;
  waiting : gset string;
  scheduled : gset string;
}.

Definition with_hashes (f : gmap string json → gmap string json) (s : sched) : sched :=
  {| s_hashes := f (s_hashes s); n_all_lines := n_all_lines s; n_lines := n_lines s;
     waiting := waiting s; scheduled := scheduled s |}.

Definition with_n_all_lines (f : Z → Z) (s : sched) : sched :=
  {| s_hashes := s_hashes s; n_all_lines := f (n_all_lines s); n_lines := n_lines s;
     waiting := waiting s; scheduled := scheduled s |}.

Definition with_n_lines (f : Z → Z) (s : sched) : sched :=
  {| s_hashes := s_hashes s; n_all_lines := n_all_lines s; n_lines := f (n_lines s);
     waiting := waiting s; scheduled := scheduled s |}.

Definition with_waiting (f : gset string → gset string) (s : sched) : sched :=
  {| s_hashes := s_hashes s; n_all_lines := n_all_lines s; n_lines := n_lines s;
     waiting := f (waiting s); scheduled := scheduled s |}.

Definition with_scheduled (f : gset string → gset string) (s : sched) : sched :=
  {| s_hashes := s_hashes s; n_all_lines := n_all_lines s; n_lines := n_lines s;
     waiting := waiting s; scheduled := f (scheduled s) |}.

(** Where the scheduler stands between two steps. *)
Inductive control : Type :=
  | AtLoop
      (* head of [while True] *)
  | AtDispatch (blocking : gset string) (todo : list string)
      (* head of [for src in list(waiting)], [todo] still to visit *)
  | AtAwait
      (* [await result_queue.get()] *)
  | AtModules (src : string) (mods : list string)
      (* head of [for mod in tree.src_mods[src]], [mods] still to visit;
         [src] is the source whose result is being handled *)
  | Returned
      (* [break]: the coroutine has returned *)
  | Raised (e : exn)
      (* the coroutine has raised *)
  | Exited (e : option exn).
      (* [build] has run its [finally] block *)

Record config : Type := {
  ctl : control;
  st : sched;
  task_queue : list item;
  running : list string;
  result_queue : list outcome;
  cachefile : option (gmap string json);
}.

Definition sched_move (c : config) (k : control) (s : sched) : config :=
  {| ctl := k; st := s; task_queue := task_queue c; running := running c;
     result_queue := result_queue c; cachefile := cachefile c |}.

(** Body of [for src in list(waiting)]. Every statement that can raise
    leaves the updates made before it in place. *)
Definition dispatch (tasks : list (string * Task)) (tree : TaskTree)
    (blocking : gset string) (src : string) (c : config) : config * option exn :=
  let s := st c in
  match ancestors tree !! src with
  | None => (c, Some (KeyError src))
  | Some anc =>
      if decide (blocking ∩ anc = ∅) then
        let s := with_hashes (delete src) s in
        match priority tree !! src, task_of tasks src with
        | None, _ => (sched_move c (ctl c) s, Some (KeyError src))
        | Some _, Raise e => (sched_move c (ctl c) s, Some e)
        | Some p, Ok t =>
            let entry : item := (- p, src, args t ++ [source t]) in
            let s := with_scheduled (union {[src]}) s in
            let c := {| ctl := ctl c; st := s; task_queue := entry :: task_queue c;
                        running := running c; result_queue := result_queue c;
                        cachefile := cachefile c |} in
            if decide (src ∈ waiting s)
            then (sched_move c (ctl c) (with_waiting (fun w => w ∖ {[src]}) s), None)
            else (c, Some (KeyError src))
        end
      else (c, None)
  end.

(** [for src in tree.mod_uses[mod]] *)
Fixpoint notify (tree : TaskTree) (uses : list string) (s : sched) : sched * option exn :=
  match uses with
  | [] => (s, None)
  | src :: uses' =>
      if decide (src ∈ scheduled s) then (s, Some AssertionError)
      else
        let s := with_hashes (delete src) s in
        if decide (src ∈ waiting s) then notify tree uses' s
        else
          match line_nums tree !! src with
          | None => (s, Some (KeyError src))
          | Some n =>
              notify tree uses'
                (with_waiting (union {[src]}) (with_n_all_lines (Z.add n) s))
          end
  end.

(** Body of [for mod in tree.src_mods[src]]; [mod_bytes] is the content of
    the file [mod + '.mod'] at this moment ([None]: there is no such file). *)
Definition propagate (e : env) (tree : TaskTree) (m : string)
    (mod_bytes : option string) (s : sched) : sched * option exn :=
  let modfile := m +:+ ".mod" in
  match mod_bytes with
  | None => (s, Some (FileNotFoundError modfile))
  | Some bytes =>
      let modhash := sha1_hexdigest e bytes in
      if hash_differs modhash (s_hashes s !! modfile) then
        notify tree (uses_of (mod_uses tree) m)
          (with_hashes (insert modfile (JString modhash)) s)
      else (s, None)
  end.

(** Statements between [await result_queue.get()] and the loop over the
    modules, for the result [(src, retcode)]. *)
Definition complete (tree : TaskTree) (src : string) (retcode : Z) (s : sched)
    : sched * result (list string) :=
  if decide (retcode ≠ 0) then (s, Raise (CompilationError src retcode))
  else
    match line_nums tree !! src, hashes tree !! src with
    | None, _ | _, None => (s, Raise (KeyError src))
    | Some n, Some h =>
        let s := with_hashes (insert src (JString h)) s in
        let s := with_n_lines (Z.add n) s in
        if decide (src ∈ scheduled s) then
          let s := with_scheduled (fun sc => sc ∖ {[src]}) s in
          (s, getitem (src_mods tree) src)
        else (s, Raise (KeyError src))
    end.

Definition after (c : config) (k : control) (r : sched * option exn) : config :=
  match r with
  | (s, None) => sched_move c k s
  | (s, Some e) => sched_move c (Raised e) s
  end.

(** One move of the scheduler, from one control point to the next, given
    what the move takes from the environment: the content [mod_bytes] of
    the interface file read, and the order [order] in which
    [list(waiting)] lists the set. It is [None] when the scheduler cannot
    move so: it waits on an empty result queue, [build] has exited, or
    [order] is no listing of [waiting]. The moves from [Returned] and
    [Raised] are the [finally] block of [build] up to the write of the
    cache file; [if DEBUG: print_clocks()], which follows the write and
    can raise in its turn, is left out. *)
Definition sched_step (e : env) (tasks : list (string * Task)) (tree : TaskTree)
    (mod_bytes : option string) (order : list string) (c : config) : option config :=
  match ctl c with
  | AtLoop =>
      if decide (order ≡ₚ elements (waiting (st c))) then
        Some (sched_move c (AtDispatch (waiting (st c) ∪ scheduled (st c)) order) (st c))
      else None
  | AtDispatch blocking (src :: todo) =>
      match dispatch tasks tree blocking src c with
      | (c', None) => Some (sched_move c' (AtDispatch blocking todo) (st c'))
      | (c', Some ex) => Some (sched_move c' (Raised ex) (st c'))
      end
  | AtDispatch blocking [] =>
      (* [lines_done = n_lines/n_all_lines], then [if not blocking: break] *)
      if decide (n_all_lines (st c) = 0) then Some (sched_move c (Raised ZeroDivisionError) (st c))
      else if decide (blocking = ∅) then Some (sched_move c Returned (st c))
      else Some (sched_move c AtAwait (st c))
  | AtAwait =>
      match result_queue c with
      | [] => None
      | (src, retcode) :: rest =>
          let c := {| ctl := ctl c; st := st c; task_queue := task_queue c;
                      running := running c; result_queue := rest;
                      cachefile := cachefile c |} in
          match complete tree src retcode (st c) with
          | (s, Ok mods) => Some (sched_move c (AtModules src mods) s)
          | (s, Raise ex) => Some (sched_move c (Raised ex) s)
          end
      end
  | AtModules src (m :: mods) =>
      Some (after c (AtModules src mods) (propagate e tree m mod_bytes (st c)))
  | AtModules src [] => Some (sched_move c AtLoop (st c))
  | Returned =>
      Some {| ctl := Exited None; st := st c; task_queue := task_queue c;
              running := running c; result_queue := result_queue c;
              cachefile := Some (s_hashes (st c)) |}
  | Raised ex =>
      Some {| ctl := Exited (Some ex); st := st c; task_queue := task_queue c;
              running := running c; result_queue := result_queue c;
              cachefile := Some (s_hashes (st c)) |}
  | Exited _ => None
  end.

(** Order of the entries of the priority queue: Python's order on tuples. *)
Fixpoint args_compare (a b : list string) : comparison :=
  match a, b with
  | [], [] => Eq
  | [], _ :: _ => Lt
  | _ :: _, [] => Gt
  | x :: a', y :: b' =>
      match String.compare x y with
      | Eq => args_compare a' b'
      | o => o
      end
  end.

Definition item_compare (a b : item) : comparison :=
  match Z.compare a.1.1 b.1.1 with
  | Eq =>
      match String.compare a.1.2 b.1.2 with
      | Eq => args_compare a.2 b.2
      | o => o
      end
  | o => o
  end.

(** [PriorityQueue.get]: the least entry, and the queue without it. *)
Fixpoint pop_min (q : list item) : option (item * list item) :=
  match q with
  | [] => None
  | x :: q' =>
      match pop_min q' with
      | None => Some (x, [])
      | Some (y, r) =>
          match item_compare x y with
          | Gt => Some (y, x :: r)
          | _ => Some (x, q')
          end
      end
  end.

(** What happens while the scheduler is suspended. *)
Inductive event : Type :=
  | Sched (mod_bytes : option string) (order : list string)
      (* the scheduler moves *)
  | WorkerTake
      (* an idle worker takes the least entry and starts its subprocess *)
  | WorkerDone (i : nat) (retcode : Z).
      (* the [i]-th running subprocess exits; its worker posts the result *)

Definition worker_take (njobs : nat) (c : config) : option config :=
  match ctl c with
  | AtAwait =>
      if decide (length (running c) < njobs)%nat then
        match pop_min (task_queue c) with
        | Some ((_, taskname, _), q) =>
            Some {| ctl := ctl c; st := st c; task_queue := q;
                    running := running c ++ [taskname];
                    result_queue := result_queue c; cachefile := cachefile c |}
        | None => None
        end
      else None
  | _ => None
  end.

Definition worker_done (i : nat) (retcode : Z) (c : config) : option config :=
  match ctl c with
  | AtAwait =>
      match running c !! i with
      | Some taskname =>
          Some {| ctl := ctl c; st := st c; task_queue := task_queue c;
                  running := delete i (running c);
                  result_queue := result_queue c ++ [(taskname, retcode)];
                  cachefile := cachefile c |}
      | None => None
      end
  | _ => None
  end.

(** The coroutines run on one thread and give up control only at an
    [await], so the workers move only while the scheduler is at
    [AtAwait]. (When the scheduler finds a result in the queue it does
    not give up control at all; the embedding lets the workers move
    there too, which adds runs and removes none.) Two moves of the
    workers are left out, neither of which touches the variables of the
    scheduler: a worker whose [create_subprocess_exec] raises ends
    without posting a result, and a worker that was woken by
    [put_nowait] still runs once the scheduler has raised or returned. *)
Definition step (e : env) (tasks : list (string * Task)) (tree : TaskTree)
    (njobs : nat) (ev : event) (c : config) : option config :=
  match ev with
  | Sched mod_bytes order => sched_step e tasks tree mod_bytes order c
  | WorkerTake => worker_take njobs c
  | WorkerDone i retcode => worker_done i retcode c
  end.

(** The first statements of [scheduler]. *)
Fixpoint sum_lines (tree : TaskTree) (changed_files : list string) : result Z :=
  match changed_files with
  | [] => Ok 0
  | src :: l =>
      n ← getitem (line_nums tree) src;
      s ← sum_lines tree l;
      Ok (n + s)
  end.

Definition scheduler_init (tree : TaskTree) (live : gmap string json)
    (changed_files : list string) : config :=
  match sum_lines tree changed_files with
  | Ok n =>
      {| ctl := AtLoop;
         st := {| s_hashes := live; n_all_lines := n; n_lines := 0;
                  waiting := list_to_set changed_files; scheduled := ∅ |};
         task_queue := []; running := []; result_queue := []; cachefile := None |}
  | Raise ex =>
      {| ctl := Raised ex;
         st := {| s_hashes := live; n_all_lines := 0; n_lines := 0;
                  waiting := ∅; scheduled := ∅ |};
         task_queue := []; running := []; result_queue := []; cachefile := None |}
  end.

(** Configurations that a run of the scheduler and the workers reaches. *)
Inductive reachable (e : env) (tasks : list (string * Task)) (tree : TaskTree)
    (njobs : nat) (c0 : config) : config → Prop :=
  | reach_init : reachable e tasks tree njobs c0 c0
  | reach_step c ev c' :
      reachable e tasks tree njobs c0 c →
      step e tasks tree njobs ev c = Some c' →
      reachable e tasks tree njobs c0 c'.

(** ** Entry point *)

(** [[src for src in tasks if tree.hashes[src] != hashes.get(src)]] *)
Fixpoint changed (tree : TaskTree) (prior : gmap string json)
    (tasks : list (string * Task)) : result (list string) :=
  match tasks with
  | [] => Ok []
  | (src, _) :: tasks' =>
      h ← getitem (hashes tree) src;
      rest ← changed tree prior tasks';
      Ok (if hash_differs h (prior !! src) then src :: rest else rest)
  end.

(** How [build] leaves its part before the event loop. *)
Inductive started : Type :=
  | BuildRaised (ex : exn)
      (* an exception leaves [build]; nothing was spawned or written *)
  | BuildReturned (n_changed : nat)
      (* [return] at [if not changed_files or dry]; nothing was spawned or
         written *)
  | BuildRuns (tree : TaskTree) (c0 : config).
      (* the workers are created and the scheduler starts in [c0] *)

(** [build(tasks, dry, njobs)] up to [loop.run_until_complete]. With no
    task the comprehension never calls [hashes.get], so a loaded value
    that is not a [dict] goes unnoticed. *)
Definition build (e : env) (fuel : nat) (cache : cache_file)
    (tasks : list (string * Task)) (dry : bool) : started :=
  match get_tree e fuel tasks with
  | Raise ex => BuildRaised ex
  | Ok tree =>
      match load_cache cache with
      | Raise ex => BuildRaised ex
      | Ok loaded =>
          match tasks with
          | [] => BuildReturned 0
          | _ =>
              match (prior ← as_dict loaded;
                     changed_files ← changed tree prior tasks;
                     Ok (prior, changed_files)) with
              | Raise ex => BuildRaised ex
              | Ok (prior, changed_files) =>
                  match changed_files with
                  | [] => BuildReturned 0
                  | _ =>
                      if dry then BuildReturned (length changed_files)
                      else BuildRuns tree (scheduler_init tree prior changed_files)
                  end
              end
          end
      end
  end.

(** A run: the events in order, each enabled where it occurs. *)
Fixpoint run (e : env) (tasks : list (string * Task)) (tree : TaskTree)
    (njobs : nat) (evs : list event) (c : config) : option config :=
  match evs with
  | [] => Some c
  | ev :: evs' =>
      match step e tasks tree njobs ev c with
      | Some c' => run e tasks tree njobs evs' c'
      | None => None
      end
  end.


(** * What the specification says, in its own terms *)

(** ** Lines of a source file *)

Fixpoint all_chars (p : ascii → bool) (s : string) : bool :=
  match s with
  | EmptyString => true
  | String c s' => p c && all_chars p s'
  end.

Definition starts_with (p : ascii → bool) (s : string) : bool :=
  match s with
  | EmptyString => false
  | String c _ => p c
  end.

(** [ident] is the identifier that follows the keyword [kw] in [s]: [s] is
    the keyword in some casing, at least one white-space character, a
    longest run [ident] of word characters, and a rest. *)
Definition identifier_after (kw s ident : string) : Prop :=
  ∃ k ws rest,
    s = k +:+ ws +:+ ident +:+ rest ∧ Py.lower k = kw ∧
    ws ≠ "" ∧ all_chars Py.isspace ws = true ∧
    ident ≠ "" ∧ all_chars Py.isword ident = true ∧
    starts_with Py.isword rest = false.

(** The first space-delimited word of a line, leading white space apart,
    in lower case. *)
Definition keyword (line : string) : string :=
  Py.lower (Py.first_word (Py.lstrip line)).

(** The first white-space-delimited word of a line, in lower case. *)
Definition keyword_ws (line : string) : string :=
  Py.lower (fst (Py.span (fun c => negb (Py.isspace c)) (Py.lstrip line))).

(** A line that is empty once stripped, or a comment. *)
Definition skipped (line : string) : Prop :=
  Py.lstrip line = "" ∨ ∃ r, Py.lstrip line = String "!" r.

Inductive line_kind : Type :=
  | Ignored
  | Defines (module : string)
  | Uses (module : string).

(** What a line contributes, section 4.1 read with "space-delimited". *)
Inductive classifies (line : string) : line_kind → Prop :=
  | cl_skipped :
      skipped line → classifies line Ignored
  | cl_module ident :
      ¬ skipped line → keyword line = "module" →
      identifier_after "module" (Py.lstrip line) ident →
      Py.lower ident ≠ "procedure" →
      classifies line (Defines (Py.lower ident))
  | cl_procedure ident :
      ¬ skipped line → keyword line = "module" →
      identifier_after "module" (Py.lstrip line) ident →
      Py.lower ident = "procedure" →
      classifies line Ignored
  | cl_use ident :
      ¬ skipped line → keyword line = "use" →
      identifier_after "use" (Py.lstrip line) ident →
      classifies line (Uses (Py.lower ident))
  | cl_other :
      ¬ skipped line → keyword line ≠ "module" → keyword line ≠ "use" →
      classifies line Ignored.

Definition defined_by (k : line_kind) : list string :=
  match k with Defines m => [m] | _ => [] end.

Definition used_by (k : line_kind) : list string :=
  match k with Uses m => [m] | _ => [] end.

(** A line that starts with one of the two keywords and has no identifier
    after it. *)
Definition keyword_without_identifier (line : string) : Prop :=
  ¬ skipped line ∧
  ∃ kw, (kw = "module" ∨ kw = "use") ∧ keyword line = kw ∧
        ∀ ident, ¬ identifier_after kw (Py.lstrip line) ident.

(** ** Memo tables of the two traversals *)

(** Sum of the entries of [l] in the table [P], when they are all there. *)
Fixpoint lookup_sum (P : gmap string Z) (l : list string) : option Z :=
  match l with
  | [] => Some 0
  | c :: l' => p ← P !! c; s ← lookup_sum P l'; Some (p + s)
  end.

(** Every entry of a priority table is 1 plus the sum of the entries of the
    node's children, which are in the table. *)
Definition priority_ok (tree : gmap string (list string)) (P : gmap string Z) : Prop :=
  ∀ n p, P !! n = Some p →
    1 ≤ p ∧ ∃ ch, tree !! n = Some ch ∧ lookup_sum P ch = Some (p - 1).

(** [p] is one of the nodes that [tree] lists for [n]. *)
Definition edge (tree : gmap string (gset string)) (n p : string) : Prop :=
  ∃ ps, tree !! n = Some ps ∧ p ∈ ps.

(** Every entry of an ancestor table is the set of the node's children and
    of their entries, which are in the table; and it holds only nodes that
    a path of edges reaches. *)
Definition ancestors_ok (tree : gmap string (gset string))
    (A : gmap string (gset string)) : Prop :=
  ∀ n a, A !! n = Some a →
    (∃ ps, tree !! n = Some ps ∧
       (∀ p, p ∈ ps → is_Some (A !! p)) ∧
       (∀ x, x ∈ a ↔ x ∈ ps ∨ ∃ p ap, p ∈ ps ∧ A !! p = Some ap ∧ x ∈ ap)) ∧
    (∀ x, x ∈ a → tc (edge tree) n x).

(** What a call that keeps a priority table in order guarantees. *)
Definition keeps_priority_ok (tree : gmap string (list string))
    (call : string → gmap string Z → result (Z * gmap string Z)) : Prop :=
  ∀ node P p P', priority_ok tree P → call node P = Ok (p, P') →
    priority_ok tree P' ∧ P ⊆ P' ∧ P' !! node = Some p.

Definition keeps_ancestors_ok (tree : gmap string (gset string))
    (call : string → gmap string (gset string)
            → result (gset string * gmap string (gset string))) : Prop :=
  ∀ node A a A', ancestors_ok tree A → call node A = Ok (a, A') →
    ancestors_ok tree A' ∧ A ⊆ A' ∧ A' !! node = Some a.

(** ** Task trees *)

(** What the first loop of [get_tree] takes from the file of a task: line
    count, definitions, uses and hash. There is none when the file cannot
    be opened or does not parse. *)
Definition scanned (e : env) (task : Task)
    : option (Z * list string * gset string * string) :=
  f ← open_file e (source task);
  match parse_modules (text_lines f) with
  | Ok (n, d, u) =>
      Some (n, d, u, sha1_hexdigest e (repr_tuple e (args task) +:+ raw_bytes f))
  | Raise _ => None
  end.

(** The modules that the file of a task defines, and those it uses (its
    own apart), as the parser gives them. *)
Definition defs_of (e : env) (task : Task) : list string :=
  match scanned e task with
  | Some (_, d, _, _) => d
  | None => []
  end.

Definition used_in (e : env) (task : Task) : gset string :=
  match scanned e task with
  | Some (_, _, u, _) => u
  | None => ∅
  end.

(** Every definition of every task, in the order of the scan. *)
Definition all_defs (e : env) (tasks : list (string * Task)) : list string :=
  st ← tasks; defs_of e st.2.

(** The sources that define [m]. *)
Definition definers (e : env) (tasks : list (string * Task)) (m : string)
    : list string :=
  (filter (λ st, m ∈ defs_of e st.2) tasks).*1.

(** The include directories of a task that hold the interface file of
    [m]. *)
Definition found_in (e : env) (task : Task) (m : string) : list string :=
  filter (λ incdir, path_exists e (incdir +:+ "/" +:+ m +:+ ".mod") = true)
    (includes task).

(** A use that is dropped whatever the files are: [iso_c_binding], and
    [mpi] when no source defines it. *)
Definition intrinsic (e : env) (tasks : list (string * Task)) (m : string) : Prop :=
  m = "iso_c_binding" ∨ (m = "mpi" ∧ definers e tasks "mpi" = []).

(** [m] is used by some task, is not dropped, is in no include directory
    of that task, and is defined by no source. *)
Definition unresolved (e : env) (tasks : list (string * Task)) (m : string) : Prop :=
  Exists (λ st, m ∈ used_in e st.2 ∧ ¬ intrinsic e tasks m ∧
                found_in e st.2 m = []) tasks ∧
  definers e tasks m = [].

(** No use that is kept has its interface file in two include
    directories of its task. *)
Definition found_once (e : env) (tasks : list (string * Task)) : Prop :=
  Forall (λ st, ∀ m, m ∈ used_in e st.2 → ¬ intrinsic e tasks m →
                     (length (found_in e st.2 m) ≤ 1)%nat) tasks.

(** The uses left by the two [discard] loops. *)
Definition kept_uses (mod_defs : gmap string string) (used : gset string)
    : gset string :=
  if decide (mod_defs !! "mpi" = None)
  then used ∖ {["iso_c_binding"]} ∖ {["mpi"]}
  else used ∖ {["iso_c_binding"]}.

(** The exceptions of the two traversals: the recursion limit is hit, or
    a key is missing. *)
Definition depth_or_key (ex : exn) : Prop :=
  ex = RecursionError ∨ ∃ k, ex = KeyError k.

(** The dictionaries filled after the tasks [done] have been scanned. *)
Record scan_inv (e : env) (done : list (string * Task)) (sc : scan) : Prop := {
  scan_fresh src :
    src ∉ done.*1 →
    sc_src_mods sc !! src = None ∧ sc_src_deps sc !! src = None ∧
    sc_line_nums sc !! src = None ∧ sc_hashes sc !! src = None;
  scan_done src task :
    (src, task) ∈ done →
    ∃ n d u h, scanned e task = Some (n, d, u, h) ∧
      sc_src_mods sc !! src = Some d ∧ sc_src_deps sc !! src = Some u ∧
      sc_line_nums sc !! src = Some n ∧ sc_hashes sc !! src = Some h;
  scan_defs m s :
    sc_mod_defs sc !! m = Some s ↔
    ∃ mods, sc_src_mods sc !! s = Some mods ∧ m ∈ mods;
}.

(** What the scheduler relies on in the task tree of [tasks]. *)
Record tree_wf (tasks : list (string * Task)) (tree : TaskTree) : Prop := {
  wf_sources s :
    s ∈ tasks.*1 →
    is_Some (src_mods tree !! s) ∧ is_Some (hashes tree !! s) ∧
    is_Some (line_nums tree !! s) ∧ is_Some (priority tree !! s) ∧
    is_Some (ancestors tree !! s);
  wf_uses_ancestor s mods m d :
    src_mods tree !! s = Some mods → m ∈ mods → d ∈ uses_of (mod_uses tree) m →
    ∃ a, ancestors tree !! d = Some a ∧ s ∈ a;
  wf_transitive y x a b :
    ancestors tree !! y = Some a → x ∈ a → ancestors tree !! x = Some b → b ⊆ a;
  wf_priority_pos s p :
    priority tree !! s = Some p → 1 ≤ p;
  wf_priority_ancestor s a d :
    ancestors tree !! s = Some a → d ∈ a →
    ∃ ps pd, priority tree !! s = Some ps ∧ priority tree !! d = Some pd ∧ ps < pd;
  wf_uses_lines m d :
    d ∈ uses_of (mod_uses tree) m → is_Some (line_nums tree !! d);
  wf_uses_nodup m :
    NoDup (uses_of (mod_uses tree) m);
}.

(** ** Scheduler *)

(** The sources whose compilation is queued, running or reported and not
    yet handled. *)
Definition in_flight (c : config) : list string :=
  ((λ entry : item, entry.1.2) <$> task_queue c) ++ running c ++ (result_queue c).*1.

(** Between two steps of a running scheduler: no source is both waiting
    and scheduled; no ancestor of a scheduled source is waiting or
    scheduled; the scheduled sources are those in flight, each once. *)
Record live_inv (tree : TaskTree) (c : config) : Prop := {
  li_disjoint : waiting (st c) ## scheduled (st c);
  li_gated x a :
    x ∈ scheduled (st c) → ancestors tree !! x = Some a →
    a ## waiting (st c) ∪ scheduled (st c);
  li_nodup : NoDup (in_flight c);
  li_flight x : x ∈ in_flight c ↔ x ∈ scheduled (st c);
}.

Definition ctl_inv (tree : TaskTree) (c : config) : Prop :=
  match ctl c with
  | AtLoop | AtAwait => live_inv tree c
  | AtDispatch blocking todo =>
      live_inv tree c ∧
      blocking = waiting (st c) ∪ scheduled (st c) ∧
      NoDup todo ∧ ∀ x, x ∈ todo → x ∈ waiting (st c)
  | AtModules src mods =>
      live_inv tree c ∧
      (∀ x a, x ∈ scheduled (st c) → ancestors tree !! x = Some a → src ∉ a) ∧
      ∃ all, src_mods tree !! src = Some all ∧ mods ⊆ all
  | Returned => True
  | Raised ex => ex ≠ AssertionError
  | Exited ex => ex ≠ Some AssertionError
  end.

(** In the loop over [list(waiting)], [blocking] is still the union of
    the two sets, and the sources to visit are waiting, each once. *)
Definition loop_inv (c : config) : Prop :=
  match ctl c with
  | AtDispatch blocking todo =>
      blocking = waiting (st c) ∪ scheduled (st c) ∧
      NoDup todo ∧ ∀ x, x ∈ todo → x ∈ waiting (st c)
  | _ => True
  end.

(** No source in flight has an entry in the live hashes, and a source
    whose compilation failed has none. *)
Definition hashes_inv (tasks : list (string * Task)) (c : config) : Prop :=
  match ctl c with
  | AtLoop | AtDispatch _ _ | AtAwait | AtModules _ _ =>
      ∀ x, x ∈ in_flight c → x ∈ tasks.*1 ∧ s_hashes (st c) !! x = None
  | Raised (CompilationError src _) | Exited (Some (CompilationError src _)) =>
      s_hashes (st c) !! src = None
  | _ => True
  end.

(** Once [build] has exited, the cache file holds the live hashes. *)
Definition exited_inv (c : config) : Prop :=
  match ctl c with
  | Exited _ => cachefile c = Some (s_hashes (st c))
  | _ => True
  end.

(** No source is named as the interface file of a module is. *)
Definition no_clash (tasks : list (string * Task)) (tree : TaskTree) : Prop :=
  map_Forall (λ _ mods, Forall (λ m, m +:+ ".mod" ∉ tasks.*1) mods) (src_mods tree).

(** How an invocation of [build] with the events [evs] ends, and what it
    has written to the cache file; [None] while it has not ended. *)
Definition build_outcome (e : env) (fuel : nat) (cache : cache_file)
    (tasks : list (string * Task)) (dry : bool) (njobs : nat) (evs : list event)
    : option (option exn * option (gmap string json)) :=
  match build e fuel cache tasks dry with
  | BuildRaised ex => Some (Some ex, None)
  | BuildReturned _ => Some (None, None)
  | BuildRuns tree c0 =>
      match run e tasks tree njobs evs c0 with
      | Some c =>
          match ctl c with
          | Exited ex => Some (ex, cachefile c)
          | _ => None
          end
      | None => None
      end
  end.

(** The lines that [notify] adds to [n_all_lines]. *)
Definition new_lines (tree : TaskTree) (uses : list string) (w : gset string) : Z :=
  foldr Z.add 0
    ((λ d, default 0 (line_nums tree !! d)) <$> filter (λ d, d ∉ w) uses).

(** ** A small project *)

Module Example.

(** The line terminator. *)
Definition nl : string := String "010"%char EmptyString.

(** What iterating a file yields, each line of the file being one of
    [l] and its terminator. *)
Definition lines (l : list string) : list string := (λ s, s +:+ nl) <$> l.

(** The ASCII file of these lines. *)
Definition text (l : list string) : file :=
  {| text_lines := lines l; raw_bytes := String.concat "" (lines l) |}.

Definition files (path : string) : option file :=
  if String.eqb path "a.f90" then
    Some (text ["module m"; "end module m"])
  else if String.eqb path "b.f90" then
    Some (text ["use m"; "use iso_c_binding"; "end"])
  else if String.eqb path "c.f90" then
    Some (text ["module k"; "use m"; "use mpi"; "end module k"])
  else if String.eqb path "d.f90" then
    Some (text ["use k"; "use m"; "end"])
  else None.

(** Lines of a source file, with a comment, an empty line and a
    [module procedure] statement. *)
Definition sample : list string :=
  lines ["module Foo_1 ! m"; "  USE  bar, only: x"; "module procedure p"; "! use z";
         ""; "use foo_1"; "end module"].

(** [module<TAB>foo] *)
Definition tabbed : string := "module" +:+ String "009"%char ("foo" +:+ nl).

Definition bytes (path : string) : string :=
  match files path with
  | Some f => raw_bytes f
  | None => ""
  end.

(** A world whose digest is the identity, whose [repr] joins the
    arguments with commas, and which iterates a set in the order of
    [elements]. *)
Definition world : env :=
  {| sha1_hexdigest := λ s, s;
     repr_tuple := String.concat ",";
     open_file := files;
     path_exists := λ _, false;
     iterate := λ _, elements |}.

Definition task (path : string) : Task :=
  {| source := path; args := ["gfortran"; "-c"]; includes := [] |}.

Definition tasks : list (string * Task) :=
  [("b", task "b.f90"); ("a", task "a.f90"); ("d", task "d.f90"); ("c", task "c.f90")].

Definition two_tasks : list (string * Task) :=
  [("a", task "a.f90"); ("b", task "b.f90")].

(** The tree of [tasks]. *)
Definition tree : TaskTree :=
  match get_tree world 10 tasks with
  | Ok t => t
  | Raise _ =>
      {| src_mods := ∅; mod_uses := ∅; hashes := ∅; line_nums := ∅;
         priority := ∅; ancestors := ∅ |}
  end.

(** The cache of an earlier build, in which [a.f90] was compiled with
    other arguments. *)
Definition prior_hashes : list (string * json) :=
  [("a", JString ("gfortran,-O2,-c" +:+ bytes "a.f90"));
   ("b", JString ("gfortran,-c" +:+ bytes "b.f90"));
   ("c", JString ("gfortran,-c" +:+ bytes "c.f90"));
   ("d", JString ("gfortran,-c" +:+ bytes "d.f90"))].

Definition cache : cache_file :=
  Document (JObject [("hashes", JObject prior_hashes)]).

(** The cache of a build with the current files and arguments. *)
Definition fresh_cache : cache_file :=
  Document (JObject [("hashes", JObject
    [("a", JString ("gfortran,-c" +:+ bytes "a.f90"));
     ("b", JString ("gfortran,-c" +:+ bytes "b.f90"));
     ("c", JString ("gfortran,-c" +:+ bytes "c.f90"));
     ("d", JString ("gfortran,-c" +:+ bytes "d.f90"))])]).

(** Files that define [m] again and use a module that nothing
    defines. *)
Definition more_files (path : string) : option file :=
  if String.eqb path "a2.f90" then
    Some (text ["module m"; "use z"; "end module m"])
  else if String.eqb path "e.f90" then
    Some (text ["use m"; "use z"; "use mpi"; "end"])
  else files path.

Definition more_world : env :=
  {| sha1_hexdigest := λ s, s;
     repr_tuple := String.concat ",";
     open_file := more_files;
     path_exists := λ _, false;
     iterate := λ _, elements |}.

Definition clash_tasks : list (string * Task) :=
  [("a", task "a.f90"); ("a2", task "a2.f90")].

Definition undefined_tasks : list (string * Task) :=
  [("a", task "a.f90"); ("e", task "e.f90")].

(** A task whose source file does not exist. *)
Definition lost_tasks : list (string * Task) := [("x", task "x.f90")].

(** The scheduler starts with [a] as the one changed file. *)
Definition start : config := scheduler_init tree (dict_of prior_hashes) ["a"].

(** The scheduler moves; when it reads the interface [m.mod], the file
    holds [interface of m]. *)
Definition sched : event := Sched (Some "interface of m") [].

(** The scheduler, at the head of its loop, lists [waiting] as [order]. *)
Definition snapshot (order : list string) : event := Sched None order.

Definition after (evs : list event) : config :=
  default start (run world tasks tree 2 evs start).

(** The scheduler is about to visit [a], the one source waiting. *)
Definition to_visit : list event := [snapshot ["a"]].

(** It has dispatched [a]. *)
Definition to_dispatched : list event := to_visit ++ [sched].

(** It waits for a result. *)
Definition to_await : list event := to_dispatched ++ [sched].

(** [a] is compiled; the scheduler takes the result and is about to
    look at the interface of [m]. *)
Definition to_modules : list event := to_await ++ [WorkerTake; WorkerDone 0 0; sched].

(** The interface is new: [b], [c] and [d] are moved to [waiting]; [b]
    and [c] are dispatched and taken by the two workers; the compilation
    of [b] fails with code 3, and [build] exits. *)
Definition to_exit : list event :=
  to_modules ++ [sched; sched; snapshot ["c"; "b"; "d"]; sched; sched; sched; sched;
                 WorkerTake; WorkerTake; WorkerDone 1 3; sched; sched].

End Example.


(** * Further properties: what they are stated with *)

Global Instance result_fmap : FMap result := fun _ _ f r =>
  match r with
  | Ok a => Ok (f a)
  | Raise e => Raise e
  end.

(** ** Parser *)

(** The loop of [parse_modules] adds to what it has collected, which it
    does not read: [st] reached from the empty state is [shift n d u st]
    reached from [(n, d, u)]. *)
Definition shift (n : Z) (d : list string) (u : gset string) (st : parse_state)
    : parse_state :=
  let '(n', d', u') := st in (n + n', d ++ d', u' ∪ u).

(** The result of [parse_modules] on two files read one after the other,
    from the results on each. *)
Definition join_parsed (r1 r2 : Z * list string * gset string)
    : Z * list string * gset string :=
  let '(n1, d1, u1) := r1 in
  let '(n2, d2, u2) := r2 in
  (n1 + n2, d1 ++ d2, (u1 ∪ u2) ∖ list_to_set (d1 ++ d2)).

(** A module name as the parser returns it: word characters, at least
    one, in lower case. *)
Definition module_name (m : string) : Prop :=
  m ≠ "" ∧ all_chars Py.isword m = true ∧ Py.lower m = m.

(** ** Traversals *)

(** [c] is one of the nodes that [tree] lists for [n], in the tree of
    [get_priority]. *)
Definition child (tree : gmap string (list string)) (n c : string) : Prop :=
  ∃ ch, tree !! n = Some ch ∧ c ∈ ch.

(** What can leave a traversal started on the nodes [order]: the
    recursion limit is hit, or a node visited is no key of the tree. *)
Definition traversal_error {V : Type} (tree : gmap string V) (order : list string)
    (reaches : string → string → Prop) (ex : exn) : Prop :=
  ex = RecursionError ∨
  ∃ k, ex = KeyError k ∧ tree !! k = None ∧ (k ∈ order ∨ ∃ n, reaches n k).

(** A bound on the length of the paths of a tree: [rank] decreases along
    every edge, and every node listed is a key. *)
Definition ranked {V : Type} (tree : gmap string V)
    (reaches : string → string → Prop) (rank : string → nat) : Prop :=
  ∀ n c, reaches n c → is_Some (tree !! c) ∧ (rank c < rank n)%nat.

(** No node of the memo table [A] is on a cycle of the tree. *)
Definition no_cycle (tree : gmap string (gset string))
    (A : gmap string (gset string)) : Prop :=
  ∀ n, is_Some (A !! n) → ¬ tc (edge tree) n n.

(** Trees to try the traversals on: a diamond, a tree with a child that
    is no key, and a cycle. *)
Module Trees.

Definition diamond : gmap string (list string) :=
  {[ "a" := ["b"; "c"]; "b" := ["d"]; "c" := ["d"]; "d" := [] ]}.

Definition open : gmap string (list string) := {[ "a" := ["b"] ]}.

Definition cycle : gmap string (list string) := {[ "a" := ["b"]; "b" := ["a"] ]}.

Definition rank (n : string) : nat :=
  if String.eqb n "a" then 2 else if String.eqb n "d" then 0 else 1.

Definition set_diamond : gmap string (gset string) :=
  {[ "a" := {[ "b"; "c" ]}; "b" := {[ "d" ]}; "c" := {[ "d" ]}; "d" := ∅ ]}.

Definition set_open : gmap string (gset string) := {[ "a" := {[ "b" ]} ]}.

Definition set_cycle : gmap string (gset string) :=
  {[ "a" := {[ "b" ]}; "b" := {[ "a" ]} ]}.

Definition iter (_ : string) (X : gset string) : list string := elements X.

(** The ancestors in the diamond. *)
Definition above : gmap string (gset string) :=
  match get_ancestors iter 3 set_diamond ["b"; "a"; "c"] with
  | Ok A => A
  | Raise _ => ∅
  end.

End Trees.

(** ** Graph builder *)

(** A use of [m] by the file of [task] that the graph builder keeps: it
    is not dropped, and no include directory of the task holds the
    interface file. *)
Definition kept (e : env) (tasks : list (string * Task)) (task : Task) (m : string)
    : Prop :=
  m ∈ used_in e task ∧ ¬ intrinsic e tasks m ∧ found_in e task m = [].

(** The source [s] keeps a use of a module that the source [d] defines. *)
Definition depends (e : env) (tasks : list (string * Task)) (s d : string) : Prop :=
  ∃ task m, (s, task) ∈ tasks ∧ kept e tasks task m ∧ d ∈ definers e tasks m.

(** The dictionary [src_deps] once the uses have been dropped: the kept
    uses of every task. *)
Record resolved (e : env) (tasks : list (string * Task))
    (sd : gmap string (gset string)) : Prop := {
  res_out s : s ∉ tasks.*1 → sd !! s = None;
  res_in s task :
    (s, task) ∈ tasks →
    ∃ used, sd !! s = Some used ∧ ∀ m, m ∈ used ↔ kept e tasks task m;
}.

(** The tasks on which the graph builder gets as far as the traversals:
    every file opens and parses, no module is defined twice, no use
    that is kept so far has its interface file in two include
    directories of its task, and every use that is kept is defined. *)
Record buildable (e : env) (tasks : list (string * Task)) : Prop := {
  bd_scanned : Forall (λ st, is_Some (scanned e st.2)) tasks;
  bd_defs : NoDup (all_defs e tasks);
  bd_once : found_once e tasks;
  bd_defined m : ¬ unresolved e tasks m;
}.

(** Two sources that use each other's module. *)
Module Cyclic.

Definition files (path : string) : option file :=
  if String.eqb path "p.f90" then
    Some (Example.text ["module p1"; "use q1"; "end module p1"])
  else if String.eqb path "q.f90" then
    Some (Example.text ["module q1"; "use p1"; "end module q1"])
  else None.

Definition world : env :=
  {| sha1_hexdigest := λ s, s;
     repr_tuple := String.concat ",";
     open_file := files;
     path_exists := λ _, false;
     iterate := λ _, elements |}.

Definition tasks : list (string * Task) :=
  [("p", Example.task "p.f90"); ("q", Example.task "q.f90")].

End Cyclic.

(** A source that uses a module whose interface file is in both of its
    include directories. *)
Module TwoDirs.

Definition files (path : string) : option file :=
  if String.eqb path "u.f90" then Some (Example.text ["use z"; "end"]) else None.

Definition world : env :=
  {| sha1_hexdigest := λ s, s;
     repr_tuple := String.concat ",";
     open_file := files;
     path_exists := λ p, String.eqb p "inc1/z.mod" || String.eqb p "inc2/z.mod";
     iterate := λ _, elements |}.

Definition tasks : list (string * Task) :=
  [("u", {| source := "u.f90"; args := ["gfortran"; "-c"];
            includes := ["inc1"; "inc2"] |})].

End TwoDirs.

(** How deep a source of the small project is in its dependencies. *)
Definition example_depth (s : string) : nat :=
  Z.to_nat (5 - default 0 (priority Example.tree !! s)).

(** ** Scheduler *)

(** The lines of a source, and of a set of sources. *)
Definition lines_of (tree : TaskTree) (s : string) : Z :=
  default 0 (line_nums tree !! s).

Definition total_lines (tree : TaskTree) (X : gset string) : Z :=
  foldr Z.add 0 (lines_of tree <$> elements X).

(** What a step can do to the variables of the scheduler: nothing; drop
    the hash of a waiting source and then raise; dispatch a waiting
    source; take the result of a scheduled source; take a changed
    interface of a module of the source being handled. *)
Inductive moves (e : env) (tree : TaskTree) (s : sched) : sched → Prop :=
  | mv_stay :
      moves e tree s s
  | mv_mark src :
      src ∈ waiting s → moves e tree s (with_hashes (delete src) s)
  | mv_dispatch src s' :
      src ∈ waiting s →
      s_hashes s' = delete src (s_hashes s) →
      waiting s' = waiting s ∖ {[src]} → scheduled s' = {[src]} ∪ scheduled s →
      n_lines s' = n_lines s → n_all_lines s' = n_all_lines s →
      moves e tree s s'
  | mv_complete src n h s' :
      src ∈ scheduled s →
      line_nums tree !! src = Some n → hashes tree !! src = Some h →
      s_hashes s' = <[src := JString h]> (s_hashes s) →
      waiting s' = waiting s → scheduled s' = scheduled s ∖ {[src]} →
      n_lines s' = n + n_lines s → n_all_lines s' = n_all_lines s →
      moves e tree s s'
  | mv_propagate src all m bytes s' :
      src_mods tree !! src = Some all → m ∈ all →
      NoDup (uses_of (mod_uses tree) m) →
      (∀ d, d ∈ uses_of (mod_uses tree) m →
            d ∉ scheduled s ∧ is_Some (line_nums tree !! d)) →
      scheduled s' = scheduled s → n_lines s' = n_lines s →
      waiting s' = waiting s ∪ list_to_set (uses_of (mod_uses tree) m) →
      n_all_lines s' =
        n_all_lines s + new_lines tree (uses_of (mod_uses tree) m) (waiting s) →
      (∀ k, s_hashes s' !! k =
            if decide (k ∈ uses_of (mod_uses tree) m) then None
            else <[m +:+ ".mod" := JString (sha1_hexdigest e bytes)]> (s_hashes s) !! k) →
      moves e tree s s'.

(** The counters of the progress line: no source is both waiting and
    scheduled, and the lines still to compile are those of the sources
    waiting or scheduled. *)
Definition tally (tree : TaskTree) (s : sched) : Prop :=
  waiting s ## scheduled s ∧
  n_all_lines s = n_lines s + total_lines tree (waiting s ∪ scheduled s).

(** The live hashes tell what is left to do: a source of the tasks has
    its current hash there exactly when it is neither waiting nor
    scheduled. *)
Definition fresh (tasks : list (string * Task)) (tree : TaskTree) (s : sched) : Prop :=
  ∀ x h, x ∈ tasks.*1 → hashes tree !! x = Some h →
    s_hashes s !! x = Some (JString h) ↔ x ∉ waiting s ∧ x ∉ scheduled s.

(** Every source waiting or scheduled has a line count. *)
Definition counted (tree : TaskTree) (s : sched) : Prop :=
  ∀ x, x ∈ waiting s ∪ scheduled s → is_Some (line_nums tree !! x).

(** When the scheduler has returned, nothing is left. *)
Definition finished (c : config) : Prop :=
  match ctl c with
  | Returned | Exited None =>
      waiting (st c) = ∅ ∧ scheduled (st c) = ∅ ∧
      task_queue c = [] ∧ running c = [] ∧ result_queue c = []
  | _ => True
  end.

(** A build of the small project that succeeds: after [a], the sources
    [c] and [b] are compiled by the two workers, then [d]; every
    interface file read is new. *)
Module Run.

Import Example.

Definition to_return : list event :=
  to_modules ++
  [sched; sched; snapshot ["c"; "b"; "d"]; sched; sched; sched; sched;
   WorkerTake; WorkerTake; WorkerDone 0 0; WorkerDone 0 0;
   sched; sched; sched; snapshot ["d"]; sched; sched;
   sched; sched; snapshot []; sched;
   WorkerTake; WorkerDone 0 0; sched; sched; snapshot []; sched].

Definition to_exit : list event := to_return ++ [sched].

(** What the build leaves in the cache file, as the fields of the
    object under the key [hashes]. *)
Definition written (evs : list event) : list (string * json) :=
  map_to_list (default ∅ (cachefile (after evs))).

End Run.



(** A scheduler whose total of lines is 0 gets no further than its
    first pass over the waiting sources: the division of the progress
    line is what ends it. *)
Definition stalled (tasks : list (string * Task)) (c : config) : Prop :=
  n_all_lines (st c) = 0 ∧
  (∀ x, x ∈ waiting (st c) → x ∈ tasks.*1) ∧
  match ctl c with
  | AtLoop | AtDispatch _ _ => True
  | Raised ex => ex = ZeroDivisionError
  | Exited ex => ex = Some ZeroDivisionError
  | _ => False
  end.

(** One source file without a line, and no cache of an earlier build. *)
Module Blank.

Definition files (path : string) : option file :=
  if String.eqb path "z.f90" then Some (Example.text []) else None.

Definition world : env :=
  {| sha1_hexdigest := λ s, s;
     repr_tuple := String.concat ",";
     open_file := files;
     path_exists := λ _, false;
     iterate := λ _, elements |}.

Definition tasks : list (string * Task) := [("z", Example.task "z.f90")].

Definition tree : TaskTree :=
  match get_tree world 10 tasks with
  | Ok t => t
  | Raise _ =>
      {| src_mods := ∅; mod_uses := ∅; hashes := ∅; line_nums := ∅;
         priority := ∅; ancestors := ∅ |}
  end.

Definition start : config := scheduler_init tree ∅ ["z"].

(** The scheduler lists the one waiting source, dispatches it, comes
    to the progress line, and [build] exits. *)
Definition events : list event :=
  [Sched None ["z"]; Sched None []; Sched None []; Sched None []].

Definition after (evs : list event) : config :=
  default start (run world tasks tree 1 evs start).

End Blank.

(** Every entry of the priority queue is a source under the negative of
    its priority. *)
Definition queued (tree : TaskTree) (c : config) : Prop :=
  ∀ entry : item, entry ∈ task_queue c →
    ∃ p, priority tree !! entry.1.2 = Some p ∧ entry.1.1 = - p.

(** The build of the small project when [c] and [b] are in the queue. *)
Definition example_queued : list event :=
  Example.to_modules ++
  [Example.sched; Example.sched; Example.snapshot ["c"; "b"; "d"];
   Example.sched; Example.sched; Example.sched; Example.sched].


(** * Properties *)

(** ** Results *)

Lemma bind_Ok {A B : Type} (r : result A) (k : A → result B) (b : B) :
  r ≫= k = Ok b → ∃ a, r = Ok a ∧ k a = Ok b.
Proof. destruct r as [a|ex]; simpl; [eauto | discriminate]. Qed.

Lemma bind_Ok_l {A B : Type} (a : A) (k : A → result B) : Ok a ≫= k = k a.
Proof. reflexivity. Qed.

Lemma getitem_Ok {V : Type} (d : gmap string V) (k : string) (v : V) :
  getitem d k = Ok v ↔ d !! k = Some v.
Proof. unfold getitem. destruct (d !! k); split; congruence. Qed.

(** Case analysis on a successful computation in [result]: the first
    step returned [x], which [Hx] records. *)
Tactic Notation "inv_bind" hyp(H) "as" simple_intropattern(x) ident(Hx) :=
  apply bind_Ok in H as (x & Hx & H).

(** ** Strings *)

Section strings.

Implicit Types (s a b : string) (p : ascii → bool).

Lemma append_cons c a b : String c a +:+ b = String c (a +:+ b).
Proof. reflexivity. Qed.

Lemma append_nil_l b : "" +:+ b = b.
Proof. reflexivity. Qed.

Lemma span_decomp p s a b :
  Py.span p s = (a, b) →
  s = a +:+ b ∧ all_chars p a = true ∧ starts_with p b = false.
Proof.
  revert a b. induction s as [|c s IH]; intros a b; simpl.
  - intros [= <- <-]. done.
  - destruct (p c) eqn:Hc.
    + destruct (Py.span p s) as [a' b'] eqn:Hs. intros [= <- <-].
      destruct (IH _ _ eq_refl) as (-> & Ha & Hb).
      rewrite append_cons. simpl. rewrite Hc, Ha. done.
    + intros [= <- <-]. simpl. done.
Qed.

Lemma span_append p a b :
  all_chars p a = true → starts_with p b = false → Py.span p (a +:+ b) = (a, b).
Proof.
  induction a as [|c a IH]; simpl; intros Ha Hb.
  - rewrite append_nil_l. destruct b as [|d b]; simpl in *; [done|]. by rewrite Hb.
  - apply andb_prop in Ha as [Hc Ha]. rewrite ?append_cons. simpl.
    rewrite Hc, IH by done. done.
Qed.

Lemma isword_not_isspace c : Py.isword c = true → Py.isspace c = false.
Proof. destruct c as [[] [] [] [] [] [] [] []]; vm_compute; congruence. Qed.

Lemma strip_prefix_ci_Some kw s r :
  Py.strip_prefix_ci kw s = Some r ↔ ∃ k, s = k +:+ r ∧ Py.lower k = kw.
Proof.
  revert s. induction kw as [|x kw IH]; intros s; simpl.
  - split.
    + intros [= ->]. by exists "".
    + intros ([|c k] & -> & Hk); [done | discriminate].
  - destruct s as [|c s].
    + split; [done|]. intros ([|d k] & Hs & Hk); discriminate.
    + destruct (Ascii.eqb_spec (Py.lower_char c) x) as [<-|Hne].
      * rewrite IH. split.
        -- intros (k & -> & <-). exists (String c k). done.
        -- intros ([|d k] & Hs & Hk); [discriminate|].
           rewrite append_cons in Hs. simpl in Hk. simplify_eq. eauto.
      * split; [done|]. intros ([|d k] & Hs & Hk); [discriminate|].
        rewrite append_cons in Hs. simpl in Hk. simplify_eq.
Qed.

Lemma re_match_group1_Some kw s ident :
  Py.re_match_group1 kw s = Some ident ↔ identifier_after kw s ident.
Proof.
  unfold Py.re_match_group1, identifier_after. split.
  - destruct (Py.strip_prefix_ci kw s) as [rest|] eqn:Hk; [|done].
    apply strip_prefix_ci_Some in Hk as (k & -> & Hk).
    destruct (Py.span Py.isspace rest) as [ws rest'] eqn:Hws.
    apply span_decomp in Hws as (-> & Hws & _).
    destruct ws as [|w ws]; [done|].
    destruct (Py.span Py.isword rest') as [i rest''] eqn:Hi.
    apply span_decomp in Hi as (-> & Hi & Hrest).
    destruct i as [|c i]; [done|]. intros [= <-].
    exists k, (String w ws), rest''. done.
  - intros (k & ws & rest & -> & Hk & Hne & Hws & Hine & Hi & Hrest).
    assert (Py.strip_prefix_ci kw (k +:+ ws +:+ ident +:+ rest)
            = Some (ws +:+ ident +:+ rest)) as ->.
    { apply strip_prefix_ci_Some. eauto. }
    rewrite span_append; [|done|].
    + destruct ws; [done|]. rewrite span_append by done. by destruct ident.
    + destruct ident as [|c i]; [done|]. rewrite append_cons. simpl in *.
      apply andb_prop in Hi as [Hc _]. by apply isword_not_isspace.
Qed.

Lemma re_match_group1_None kw s :
  Py.re_match_group1 kw s = None ↔ ∀ ident, ¬ identifier_after kw s ident.
Proof.
  split.
  - intros Hn ident Hi%re_match_group1_Some. congruence.
  - intros Hn. destruct (Py.re_match_group1 kw s) as [ident|] eqn:Hm; [|done].
    apply re_match_group1_Some in Hm. by destruct (Hn ident).
Qed.

End strings.

(** ** Parser *)

Section parser.

Implicit Types (line : string) (f : list string) (st : parse_state).

Lemma eqb_true_iff s1 s2 : String.eqb s1 s2 = true ↔ s1 = s2.
Proof. apply String.eqb_eq. Qed.

Lemma skipped_cases line :
  skipped line ↔
  match Py.lstrip line with
  | EmptyString => True
  | String c _ => Ascii.eqb c "!" = true
  end.
Proof.
  unfold skipped. destruct (Py.lstrip line) as [|c r]; [naive_solver|].
  rewrite Ascii.eqb_eq. naive_solver.
Qed.

(** One line either makes the loop raise, being a keyword without an
    identifier, or is classified and contributes accordingly. *)
Lemma parse_line_Ok n d u line st' :
  parse_line (n, d, u) line = Ok st' →
  ∃ k, classifies line k ∧
       st' = (n + 1, d ++ defined_by k, list_to_set (used_by k) ∪ u).
Proof.
  unfold parse_line. pose proof (skipped_cases line) as Hsk.
  fold (keyword line).
  destruct (Py.lstrip line) as [|c r] eqn:Hstrip.
  { intros [= <-]. exists Ignored. split; [apply cl_skipped; tauto|].
    simpl. rewrite app_nil_r. f_equal. set_solver. }
  destruct (Ascii.eqb c "!") eqn:Hc.
  { intros [= <-]. exists Ignored. split; [apply cl_skipped; tauto|].
    simpl. rewrite app_nil_r. f_equal. set_solver. }
  assert (¬ skipped line) as Hns by (rewrite Hsk; congruence).
  destruct (String.eqb (keyword line) "module") eqn:Hm.
  { apply eqb_true_iff in Hm.
    destruct (Py.re_match_group1 "module" (String c r)) as [g|] eqn:Hg; [|done].
    apply re_match_group1_Some in Hg. rewrite <- Hstrip in Hg.
    destruct (String.eqb (Py.lower g) "procedure") eqn:Hp; simpl; intros [= <-].
    - apply eqb_true_iff in Hp. exists Ignored.
      split; [by eapply cl_procedure|].
      simpl. rewrite app_nil_r. f_equal. set_solver.
    - apply String.eqb_neq in Hp. exists (Defines (Py.lower g)).
      split; [by eapply cl_module|]. simpl. f_equal. set_solver. }
  apply String.eqb_neq in Hm.
  destruct (String.eqb (keyword line) "use") eqn:Hu.
  { apply eqb_true_iff in Hu.
    destruct (Py.re_match_group1 "use" (String c r)) as [g|] eqn:Hg; [|done].
    apply re_match_group1_Some in Hg. rewrite <- Hstrip in Hg.
    intros [= <-]. exists (Uses (Py.lower g)).
    split; [by eapply cl_use|]. simpl. rewrite app_nil_r. f_equal. set_solver. }
  apply String.eqb_neq in Hu.
  intros [= <-]. exists Ignored. split; [by apply cl_other|].
  simpl. rewrite app_nil_r. f_equal. set_solver.
Qed.

Lemma parse_line_Raise n d u line ex :
  parse_line (n, d, u) line = Raise ex →
  ex = AttributeError ∧ keyword_without_identifier line.
Proof.
  unfold parse_line, keyword_without_identifier.
  pose proof (skipped_cases line) as Hsk. fold (keyword line).
  destruct (Py.lstrip line) as [|c r] eqn:Hstrip; [done|].
  destruct (Ascii.eqb c "!") eqn:Hc; [done|].
  assert (¬ skipped line) as Hns by (rewrite Hsk; congruence).
  destruct (String.eqb (keyword line) "module") eqn:Hm.
  { apply eqb_true_iff in Hm.
    destruct (Py.re_match_group1 "module" (String c r)) as [g|] eqn:Hg.
    { by destruct (negb _). }
    intros [= <-]. split; [done|]. split; [done|].
    exists "module". rewrite <- re_match_group1_None. auto. }
  destruct (String.eqb (keyword line) "use") eqn:Hu; [|done].
  apply eqb_true_iff in Hu.
  destruct (Py.re_match_group1 "use" (String c r)) as [g|] eqn:Hg; [done|].
  intros [= <-]. split; [done|]. split; [done|].
  exists "use". rewrite <- re_match_group1_None. auto.
Qed.

Lemma classifies_not_keyword_without_identifier line k :
  classifies line k → ¬ keyword_without_identifier line.
Proof.
  intros Hk (Hns & kw & Hkw & Hline & Hno).
  destruct Hk as [Hs|i _ Hm Hi _|i _ Hm Hi _|i _ Hu Hi|_ Hm Hu];
    [done|..]; destruct Hkw as [-> | ->]; try congruence;
    by eapply Hno.
Qed.

Lemma parse_lines_Ok f : ∀ n d u st',
  parse_lines (n, d, u) f = Ok st' →
  ∃ kinds, Forall2 classifies f kinds ∧
    st' = (n + Z.of_nat (length f),
           d ++ (kinds ≫= defined_by),
           list_to_set (kinds ≫= used_by) ∪ u).
Proof.
  induction f as [|line f IH]; intros n d u st'; simpl.
  - intros [= <-]. exists []. split; [constructor|].
    simpl. rewrite app_nil_r. f_equal; [f_equal; lia | set_solver].
  - intros H. inv_bind H as [[n1 d1] u1] Ha.
    apply parse_line_Ok in Ha as (k & Hk & [= -> -> ->]).
    apply IH in H as (kinds & Hkinds & ->).
    exists (k :: kinds). split; [by constructor|].
    simpl. rewrite <- app_assoc. f_equal; [f_equal; lia|].
    rewrite list_to_set_app_L. set_solver.
Qed.

Lemma parse_lines_Raise f : ∀ st ex,
  parse_lines st f = Raise ex →
  ex = AttributeError ∧ Exists keyword_without_identifier f.
Proof.
  induction f as [|line f IH]; intros [[n d] u] ex; [done|].
  change (parse_lines (n, d, u) (line :: f))
    with (parse_line (n, d, u) line ≫= λ st', parse_lines st' f).
  destruct (parse_line (n, d, u) line) as [st1|ex1] eqn:H1; simpl.
  - intros Hr. apply IH in Hr as [-> Hr]. split; [done|]. by apply Exists_cons_tl.
  - intros [= <-]. apply parse_line_Raise in H1 as [-> H1].
    split; [done|]. by apply Exists_cons_hd.
Qed.

Lemma parse_lines_total f : ∀ st,
  Forall (λ line, ¬ keyword_without_identifier line) f →
  ∃ st', parse_lines st f = Ok st'.
Proof.
  intros st Hall. destruct (parse_lines st f) as [st'|ex] eqn:Hp; [eauto|].
  apply parse_lines_Raise in Hp as [_ Hp].
  apply Exists_exists in Hp as (line & Hin & Hline).
  rewrite Forall_forall in Hall. by destruct (Hall line Hin).
Qed.

End parser.


(** ** Claims on the parser *)

(** What [parse_modules] returns on a file in which every line that
    starts with one of the two keywords has an identifier after it: the
    count is the number of lines; empty and comment lines are skipped; a
    line whose first space-delimited word is [module] in some casing
    contributes the identifier after it, in lower case, to the list of
    definitions unless it is [procedure]; a line whose first
    space-delimited word is [use] contributes its identifier to the
    uses; and the uses returned are those collected minus the
    definitions. *)
Lemma parse_modules_classifies (f : list string) :
  Forall (λ line, ¬ keyword_without_identifier line) f →
  ∃ kinds,
    Forall2 classifies f kinds ∧
    parse_modules f =
      Ok (Z.of_nat (length f),
          kinds ≫= defined_by,
          list_to_set (kinds ≫= used_by) ∖ list_to_set (kinds ≫= defined_by)).
Proof.
  intros Hall. unfold parse_modules.
  destruct (parse_lines_total f (0, [], ∅) Hall) as [st' Hst'].
  rewrite Hst'. apply parse_lines_Ok in Hst' as (kinds & Hkinds & ->).
  exists kinds. split; [done|]. simpl. do 2 f_equal. set_solver.
Qed.

Lemma parse_modules_classifies_witness :
  ∃ kinds,
    Forall2 classifies Example.sample kinds ∧
    parse_modules Example.sample =
      Ok (7, kinds ≫= defined_by,
          list_to_set (kinds ≫= used_by) ∖ list_to_set (kinds ≫= defined_by)).
Proof.
  apply (parse_modules_classifies Example.sample).
  unfold Example.sample, Example.lines. cbn [fmap list_fmap].
  repeat constructor; intros Hk;
    (eapply classifies_not_keyword_without_identifier; [|exact Hk]).
  - apply (cl_module _ "Foo_1");
      [rewrite skipped_cases; by vm_compute|by vm_compute| |by vm_compute].
    apply re_match_group1_Some. by vm_compute.
  - apply (cl_use _ "bar"); [rewrite skipped_cases; by vm_compute|by vm_compute|].
    apply re_match_group1_Some. by vm_compute.
  - apply (cl_procedure _ "procedure");
      [rewrite skipped_cases; by vm_compute|by vm_compute| |by vm_compute].
    apply re_match_group1_Some. by vm_compute.
  - apply cl_skipped. rewrite skipped_cases. by vm_compute.
  - apply cl_skipped. rewrite skipped_cases. by vm_compute.
  - apply (cl_use _ "foo_1"); [rewrite skipped_cases; by vm_compute|by vm_compute|].
    apply re_match_group1_Some. by vm_compute.
  - apply cl_other; [rewrite skipped_cases; by vm_compute|by vm_compute..].
Defined.

(** C6. The claim fails on the line [module<TAB>foo]. Its first
    white-space-delimited word is [module], the identifier after that
    word is [foo], and the pattern [module\s+(\w+)] with which the code
    extracts the identifier matches the line and gives [foo]; but the
    code takes the first word with [line.split(' ', 1)], which splits at
    a space only, so the word is the whole line and the line contributes
    nothing. With a space in place of the tab, [foo] is defined. *)
Theorem parse_modules_tab_ignored :
  keyword_ws Example.tabbed = "module" ∧
  identifier_after "module" Example.tabbed "foo" ∧
  Py.re_match_group1 "module" Example.tabbed = Some "foo" ∧
  keyword Example.tabbed = Example.tabbed ∧
  parse_modules [Example.tabbed] = Ok (1, [], ∅) ∧
  parse_modules (Example.lines ["module foo"]) = Ok (1, ["foo"], ∅).
Proof.
  split; [by vm_compute|]. split; [|repeat split; by vm_compute].
  apply re_match_group1_Some. by vm_compute.
Qed.

(** C10 (as amended). On a line whose first space-delimited word is
    [module] or [use] and that has no identifier after it (the line
    [module] alone at the end of a file that has no final line terminator,
    or [use ,]) [parse_modules] returns no result: it raises
    [AttributeError], from the identifier extraction. It returns exactly
    on the files in which every such line has its identifier. *)
Theorem parse_modules_partial :
  parse_modules ["module"] = Raise AttributeError ∧
  parse_modules (Example.lines ["use ,"]) = Raise AttributeError ∧
  (∀ f ex, parse_modules f = Raise ex →
     ex = AttributeError ∧ Exists keyword_without_identifier f) ∧
  (∀ f, (∃ r, parse_modules f = Ok r) ↔
        Forall (λ line, ¬ keyword_without_identifier line) f).
Proof.
  split; [by vm_compute|]. split; [by vm_compute|]. split.
  - intros f ex. unfold parse_modules.
    destruct (parse_lines (0, [], ∅) f) as [[[n d] u]|ex'] eqn:Hp; [done|].
    intros [= <-]. by eapply parse_lines_Raise.
  - intros f. split.
    + intros [r Hr]. unfold parse_modules in Hr. inv_bind Hr as [[n d] u] Ha.
      apply parse_lines_Ok in Ha as (kinds & Hkinds & _).
      clear Hr. induction Hkinds as [|line k f kinds Hk _ IH]; constructor; [|done].
      by eapply classifies_not_keyword_without_identifier.
    + intros Hall. unfold parse_modules.
      destruct (parse_lines_total f (0, [], ∅) Hall) as [[[n d] u] ->]. simpl. eauto.
Qed.

(** C10 fails as stated on its examples. The first space-delimited word
    of the line [use,] is [use,]: the line is ignored and the parser
    returns. So it does on the line [module] when a line terminator
    follows, which is then part of the word. *)
Lemma parse_modules_use_comma_counterexample :
  keyword ("use," +:+ Example.nl) = "use," +:+ Example.nl ∧
  parse_modules (Example.lines ["use,"]) = Ok (1, [], ∅) ∧
  parse_modules ["use,"] = Ok (1, [], ∅) ∧
  keyword ("module" +:+ Example.nl) = "module" +:+ Example.nl ∧
  parse_modules (Example.lines ["module"]) = Ok (1, [], ∅).
Proof. repeat split; by vm_compute. Qed.


(** ** Priorities *)

Section priority.

Variable tree : gmap string (list string).

Implicit Types (P : gmap string Z) (l : list string).

Lemma lookup_sum_mono P P' l s :
  P ⊆ P' → lookup_sum P l = Some s → lookup_sum P' l = Some s.
Proof.
  intros Hsub. revert s. induction l as [|c l IH]; intros s; simpl; [done|].
  destruct (P !! c) as [p|] eqn:Hc; [|done]. simpl.
  destruct (lookup_sum P l) as [s'|] eqn:Hl; [|done]. simpl. intros [= <-].
  rewrite (lookup_weaken _ _ _ _ Hc Hsub). simpl. by rewrite (IH _ eq_refl).
Qed.

Lemma lookup_sum_elem P l s c :
  (∀ n p, P !! n = Some p → 1 ≤ p) →
  lookup_sum P l = Some s → c ∈ l → ∃ pc, P !! c = Some pc ∧ 1 ≤ pc ≤ s.
Proof.
  intros Hpos. revert s. induction l as [|d l IH]; intros s Hs Hin.
  { by apply elem_of_nil in Hin. }
  simpl in Hs. destruct (P !! d) as [p|] eqn:Hd; [|done]. simpl in Hs.
  destruct (lookup_sum P l) as [s'|] eqn:Hl; [|done]. simpl in Hs.
  injection Hs as <-. pose proof (Hpos _ _ Hd).
  assert (0 ≤ s') as Hs'.
  { clear -Hpos Hl. revert s' Hl. induction l as [|e l IH]; intros s'; simpl.
    - intros [= <-]. lia.
    - destruct (P !! e) as [q|] eqn:He; [|done]. simpl.
      destruct (lookup_sum P l) as [t|]; [|done]. simpl. intros [= <-].
      pose proof (Hpos _ _ He). pose proof (IH _ eq_refl). lia. }
  apply elem_of_cons in Hin as [->|Hin].
  - exists p. split; [done|lia].
  - destruct (IH _ eq_refl Hin) as (pc & Hpc & ?). exists pc. split; [done|lia].
Qed.

Lemma lookup_sum_nonneg P l s :
  (∀ n p, P !! n = Some p → 1 ≤ p) → lookup_sum P l = Some s → 0 ≤ s.
Proof.
  intros Hpos. revert s. induction l as [|e l IH]; intros s; simpl.
  - intros [= <-]. lia.
  - destruct (P !! e) as [q|] eqn:He; [|done]. simpl.
    destruct (lookup_sum P l) as [t|]; [|done]. simpl. intros [= <-].
    pose proof (Hpos _ _ He). pose proof (IH _ eq_refl). lia.
Qed.

Lemma priority_ok_pos P : priority_ok tree P → ∀ n p, P !! n = Some p → 1 ≤ p.
Proof. intros Hok n p Hn. by destruct (Hok n p Hn). Qed.

Lemma sum_calls_ok call l :
  keeps_priority_ok tree call →
  ∀ P s P', priority_ok tree P → sum_calls call l P = Ok (s, P') →
    priority_ok tree P' ∧ P ⊆ P' ∧ lookup_sum P' l = Some s.
Proof.
  intros Hcall. induction l as [|n l IH]; intros P s P' Hok; simpl.
  - intros [= <- <-]. done.
  - intros H. inv_bind H as [p P1] Ha. inv_bind H as [s' P2] Ha0.
    injection H as <- <-.
    destruct (Hcall _ _ _ _ Hok Ha) as (Hok1 & Hsub1 & Hn).
    destruct (IH _ _ _ Hok1 Ha0) as (Hok2 & Hsub2 & Hl).
    split; [done|]. split; [by etrans|].
    rewrite (lookup_weaken _ _ _ _ Hn Hsub2). simpl. by rewrite Hl.
Qed.

Lemma priority_getset_ok fuel : keeps_priority_ok tree (priority_getset fuel tree).
Proof.
  induction fuel as [|fuel IH]; intros node P p P' Hok; simpl; [done|].
  destruct (P !! node) as [q|] eqn:Hnode.
  { intros [= <- <-]. done. }
  intros H. inv_bind H as ch Ha. apply getitem_Ok in Ha.
  inv_bind H as [s P1] Ha0. injection H as <- <-.
  destruct (sum_calls_ok _ _ IH _ _ _ Hok Ha0) as (Hok1 & Hsub1 & Hsum).
  pose proof (lookup_sum_nonneg _ _ _ (priority_ok_pos _ Hok1) Hsum) as Hs.
  destruct (P1 !! node) as [q|] eqn:Hq.
  - destruct (Hok1 _ _ Hq) as (_ & ch' & Hch' & Hsum').
    assert (q = 1 + s) as -> by (simplify_eq; lia).
    rewrite (insert_id _ _ _ Hq). done.
  - assert (P1 ⊆ <[node := 1 + s]> P1) as Hsub2 by by apply insert_subseteq.
    split; [|split; [by etrans | by rewrite lookup_insert_eq]].
    intros n p. destruct (decide (n = node)) as [->|Hne].
    + rewrite lookup_insert_eq. intros [= <-]. split; [lia|].
      exists ch. split; [done|].
      replace (1 + s - 1) with s by lia. by eapply lookup_sum_mono.
    + rewrite lookup_insert_ne by done. intros Hn.
      destruct (Hok1 _ _ Hn) as (? & chn & Hchn & Hsumn).
      split; [done|]. exists chn. split; [done|]. by eapply lookup_sum_mono.
Qed.

Lemma priority_loop_ok fuel order : ∀ P P',
  priority_ok tree P → priority_loop fuel tree order P = Ok P' →
  priority_ok tree P' ∧ P ⊆ P' ∧ ∀ n, n ∈ order → is_Some (P' !! n).
Proof.
  induction order as [|node order IH]; intros P P' Hok; simpl.
  - intros [= <-]. split; [done|]. split; [done|]. by intros n ?%elem_of_nil.
  - intros H. inv_bind H as [p P1] Ha.
    destruct (priority_getset_ok _ _ _ _ _ Hok Ha) as (Hok1 & Hsub1 & Hn).
    destruct (IH _ _ Hok1 H) as (Hok2 & Hsub2 & Hall).
    split; [done|]. split; [by etrans|].
    intros n [->|Hin]%elem_of_cons; [|by auto].
    rewrite (lookup_weaken _ _ _ _ Hn Hsub2). eauto.
Qed.

Lemma get_priority_ok fuel order P :
  get_priority fuel tree order = Ok P →
  priority_ok tree P ∧ ∀ n, n ∈ order → is_Some (P !! n).
Proof.
  intros H. apply priority_loop_ok in H as (? & _ & ?); [done|].
  intros n p. by rewrite lookup_empty.
Qed.

(** A node has a greater priority than each of its children. *)
Lemma priority_ok_child P n p ch c :
  priority_ok tree P → P !! n = Some p → tree !! n = Some ch → c ∈ ch →
  ∃ pc, P !! c = Some pc ∧ 1 ≤ pc < p.
Proof.
  intros Hok Hn Hch Hc. destruct (Hok _ _ Hn) as (_ & ch' & Hch' & Hsum).
  simplify_eq.
  destruct (lookup_sum_elem _ _ _ _ (priority_ok_pos _ Hok) Hsum Hc) as (pc & ? & ?).
  exists pc. split; [done|lia].
Qed.

End priority.

(** ** Ancestors *)

Section ancestors.

Variable tree : gmap string (gset string).
Variable iter : string → gset string → list string.

Hypothesis Hiter : ∀ node (X : gset string), iter node X ≡ₚ elements X.

Implicit Types (A : gmap string (gset string)) (l : list string) (a : gset string).

Lemma update_calls_ok call l :
  keeps_ancestors_ok tree call →
  ∀ acc A acc' A', ancestors_ok tree A → update_calls call l acc A = Ok (acc', A') →
    ancestors_ok tree A' ∧ A ⊆ A' ∧
    (∀ c, c ∈ l → is_Some (A' !! c)) ∧
    (∀ x, x ∈ acc' ↔ x ∈ acc ∨ ∃ c ac, c ∈ l ∧ A' !! c = Some ac ∧ x ∈ ac).
Proof.
  intros Hcall. induction l as [|n l IH]; intros acc A acc' A' Hok; simpl.
  - intros [= <- <-]. split; [done|]. split; [done|].
    split; [by intros c ?%elem_of_nil|].
    intros x. split; [by left|]. intros [?|(c & ac & ?%elem_of_nil & _)]; done.
  - intros H. inv_bind H as [an A1] Ha.
    destruct (Hcall _ _ _ _ Hok Ha) as (Hok1 & Hsub1 & Hn).
    destruct (IH _ _ _ _ Hok1 H) as (Hok2 & Hsub2 & Hall & Hacc).
    pose proof (lookup_weaken _ _ _ _ Hn Hsub2) as Hn'.
    split; [done|]. split; [by etrans|]. split.
    + intros c [->|Hin]%elem_of_cons; [eauto|auto].
    + intros x. rewrite Hacc, elem_of_union. split.
      * intros [[?|?]|(c & ac & Hc & Hac & Hx)].
        -- by left.
        -- right. exists n, an. split; [left|done].
        -- right. exists c, ac. split; [by right|done].
      * intros [?|(c & ac & [->|Hc]%elem_of_cons & Hac & Hx)].
        -- by left; left.
        -- left; right. by simplify_eq.
        -- right. by exists c, ac.
Qed.

Lemma ancestors_ok_weaken A A' n a ps :
  A ⊆ A' → tree !! n = Some ps →
  (∀ p, p ∈ ps → is_Some (A !! p)) →
  (∀ x, x ∈ a ↔ x ∈ ps ∨ ∃ p ap, p ∈ ps ∧ A !! p = Some ap ∧ x ∈ ap) →
  (∀ p, p ∈ ps → is_Some (A' !! p)) ∧
  (∀ x, x ∈ a ↔ x ∈ ps ∨ ∃ p ap, p ∈ ps ∧ A' !! p = Some ap ∧ x ∈ ap).
Proof.
  intros Hsub Hps Hdom Ha. split.
  - intros p Hp. destruct (Hdom p Hp) as [ap Hap].
    rewrite (lookup_weaken _ _ _ _ Hap Hsub). eauto.
  - intros x. rewrite Ha. split.
    + intros [?|(p & ap & Hp & Hap & Hx)]; [by left|].
      right. exists p, ap. split; [done|]. split; [|done].
      by eapply lookup_weaken.
    + intros [?|(p & ap & Hp & Hap & Hx)]; [by left|].
      right. exists p, ap. split; [done|]. split; [|done].
      destruct (Hdom p Hp) as [ap' Hap'].
      by rewrite (lookup_weaken _ _ _ _ Hap' Hsub) in Hap; simplify_eq.
Qed.

Lemma ancestors_getset_ok fuel :
  keeps_ancestors_ok tree (ancestors_getset iter fuel tree).
Proof.
  induction fuel as [|fuel IH]; intros node A a A' Hok; simpl; [done|].
  destruct (A !! node) as [q|] eqn:Hnode.
  { intros [= <- <-]. done. }
  intros H. inv_bind H as ps Ha. apply getitem_Ok in Ha.
  inv_bind H as [ancs A1] Ha0. injection H as <- <-.
  destruct (update_calls_ok _ _ IH _ _ _ _ Hok Ha0) as (Hok1 & Hsub1 & Hdom & Hancs).
  assert (∀ p, p ∈ ps → is_Some (A1 !! p)) as Hdom'.
  { intros p Hp. apply Hdom. rewrite Hiter. by apply elem_of_elements. }
  assert (∀ x, x ∈ ancs ↔ x ∈ ps ∨ ∃ p ap, p ∈ ps ∧ A1 !! p = Some ap ∧ x ∈ ap) as Heq.
  { intros x. rewrite Hancs. setoid_rewrite Hiter.
    setoid_rewrite elem_of_elements. done. }
  destruct (A1 !! node) as [q|] eqn:Hq.
  - destruct (Hok1 _ _ Hq) as ((ps' & Hps' & _ & Hq') & _). simplify_eq.
    assert (ancs = q) as ->.
    { apply set_eq. intros x. by rewrite Heq, Hq'. }
    rewrite (insert_id _ _ _ Hq). done.
  - assert (A1 ⊆ <[node := ancs]> A1) as Hsub2 by by apply insert_subseteq.
    split; [|split; [by etrans | by rewrite lookup_insert_eq]].
    intros n an. destruct (decide (n = node)) as [->|Hne].
    + rewrite lookup_insert_eq. intros [= <-]. split.
      * exists ps. split; [done|]. by eapply ancestors_ok_weaken.
      * intros x [Hx|(p & ap & Hp & Hap & Hx)]%Heq.
        -- apply tc_once. by exists ps.
        -- eapply tc_l; [by exists ps|]. by eapply (Hok1 p ap).
    + rewrite lookup_insert_ne by done. intros Hn.
      destruct (Hok1 _ _ Hn) as ((psn & Hpsn & Hdn & Hen) & Htc).
      split; [|done]. exists psn. split; [done|]. by eapply ancestors_ok_weaken.
Qed.

Lemma ancestors_loop_ok fuel order : ∀ A A',
  ancestors_ok tree A → ancestors_loop iter fuel tree order A = Ok A' →
  ancestors_ok tree A' ∧ A ⊆ A' ∧ ∀ n, n ∈ order → is_Some (A' !! n).
Proof.
  induction order as [|node order IH]; intros A A' Hok; simpl.
  - intros [= <-]. split; [done|]. split; [done|]. by intros n ?%elem_of_nil.
  - intros H. inv_bind H as [a A1] Ha.
    destruct (ancestors_getset_ok _ _ _ _ _ Hok Ha) as (Hok1 & Hsub1 & Hn).
    destruct (IH _ _ Hok1 H) as (Hok2 & Hsub2 & Hall).
    split; [done|]. split; [by etrans|].
    intros n [->|Hin]%elem_of_cons; [|by auto].
    rewrite (lookup_weaken _ _ _ _ Hn Hsub2). eauto.
Qed.

Lemma get_ancestors_ok fuel order A :
  get_ancestors iter fuel tree order = Ok A →
  ancestors_ok tree A ∧ ∀ n, n ∈ order → is_Some (A !! n).
Proof.
  intros H. apply ancestors_loop_ok in H as (? & _ & ?); [done|].
  intros n p. by rewrite lookup_empty.
Qed.

(** The entry of a node holds everything a path of edges reaches. *)
Lemma ancestors_ok_complete A n x :
  ancestors_ok tree A → tc (edge tree) n x →
  ∀ a, A !! n = Some a → x ∈ a ∧ is_Some (A !! x).
Proof.
  intros Hok. induction 1 as [n x (ps & Hps & Hx)|n p x (ps & Hps & Hp) _ IH];
    intros a Hn; destruct (Hok _ _ Hn) as ((ps' & Hps' & Hdom & Ha) & _);
    simplify_eq.
  - split; [|by auto]. apply Ha. by left.
  - destruct (Hdom p Hp) as [ap Hap]. destruct (IH _ Hap) as [Hxa ?].
    split; [|done]. apply Ha. right. by exists p, ap.
Qed.

Lemma ancestors_ok_transitive A y x a b :
  ancestors_ok tree A → A !! y = Some a → x ∈ a → A !! x = Some b → b ⊆ a.
Proof.
  intros Hok Hy Hx Hb z Hz.
  destruct (Hok _ _ Hy) as (_ & Hya). destruct (Hok _ _ Hb) as (_ & Hxb).
  refine (proj1 (ancestors_ok_complete A y z Hok _ a Hy)).
  eapply tc_transitive; [by apply Hya | by apply Hxb].
Qed.

Lemma ancestors_ok_closed A y x a :
  ancestors_ok tree A → A !! y = Some a → x ∈ a → is_Some (A !! x).
Proof.
  intros Hok Hy Hx. destruct (Hok _ _ Hy) as (_ & Hya).
  exact (proj2 (ancestors_ok_complete A y x Hok (Hya x Hx) a Hy)).
Qed.

End ancestors.


(** ** Graph builder *)

Lemma elem_of_iterate e s (X : gset string) x :
  iterates_sets e → x ∈ iterate e s X ↔ x ∈ X.
Proof. intros Hiter. by rewrite (Hiter s X), elem_of_elements. Qed.

Lemma NoDup_iterate e s (X : gset string) : iterates_sets e → NoDup (iterate e s X).
Proof. intros Hiter. rewrite (Hiter s X). apply NoDup_elements. Qed.

Section get_tree.

Variable e : env.

Implicit Types (tasks done : list (string * Task)) (sc : scan)
  (mod_defs : gmap string string) (sd : gmap string (gset string))
  (mu : gmap string (list string)).

Lemma record_defs_Ok src : ∀ defined mod_defs mod_defs',
  record_defs src defined mod_defs = Ok mod_defs' →
  NoDup defined ∧ (∀ m, m ∈ defined → mod_defs !! m = None) ∧
  ∀ m, mod_defs' !! m = if decide (m ∈ defined) then Some src else mod_defs !! m.
Proof.
  induction defined as [|x defined IH]; intros md md'; simpl.
  - intros [= <-]. split; [constructor|]. split; [by intros m ?%elem_of_nil|].
    done.
  - destruct (md !! x) as [first|] eqn:Hx; [done|]. intros H.
    apply IH in H as (Hnd & Hfresh & Hmd').
    assert (x ∉ defined) as Hxd.
    { intros Hin. specialize (Hfresh x Hin). by rewrite lookup_insert_eq in Hfresh. }
    split; [by constructor|]. split.
    + intros m [->|Hin]%elem_of_cons; [done|].
      specialize (Hfresh m Hin). rewrite lookup_insert in Hfresh.
      by destruct (decide (x = m)).
    + intros m. rewrite Hmd'. destruct (decide (m ∈ defined)) as [Hin|Hnin].
      * rewrite decide_True; [done|by right].
      * rewrite lookup_insert. destruct (decide (x = m)) as [->|Hne].
        -- rewrite decide_True; [done|by left].
        -- rewrite decide_False; [done|]. by intros [->|?]%elem_of_cons.
Qed.

Lemma scan_task_Ok sc src task sc' :
  scan_task e sc (src, task) = Ok sc' →
  ∃ n d u h,
    scanned e task = Some (n, d, u, h) ∧
    record_defs src d (sc_mod_defs sc) = Ok (sc_mod_defs sc') ∧
    sc_src_mods sc' = <[src := d]> (sc_src_mods sc) ∧
    sc_src_deps sc' = <[src := u]> (sc_src_deps sc) ∧
    sc_line_nums sc' = <[src := n]> (sc_line_nums sc) ∧
    sc_hashes sc' = <[src := h]> (sc_hashes sc).
Proof.
  unfold scan_task, scanned, get_hash, py_open.
  destruct (open_file e (source task)) as [f|]; [|done]. simpl.
  destruct (parse_modules (text_lines f)) as [[[n d] u]|]; [|done]. simpl.
  intros H. inv_bind H as md Hmd. injection H as <-. simpl.
  by exists n, d, u, (sha1_hexdigest e (repr_tuple e (args task) +:+ raw_bytes f)).
Qed.

Lemma scan_inv_empty : scan_inv e [] scan_empty.
Proof.
  split; simpl.
  - intros src _. by rewrite !lookup_empty.
  - by intros src task ?%elem_of_nil.
  - intros m s. rewrite lookup_empty. split; [done|].
    intros (mods & Hm & _). by rewrite lookup_empty in Hm.
Qed.

Lemma scan_inv_step done sc src task sc' :
  src ∉ done.*1 → scan_inv e done sc →
  scan_task e sc (src, task) = Ok sc' →
  scan_inv e (done ++ [(src, task)]) sc'.
Proof.
  intros Hsrc Hinv H.
  apply scan_task_Ok in H as (n & d & u & h & Hsc & Hrec & Hm & Hd & Hl & Hh).
  apply record_defs_Ok in Hrec as (Hnd & Hfresh & Hdefs).
  destruct (scan_fresh _ _ _ Hinv src Hsrc) as (Hm0 & Hd0 & Hl0 & Hh0).
  split.
  - intros s. rewrite fmap_app, not_elem_of_app. simpl.
    intros [Hs Hne%not_elem_of_cons]. destruct Hne as [Hne _].
    rewrite Hm, Hd, Hl, Hh, !lookup_insert_ne by done.
    by apply (scan_fresh _ _ _ Hinv).
  - intros s t [Hin|Hin%list_elem_of_singleton]%elem_of_app.
    + assert (s ≠ src) as Hne.
      { intros ->. apply Hsrc. apply list_elem_of_fmap. by exists (src, t). }
      rewrite Hm, Hd, Hl, Hh, !lookup_insert_ne by done.
      by apply (scan_done _ _ _ Hinv).
    + injection Hin as -> ->. exists n, d, u, h.
      by rewrite Hm, Hd, Hl, Hh, !lookup_insert_eq.
  - intros m s. rewrite Hdefs, Hm. destruct (decide (m ∈ d)) as [Hin|Hnin].
    + split.
      * intros [= <-]. exists d. by rewrite lookup_insert_eq.
      * intros (mods & Hmods & Hmm). f_equal.
        destruct (decide (src = s)) as [|Hne]; [done|].
        rewrite lookup_insert_ne in Hmods by done.
        assert (sc_mod_defs sc !! m = Some s) as Hc
          by (apply (scan_defs _ _ _ Hinv); eauto).
        by rewrite (Hfresh m Hin) in Hc.
    + rewrite (scan_defs _ _ _ Hinv). split.
      * intros (mods & Hmods & Hmm). exists mods. split; [|done].
        rewrite lookup_insert_ne; [done|]. intros <-. congruence.
      * intros (mods & Hmods & Hmm). exists mods. split; [|done].
        rewrite lookup_insert in Hmods.
        destruct (decide (src = s)); [by simplify_eq|done].
Qed.

Lemma scan_tasks_inv tasks : ∀ done sc sc',
  NoDup ((done ++ tasks).*1) → scan_inv e done sc →
  scan_tasks e sc tasks = Ok sc' → scan_inv e (done ++ tasks) sc'.
Proof.
  induction tasks as [|[src task] tasks IH]; intros done sc sc' Hnd Hinv; simpl.
  - intros [= <-]. by rewrite app_nil_r.
  - intros H. inv_bind H as sc1 H1.
    replace (done ++ (src, task) :: tasks) with ((done ++ [(src, task)]) ++ tasks)
      in * by by rewrite <- app_assoc.
    apply (IH _ sc1); [done| |done].
    apply (scan_inv_step _ sc); [|done..].
    rewrite !fmap_app in Hnd. simpl in Hnd.
    apply NoDup_app in Hnd as (Hnd & _ & _).
    apply NoDup_app in Hnd as (_ & Hnd & _).
    intros Hin. apply (Hnd src Hin). by left.
Qed.

Lemma scan_tasks_Ok tasks sc :
  NoDup (tasks.*1) → scan_tasks e scan_empty tasks = Ok sc → scan_inv e tasks sc.
Proof.
  intros Hnd H. apply (scan_tasks_inv tasks [] scan_empty sc); [done| |done].
  apply scan_inv_empty.
Qed.

Lemma elem_of_all_used sd m :
  m ∈ all_used sd ↔ ∃ s used, sd !! s = Some used ∧ m ∈ used.
Proof.
  unfold all_used.
  apply (map_fold_weak_ind (λ acc sd, m ∈ acc ↔ ∃ s used, sd !! s = Some used ∧ m ∈ used)).
  - split; [set_solver|]. intros (s & used & Hs & _). by rewrite lookup_empty in Hs.
  - intros s used sd' acc Hs IH. rewrite elem_of_union, IH. split.
    + intros [Hm|(s' & used' & Hs' & Hm)].
      * exists s, used. by rewrite lookup_insert_eq.
      * exists s', used'. rewrite lookup_insert_ne; [done|]. intros <-. congruence.
    + intros (s' & used' & Hs' & Hm). rewrite lookup_insert in Hs'.
      destruct (decide (s = s')); [left; by simplify_eq|right; eauto].
Qed.

Lemma check_defined_Ok mod_defs mods :
  check_defined mod_defs mods = Ok tt ↔ ∀ m, m ∈ mods → is_Some (mod_defs !! m).
Proof.
  induction mods as [|m mods IH]; simpl.
  - split; [by intros _ m ?%elem_of_nil|done].
  - destruct (mod_defs !! m) as [s|] eqn:Hm.
    + rewrite IH. split.
      * intros H x [->|Hx]%elem_of_cons; [by rewrite Hm|auto].
      * intros H x Hx. apply H. by right.
    + split; [done|]. intros H. destruct (H m) as [? ?]; [by left|congruence].
Qed.

Lemma uses_of_insert mu m l m' :
  uses_of (<[m := l]> mu) m' = if decide (m = m') then l else uses_of mu m'.
Proof. unfold uses_of. rewrite lookup_insert. by destruct (decide (m = m')). Qed.

Lemma uses_of_add_uses src : ∀ modules mu m,
  NoDup modules →
  uses_of (add_uses src modules mu) m =
    uses_of mu m ++ (if decide (m ∈ modules) then [src] else []).
Proof.
  unfold add_uses.
  induction modules as [|x modules IH]; intros mu m Hnd; simpl.
  - by rewrite app_nil_r.
  - apply NoDup_cons in Hnd as [Hx Hnd]. rewrite IH by done.
    rewrite uses_of_insert. destruct (decide (x = m)) as [->|Hne].
    + rewrite decide_False by done. rewrite decide_True by by left.
      by rewrite app_nil_r.
    + destruct (decide (m ∈ modules)) as [Hin|Hnin].
      * rewrite decide_True; [done|by right].
      * rewrite decide_False; [done|]. by intros [->|?]%elem_of_cons.
Qed.

Lemma uses_of_build_mod_uses sd : iterates_sets e → ∀ order mu m,
  uses_of (build_mod_uses e order sd mu) m =
    uses_of mu m ++ filter (λ s, m ∈ default ∅ (sd !! s)) order.
Proof.
  intros Hiter. induction order as [|src order IH]; intros mu m; simpl.
  - by rewrite app_nil_r.
  - rewrite IH, uses_of_add_uses by by apply NoDup_iterate.
    rewrite <- app_assoc. f_equal. rewrite filter_cons.
    destruct (decide (m ∈ iterate e (InUses src) (default ∅ (sd !! src))))
      as [Hin|Hnin].
    + rewrite decide_True; [done|]. by apply elem_of_iterate in Hin.
    + rewrite decide_False; [done|]. by rewrite <- (elem_of_iterate e (InUses src)).
Qed.

Lemma elem_of_children_of mu mods c :
  c ∈ children_of mu mods ↔ ∃ m, m ∈ mods ∧ c ∈ uses_of mu m.
Proof. unfold children_of. rewrite list_elem_of_bind. naive_solver. Qed.

Lemma parents_of_Ok mod_defs : ∀ mods ps,
  parents_of mod_defs mods = Ok ps →
  ∀ p, p ∈ ps ↔ ∃ m, m ∈ mods ∧ mod_defs !! m = Some p.
Proof.
  induction mods as [|m mods IH]; intros ps; simpl.
  - intros [= <-] p. split; [set_solver|]. by intros (m & ?%elem_of_nil & _).
  - intros H. inv_bind H as s Hs. apply getitem_Ok in Hs.
    inv_bind H as ps' Hps. injection H as <-. intros p.
    rewrite elem_of_union, elem_of_singleton, (IH _ Hps). split.
    + intros [->|(m' & Hm' & Hp)]; [exists m; split; [by left|done]|].
      exists m'. split; [by right|done].
    + intros (m' & [->|Hm']%elem_of_cons & Hp); [left; congruence|right; eauto].
Qed.

Lemma parents_tree_Ok mod_defs sd : iterates_sets e → ∀ order ptree,
  parents_tree e mod_defs order sd = Ok ptree →
  (∀ s, s ∈ order → is_Some (ptree !! s)) ∧
  ∀ s ps, ptree !! s = Some ps →
    s ∈ order ∧
    ∀ p, p ∈ ps ↔ ∃ m, m ∈ default ∅ (sd !! s) ∧ mod_defs !! m = Some p.
Proof.
  intros Hiter. induction order as [|src order IH]; intros ptree; simpl.
  - intros [= <-]. split; [by intros s ?%elem_of_nil|].
    intros s ps. by rewrite lookup_empty.
  - intros H. inv_bind H as ps0 Hps0. inv_bind H as t Ht. injection H as <-.
    destruct (IH _ Ht) as [Hall Hsome]. split.
    + intros s [->|Hs]%elem_of_cons; [by rewrite lookup_insert_eq|].
      rewrite lookup_insert. destruct (decide (src = s)); [done|auto].
    + intros s ps. rewrite lookup_insert. destruct (decide (src = s)) as [<-|Hne].
      * intros [= <-]. split; [by left|]. intros p.
        rewrite (parents_of_Ok _ _ _ Hps0).
        split; intros (m & Hm & ?); exists m; split; try done;
          by apply (elem_of_iterate e (InParents src)).
      * intros Hs. destruct (Hsome _ _ Hs) as [? ?]. split; [by right|done].
Qed.

(** A tree that [get_tree] returns has what the scheduler relies on. *)
Lemma get_tree_wf fuel tasks tree :
  iterates_sets e →
  NoDup (tasks.*1) → get_tree e fuel tasks = Ok tree → tree_wf tasks tree.
Proof.
  intros Hiter Hnd H. unfold get_tree in H.
  inv_bind H as sc Hsc. apply scan_tasks_Ok in Hsc; [|done].
  inv_bind H as sd Hsd. inv_bind H as u Hchk. destruct u.
  rewrite check_defined_Ok in Hchk.
  setoid_rewrite (elem_of_iterate e InCheck _ _ Hiter) in Hchk.
  setoid_rewrite elem_of_all_used in Hchk.
  inv_bind H as P HP. apply get_priority_ok in HP as [HPok HPall].
  inv_bind H as ptree Hpt. apply parents_tree_Ok in Hpt as [Hptall Hpt]; [|done].
  inv_bind H as A HA. apply get_ancestors_ok in HA as [HAok HAall];
    [|intros node X; apply Hiter].
  injection H as <-.
  set (mu := build_mod_uses e tasks.*1 sd ∅) in *.
  assert (∀ m d, d ∈ uses_of mu m ↔ d ∈ tasks.*1 ∧ m ∈ default ∅ (sd !! d)) as Huses.
  { intros m d. unfold mu. rewrite uses_of_build_mod_uses by done.
    unfold uses_of at 1. rewrite lookup_empty. simpl.
    by rewrite list_elem_of_filter, (comm and). }
  assert (∀ s, is_Some (sc_src_mods sc !! s) → s ∈ tasks.*1) as Hkeys.
  { intros s Hs. destruct (decide (s ∈ tasks.*1)) as [|Hn]; [done|].
    destruct (scan_fresh _ _ _ Hsc s Hn) as [Hnone _].
    rewrite Hnone in Hs. by destruct Hs. }
  assert (∀ s, s ∈ tasks.*1 →
            is_Some (sc_src_mods sc !! s) ∧ is_Some (sc_hashes sc !! s) ∧
            is_Some (sc_line_nums sc !! s)) as Hscanned.
  { intros s ((s' & task) & -> & Hin)%list_elem_of_fmap. simpl.
    destruct (scan_done _ _ _ Hsc _ _ Hin) as (n & d & u & h & _ & -> & _ & -> & ->).
    eauto. }
  (* an edge of the ancestor tree is, reversed, an edge of the priority tree *)
  assert (∀ d s, edge ptree d s ↔
            ∃ mods m, sc_src_mods sc !! s = Some mods ∧ m ∈ mods ∧ d ∈ uses_of mu m)
    as Hedge.
  { intros d s. unfold edge. split.
    - intros (ps & Hps & Hs). destruct (Hpt _ _ Hps) as [Hd Hps'].
      apply Hps' in Hs as (m & Hm & Hdef).
      apply (scan_defs _ _ _ Hsc) in Hdef as (mods & Hmods & Hmm).
      exists mods, m. split; [done|]. split; [done|]. by apply Huses.
    - intros (mods & m & Hmods & Hmm & Hd). apply Huses in Hd as [Hd Hm].
      destruct (Hptall d Hd) as [ps Hps]. exists ps. split; [done|].
      destruct (Hpt _ _ Hps) as [_ Hps']. apply Hps'. exists m. split; [done|].
      apply (scan_defs _ _ _ Hsc). eauto. }
  assert (∀ d s, edge ptree d s → ∀ pd, P !! d = Some pd →
            ∃ ps, P !! s = Some ps ∧ pd < ps) as Hstep.
  { intros d s (mods & m & Hmods & Hmm & Hd)%Hedge pd Hpd.
    destruct (HPall s) as [ps Hps]; [apply Hkeys; eauto|].
    exists ps. split; [done|].
    destruct (priority_ok_child _ P s ps (children_of mu mods) d HPok Hps)
      as (pd' & Hpd' & ?).
    - by rewrite lookup_fmap, Hmods.
    - apply elem_of_children_of. eauto.
    - simplify_eq. lia. }
  split; simpl.
  - intros s Hs. destruct (Hscanned s Hs) as (? & ? & ?). auto 10.
  - intros s mods m d Hmods Hmm Hd.
    assert (edge ptree d s) as Hds by (apply Hedge; eauto).
    apply Huses in Hd as [Hd _]. destruct (HAall d Hd) as [a Ha].
    exists a. split; [done|].
    refine (proj1 (ancestors_ok_complete _ A d s HAok _ a Ha)). by apply tc_once.
  - intros y x a b. by apply (ancestors_ok_transitive ptree).
  - intros s p Hs. by destruct (HPok _ _ Hs).
  - intros s a d Ha Hd. destruct (HAok _ _ Ha) as [(ps & Hps & _) Htc].
    destruct (Hpt _ _ Hps) as [Hs _]. destruct (HPall s Hs) as [p Hp].
    specialize (Htc d Hd). clear Ha Hd Hps Hs. exists p. revert p Hp.
    induction Htc as [s d Hsx|s x d Hsx _ IH]; intros p Hp.
    + destruct (Hstep _ _ Hsx _ Hp) as (pd & ? & ?). by exists pd.
    + destruct (Hstep _ _ Hsx _ Hp) as (px & Hpx & ?).
      destruct (IH _ Hpx) as (pd & ? & ? & ?). simplify_eq.
      exists pd. split; [done|]. split; [done|lia].
  - intros m d [Hd _]%Huses. by apply Hscanned.
  - intros m. unfold mu. rewrite uses_of_build_mod_uses by done.
    unfold uses_of at 1. rewrite lookup_empty. simpl. by apply NoDup_filter.
Qed.

End get_tree.


(** Closed decidable goals, by evaluation. *)
Ltac by_compute :=
  lazymatch goal with
  | |- ?P => apply (bool_decide_unpack P); vm_compute; exact I
  end.

Lemma example_iterates : iterates_sets Example.world.
Proof. by intros s X. Qed.

(** ** Claims on the task tree *)

(** C3 (as amended). In every task tree that the graph builder returns,
    every source has a priority, every priority is at least 1, and the
    priority of an ancestor [d] of a source [s] (a member of
    [ancestors[s]]: a source that [s] needs, directly or not, through the
    modules it uses) is greater than the priority of [s]. *)
Theorem priority_above_dependents e fuel tasks tree :
  iterates_sets e → NoDup (tasks.*1) → get_tree e fuel tasks = Ok tree →
  (∀ s, s ∈ tasks.*1 → ∃ p, priority tree !! s = Some p ∧ 1 ≤ p) ∧
  (∀ s a d, ancestors tree !! s = Some a → d ∈ a →
     ∃ ps pd, priority tree !! s = Some ps ∧ priority tree !! d = Some pd ∧ ps < pd).
Proof.
  intros Hiter Hnd Htree. pose proof (get_tree_wf _ _ _ _ Hiter Hnd Htree) as Hwf.
  split.
  - intros s Hs. destruct (wf_sources _ _ Hwf s Hs) as (_ & _ & _ & [p Hp] & _).
    exists p. split; [done|]. by eapply wf_priority_pos.
  - intros s a d. by apply (wf_priority_ancestor _ _ Hwf).
Qed.

Lemma priority_above_dependents_witness :
  ∃ tree,
    get_tree Example.world 10 Example.tasks = Ok tree ∧
    (∀ s, s ∈ Example.tasks.*1 → ∃ p, priority tree !! s = Some p ∧ 1 ≤ p) ∧
    (∀ s a d, ancestors tree !! s = Some a → d ∈ a →
       ∃ ps pd, priority tree !! s = Some ps ∧ priority tree !! d = Some pd ∧ ps < pd).
Proof.
  eexists. split; [vm_compute; reflexivity|].
  apply (priority_above_dependents Example.world 10 Example.tasks);
    [by intros s X | by_compute | vm_compute; reflexivity].
Defined.

(** C3 fails as stated. With [a] defining the module that [b] uses, [a] is
    an ancestor of [b], and the priority of [b] is 1, that of [a] is 2. *)
Lemma priority_order_counterexample :
  ∃ tree,
    get_tree Example.world 10 Example.two_tasks = Ok tree ∧
    ancestors tree !! "b" = Some {["a"]} ∧
    priority tree !! "b" = Some 1 ∧ priority tree !! "a" = Some 2 ∧
    ¬ (1 > 2).
Proof.
  eexists. split; [vm_compute; reflexivity|].
  split; [by vm_compute|]. split; [by vm_compute|]. split; [by vm_compute|lia].
Qed.


(** ** Sets, lists and the priority queue *)

Lemma filter_ext_elem {A : Type} (P1 P2 : A → Prop)
    `{!∀ x, Decision (P1 x), !∀ x, Decision (P2 x)} (l : list A) :
  (∀ x, x ∈ l → P1 x ↔ P2 x) → filter P1 l = filter P2 l.
Proof.
  induction l as [|y l IH]; intros Hl; [done|].
  rewrite !filter_cons, IH by (intros x Hx; apply Hl; by right).
  destruct (decide (P1 y)) as [H1|H1], (decide (P2 y)) as [H2|H2]; try done;
    destruct (Hl y); [by left|tauto|by left|tauto].
Qed.

Lemma union_move (w sch : gset string) (src : string) :
  src ∈ w → w ∪ sch = w ∖ {[src]} ∪ ({[src]} ∪ sch).
Proof.
  intros Hw. apply set_eq. intros y.
  destruct (decide (y = src)) as [->|]; set_solver.
Qed.

Lemma pop_min_perm q : ∀ x q', pop_min q = Some (x, q') → q ≡ₚ x :: q'.
Proof.
  induction q as [|y q IH]; intros x q'; simpl; [done|].
  destruct (pop_min q) as [[z r]|] eqn:Hq.
  - specialize (IH _ _ eq_refl).
    destruct (item_compare y z); intros [= <- <-]; [done..|].
    rewrite IH. apply perm_swap.
  - intros [= <- <-]. by destruct q as [|? q]; [|simpl in Hq; destruct (pop_min q) as [[??]|]; [destruct (item_compare _ _)|]].
Qed.

(** ** Scheduler, for any tree *)

Section dispatch.

Variables (e : env) (tasks : list (string * Task)) (tree : TaskTree) (njobs : nat).

Implicit Types (c : config) (s : sched) (uses todo : list string).

Lemma notify_scheduled uses : ∀ s, scheduled (notify tree uses s).1 = scheduled s.
Proof.
  induction uses as [|d uses IH]; intros s; simpl; [done|].
  repeat case_decide; try done.
  - by rewrite IH.
  - destruct (line_nums tree !! d); [by rewrite IH|done].
Qed.

Lemma notify_waiting uses : ∀ s x, x ∈ waiting s → x ∈ waiting (notify tree uses s).1.
Proof.
  induction uses as [|d uses IH]; intros s x Hx; simpl; [done|].
  repeat case_decide; try done.
  - by apply IH.
  - destruct (line_nums tree !! d); [|done]. apply IH. simpl. set_solver.
Qed.

Lemma sum_lines_Raise changed_files ex :
  sum_lines tree changed_files = Raise ex → ex ≠ AssertionError.
Proof.
  induction changed_files as [|src l IH]; simpl; [done|].
  unfold getitem. destruct (line_nums tree !! src); simpl; [|by intros [= <-]].
  destruct (sum_lines tree l); simpl; [done|]. intros [= <-]. by apply IH.
Qed.

(** The loop over the sources that use a module, none of which is
    scheduled: it raises nothing, and moves to [waiting] those that are
    not there yet. *)
Lemma notify_Ok uses : ∀ s,
  NoDup uses →
  (∀ d, d ∈ uses → (d ∉ scheduled s) ∧ is_Some (line_nums tree !! d)) →
  ∃ s', notify tree uses s = (s', None) ∧
    scheduled s' = scheduled s ∧ n_lines s' = n_lines s ∧
    waiting s' = waiting s ∪ (list_to_set uses) ∧
    n_all_lines s' = n_all_lines s + new_lines tree uses (waiting s) ∧
    ∀ k, s_hashes s' !! k = (if decide (k ∈ uses) then None else s_hashes s !! k).
Proof.
  unfold new_lines.
  induction uses as [|d uses IH]; intros s Hnd Hpre.
  { exists s. simpl. split; [done|]. split; [done|]. split; [done|].
    split; [set_solver|]. split; [lia|done]. }
  apply NoDup_cons in Hnd as [Hd Hnd].
  destruct (Hpre d) as [Hsched [n Hn]]; [by left|].
  simpl. rewrite decide_False by done.
  destruct (decide (d ∈ waiting s)) as [Hw|Hw].
  - destruct (IH (with_hashes (delete d) s) Hnd) as (s' & -> & Hs & Hl & Hwt & Hal & Hh).
    { intros x Hx. simpl. apply Hpre. by right. }
    exists s'. simpl in *. split; [done|]. split; [done|]. split; [done|].
    split; [set_solver|]. split.
    + rewrite Hal, filter_cons, decide_False by auto. done.
    + intros k. rewrite Hh. destruct (decide (k ∈ uses)) as [Hk|Hk].
      * rewrite decide_True; [done|by right].
      * rewrite lookup_delete. destruct (decide (d = k)) as [->|Hne].
        -- rewrite decide_True; [done|by left].
        -- rewrite decide_False; [done|]. by intros [->|?]%elem_of_cons.
  - rewrite Hn.
    destruct (IH (with_waiting (union {[d]})
                    (with_n_all_lines (Z.add n) (with_hashes (delete d) s))) Hnd)
      as (s' & -> & Hs & Hl & Hwt & Hal & Hh).
    { intros x Hx. simpl. apply Hpre. by right. }
    exists s'. simpl in *. split; [done|]. split; [done|]. split; [done|].
    split; [set_solver|]. split.
    + rewrite Hal, filter_cons, decide_True by done.
      rewrite fmap_cons, Hn. cbn [foldr]. simpl (default 0 (Some n)).
      assert (filter (λ x, x ∉ {[d]} ∪ waiting s) uses
              = filter (λ x, x ∉ waiting s) uses) as ->; [|lia].
      apply filter_ext_elem. intros x Hx.
      assert (x ≠ d) by (by intros ->). set_solver.
    + intros k. rewrite Hh. destruct (decide (k ∈ uses)) as [Hk|Hk].
      * rewrite decide_True; [done|by right].
      * rewrite lookup_delete. destruct (decide (d = k)) as [->|Hne].
        -- rewrite decide_True; [done|by left].
        -- rewrite decide_False; [done|]. by intros [->|?]%elem_of_cons.
Qed.

Lemma task_of_Raise src ex : task_of tasks src = Raise ex → ex = KeyError src.
Proof.
  unfold task_of. destruct (list_find _ tasks) as [[? [? ?]]|]; [done|].
  by intros [= <-].
Qed.

(** What [dispatch] does when it moves a source to [scheduled]. *)
Lemma dispatch_scheduled c blocking src c' r x :
  src ∈ waiting (st c) →
  dispatch tasks tree blocking src c = (c', r) →
  x ∈ scheduled (st c') → x ∉ scheduled (st c) →
  x = src ∧ r = None ∧
  ∃ anc p t,
    ancestors tree !! src = Some anc ∧ blocking ∩ anc = ∅ ∧
    priority tree !! src = Some p ∧ task_of tasks src = Ok t ∧
    waiting (st c') = waiting (st c) ∖ {[src]} ∧
    scheduled (st c') = {[src]} ∪ scheduled (st c) ∧
    s_hashes (st c') = delete src (s_hashes (st c)) ∧
    task_queue c' = (- p, src, args t ++ [source t]) :: task_queue c.
Proof.
  intros Hw. unfold dispatch.
  destruct (ancestors tree !! src) as [anc|] eqn:Hanc; [|by intros [= <- <-]].
  destruct (decide (_ ∩ anc = ∅)) as [Hgate|Hgate]; [|by intros [= <- <-]].
  destruct (priority tree !! src) as [p|]; [|by intros [= <- <-]].
  destruct (task_of tasks src) as [t|ex] eqn:Ht; [|by intros [= <- <-]].
  simpl. rewrite decide_True by done. intros [= <- <-]. simpl.
  intros [->%elem_of_singleton|?]%elem_of_union Hx; [|done].
  split; [done|]. split; [done|]. by exists anc, p, t.
Qed.

Lemma dispatch_loop_inv c blocking src todo c' :
  ctl c = AtDispatch blocking (src :: todo) → loop_inv c →
  dispatch tasks tree blocking src c = (c', None) →
  loop_inv (sched_move c' (AtDispatch blocking todo) (st c')).
Proof.
  unfold loop_inv at 1. intros -> (-> & Hnd & Htodo).
  apply NoDup_cons in Hnd as [Hsrc Hnd].
  assert (src ∈ waiting (st c)) as Hw by (apply Htodo; by left).
  assert (∀ x, x ∈ todo → x ∈ waiting (st c) ∖ {[src]}) as Htodo'.
  { intros x Hx. assert (x ≠ src) by (by intros ->).
    assert (x ∈ waiting (st c)) by (apply Htodo; by right). set_solver. }
  unfold dispatch.
  destruct (ancestors tree !! src) as [anc|] eqn:Hanc; [|done].
  destruct (decide (_ ∩ anc = ∅)) as [Hgate|Hgate]; cycle 1.
  { intros [= <-]. unfold loop_inv. simpl. split; [done|]. split; [done|].
    intros x Hx. apply Htodo. by right. }
  destruct (priority tree !! src) as [p|]; [|done].
  destruct (task_of tasks src) as [t|ex] eqn:Ht; [|done].
  simpl. rewrite decide_True by done. intros [= <-].
  unfold loop_inv. simpl. split; [by apply union_move|]. done.
Qed.

Lemma loop_inv_step ev c c' :
  loop_inv c → step e tasks tree njobs ev c = Some c' → loop_inv c'.
Proof.
  intros Hinv. destruct ev as [mod_bytes order| |i retcode]; simpl.
  - unfold sched_step. destruct (ctl c) as [|blocking todo| |src mods| |ex|ex] eqn:Hctl.
    + case_decide as Horder; [|done].
      intros [= <-]. unfold loop_inv. simpl. split; [done|].
      split; [rewrite Horder; apply NoDup_elements|].
      intros x. by rewrite Horder, elem_of_elements.
    + destruct todo as [|src todo].
      * repeat case_decide; by intros [= <-].
      * destruct (dispatch tasks tree blocking src c) as [c1 [ex|]] eqn:Hd;
          intros [= <-]; [done|]. by eapply dispatch_loop_inv.
    + destruct (result_queue c) as [|[src retcode] rest]; [done|].
      simpl. by destruct (complete tree src retcode (st c)) as [s [mods|ex]];
        intros [= <-].
    + destruct mods as [|m mods]; intros [= <-]; [done|].
      by destruct (propagate e tree m mod_bytes (st c)) as [s [ex|]].
    + by intros [= <-].
    + by intros [= <-].
    + done.
  - unfold worker_take. destruct (ctl c); try done. case_decide; [|done].
    destruct (pop_min (task_queue c)) as [[[[p name] a] q]|]; [|done].
    by intros [= <-].
  - unfold worker_done. destruct (ctl c); try done.
    destruct (running c !! i); [|done]. by intros [= <-].
Qed.

Lemma loop_inv_init live changed_files :
  loop_inv (scheduler_init tree live changed_files).
Proof. unfold scheduler_init. by destruct (sum_lines tree changed_files). Qed.

Lemma reachable_loop_inv c0 c :
  loop_inv c0 → reachable e tasks tree njobs c0 c → loop_inv c.
Proof. intros H0. induction 1; [done|]. by eapply loop_inv_step. Qed.

(** A step that adds a source to [scheduled] is a dispatch. *)
Lemma step_scheduled ev c c' x :
  loop_inv c → step e tasks tree njobs ev c = Some c' →
  x ∈ scheduled (st c') → x ∉ scheduled (st c) →
  ∃ anc p t,
    ancestors tree !! x = Some anc ∧
    anc ∩ (waiting (st c) ∪ scheduled (st c)) = ∅ ∧
    x ∈ waiting (st c) ∧
    waiting (st c') = waiting (st c) ∖ {[x]} ∧
    scheduled (st c') = {[x]} ∪ scheduled (st c) ∧
    s_hashes (st c') = delete x (s_hashes (st c)) ∧
    priority tree !! x = Some p ∧ task_of tasks x = Ok t ∧
    task_queue c' = (- p, x, args t ++ [source t]) :: task_queue c.
Proof.
  intros Hinv. destruct ev as [mod_bytes order| |i retcode]; simpl.
  - unfold sched_step. destruct (ctl c) as [|blocking todo| |src mods| |ex|ex] eqn:Hctl.
    + case_decide; [|done]. by intros [= <-].
    + destruct todo as [|src todo].
      * repeat case_decide; by intros [= <-].
      * unfold loop_inv in Hinv. rewrite Hctl in Hinv.
        destruct Hinv as (-> & Hnd & Htodo).
        assert (src ∈ waiting (st c)) as Hw by (apply Htodo; by left).
        destruct (dispatch tasks tree _ src c) as [c1 r] eqn:Hd.
        intros Hc' Hx Hx'.
        assert (x ∈ scheduled (st c1)) as Hx1 by (by destruct r; simplify_eq).
        destruct (dispatch_scheduled _ _ _ _ _ _ Hw Hd Hx1 Hx')
          as (-> & -> & anc & p & t & ? & Hgate & ? & ? & ? & ? & ? & ?).
        injection Hc' as <-. simpl. exists anc, p, t.
        rewrite (comm_L (∩)). done.
    + destruct (result_queue c) as [|[src retcode] rest]; [done|]. simpl.
      unfold complete. repeat case_match; simplify_eq; intros [= <-]; simpl;
        try done; set_solver.
    + destruct mods as [|m mods]; intros [= <-]; [done|]. intros Hx Hx'.
      exfalso. apply Hx'. revert Hx. unfold propagate.
      destruct mod_bytes as [bytes|]; [|done].
      destruct (hash_differs _ _); [|done].
      pose proof (notify_scheduled (uses_of (mod_uses tree) m)
                    (with_hashes (insert (m +:+ ".mod")
                       (JString (sha1_hexdigest e bytes))) (st c))) as Hs.
      destruct (notify tree _ _) as [s' [ex|]]; simpl in *; by rewrite Hs.
    + by intros [= <-].
    + by intros [= <-].
    + done.
  - unfold worker_take. destruct (ctl c); try done. case_decide; [|done].
    destruct (pop_min (task_queue c)) as [[[[p name] a] q]|]; [|done].
    by intros [= <-].
  - unfold worker_done. destruct (ctl c); try done.
    destruct (running c !! i); [|done]. by intros [= <-].
Qed.

Lemma run_reachable evs : ∀ c c',
  run e tasks tree njobs evs c = Some c' → reachable e tasks tree njobs c c'.
Proof.
  assert (∀ c0 c c', reachable e tasks tree njobs c0 c →
            run e tasks tree njobs evs c = Some c' →
            reachable e tasks tree njobs c0 c') as H.
  { induction evs as [|ev evs IH]; intros c0 c c' Hc; simpl.
    - by intros [= <-].
    - destruct (step e tasks tree njobs ev c) as [c1|] eqn:Hs; [|done].
      apply IH. by eapply reach_step. }
  intros c c'. apply H. constructor.
Qed.

End dispatch.



(** ** Scheduler, for a tree of the graph builder *)

Section scheduler.

Variables (e : env) (tasks : list (string * Task)) (tree : TaskTree) (njobs : nat).

Hypothesis Hwf : tree_wf tasks tree.

Implicit Types (c : config) (s : sched) (uses todo : list string).

Lemma live_inv_perm c c' :
  st c = st c' → in_flight c ≡ₚ in_flight c' → live_inv tree c → live_inv tree c'.
Proof.
  intros Hst Hperm [H1 H2 H3 H4]. split; rewrite <- ?Hst.
  - done.
  - done.
  - by rewrite <- Hperm.
  - intros x. by rewrite <- Hperm.
Qed.

Lemma live_inv_move c k : live_inv tree c → live_inv tree (sched_move c k (st c)).
Proof. by apply live_inv_perm. Qed.

Lemma ctl_inv_init live changed_files :
  ctl_inv tree (scheduler_init tree live changed_files).
Proof.
  unfold scheduler_init, ctl_inv.
  destruct (sum_lines tree changed_files) as [n|ex] eqn:Hsum; simpl.
  - split; simpl; [set_solver|set_solver|constructor|set_solver].
  - by eapply sum_lines_Raise.
Qed.

(** In a configuration that satisfies the invariant, the sources that
    use a module of the source being handled are not scheduled. *)
Lemma uses_not_scheduled c src m mods d :
  ctl c = AtModules src (m :: mods) → ctl_inv tree c →
  d ∈ uses_of (mod_uses tree) m → d ∉ scheduled (st c).
Proof.
  unfold ctl_inv. intros -> (Hlive & Hsrc & all & Hall & Hsub) Hd Hsch.
  destruct (wf_uses_ancestor _ _ Hwf src all m d) as (a & Ha & Hin); [done| |done|].
  { apply Hsub. by left. }
  by apply (Hsrc d a).
Qed.

Lemma dispatch_inv c blocking src todo c' r :
  ctl c = AtDispatch blocking (src :: todo) → ctl_inv tree c →
  dispatch tasks tree blocking src c = (c', r) →
  match r with
  | None => ctl_inv tree (sched_move c' (AtDispatch blocking todo) (st c'))
  | Some ex => ex ≠ AssertionError
  end.
Proof.
  unfold ctl_inv at 1. intros Hctl. rewrite Hctl.
  intros (Hlive & -> & Hnd & Htodo). apply NoDup_cons in Hnd as [Hsrc Hnd].
  assert (src ∈ waiting (st c)) as Hw by (apply Htodo; by left).
  unfold dispatch.
  destruct (ancestors tree !! src) as [anc|] eqn:Hanc; [|by intros [= <- <-]].
  destruct (decide (_ ∩ anc = ∅)) as [Hgate|Hgate]; cycle 1.
  { intros [= <- <-]. unfold ctl_inv. simpl. split; [by apply live_inv_move|].
    split; [done|]. split; [done|]. intros x Hx. apply Htodo. by right. }
  destruct (priority tree !! src) as [p|]; [|by intros [= <- <-]].
  destruct (task_of tasks src) as [t|ex] eqn:Ht; cycle 1.
  { intros [= <- <-]. by rewrite (task_of_Raise _ _ _ Ht). }
  simpl. rewrite decide_True by done. intros [= <- <-].
  destruct Hlive as [H1 H2 H3 H4]. unfold ctl_inv. simpl.
  split; [split; simpl|].
  - set_solver.
  - intros x a [->%elem_of_singleton|Hx]%elem_of_union Ha.
    + simplify_eq. set_solver.
    + specialize (H2 x a Hx Ha). set_solver.
  - unfold in_flight in *. simpl. constructor; [|done].
    rewrite H4. set_solver.
  - intros x. unfold in_flight in *. simpl. rewrite elem_of_cons, H4. set_solver.
  - split; [by apply union_move|]. split; [done|]. intros x Hx.
    assert (x ≠ src) by (by intros ->).
    assert (x ∈ waiting (st c)) by (apply Htodo; by right).
    clear -H H0. set_solver.
Qed.

Lemma complete_inv c src retcode rest s r :
  ctl c = AtAwait → ctl_inv tree c →
  result_queue c = (src, retcode) :: rest →
  complete tree src retcode (st c) = (s, r) →
  match r with
  | Ok mods =>
      ctl_inv tree
        {| ctl := AtModules src mods; st := s; task_queue := task_queue c;
           running := running c; result_queue := rest; cachefile := cachefile c |}
  | Raise ex => ex ≠ AssertionError
  end.
Proof.
  unfold ctl_inv at 1. intros -> [H1 H2 H3 H4] Hq. unfold complete.
  destruct (decide (retcode ≠ 0)) as [Hrc|Hrc]; [by intros [= <- <-]|].
  destruct (line_nums tree !! src) as [n|]; [|by intros [= <- <-]].
  destruct (hashes tree !! src) as [h|]; [|by intros [= <- <-]].
  simpl. destruct (decide (src ∈ scheduled (st c))) as [Hsrc|]; [|by intros [= <- <-]].
  intros [= <- <-]. unfold getitem.
  destruct (src_mods tree !! src) as [all|] eqn:Hall; [|done].
  unfold ctl_inv. simpl.
  assert (in_flight c ≡ₚ
          src :: (((λ entry : item, entry.1.2) <$> task_queue c)
                  ++ running c ++ rest.*1)) as Hperm.
  { unfold in_flight. rewrite Hq. simpl.
    rewrite !app_assoc. by rewrite <- Permutation_middle. }
  rewrite Hperm in H3. apply NoDup_cons in H3 as [Hnin H3].
  split; [split; simpl|].
  - set_solver.
  - intros x a [Hx _]%elem_of_difference Ha. specialize (H2 x a Hx Ha). set_solver.
  - done.
  - intros x. unfold in_flight at 1. simpl. rewrite elem_of_difference.
    rewrite <- H4, Hperm, elem_of_cons, elem_of_singleton. split.
    + intros Hx. split; [by right|]. by intros ->.
    + by intros [[->|?] ?].
  - split; [|by exists all].
    intros x a [Hx _]%elem_of_difference Ha Hin.
    specialize (H2 x a Hx Ha). set_solver.
Qed.

Lemma propagate_inv c src m mods mod_bytes s r :
  ctl c = AtModules src (m :: mods) → ctl_inv tree c →
  propagate e tree m mod_bytes (st c) = (s, r) →
  match r with
  | None => ctl_inv tree (sched_move c (AtModules src mods) s)
  | Some ex => ex ≠ AssertionError
  end.
Proof.
  intros Hctl Hinv.
  pose proof (λ d, uses_not_scheduled _ _ _ _ d Hctl Hinv) as Huses.
  unfold ctl_inv in Hinv. rewrite Hctl in Hinv.
  destruct Hinv as (Hlive & Hsrc & all & Hall & Hsub).
  assert (mods ⊆ all) as Hsub' by (intros x Hx; apply Hsub; by right).
  unfold propagate. destruct mod_bytes as [bytes|]; [|by intros [= <- <-]].
  destruct (hash_differs _ _); cycle 1.
  { intros [= <- <-]. unfold ctl_inv. simpl.
    split; [by apply live_inv_move|]. split; [done|]. by exists all. }
  set (s1 := with_hashes _ (st c)).
  destruct (notify_Ok tree (uses_of (mod_uses tree) m) s1) as (s' & -> & Hs & _ & Hw & _).
  { by apply (wf_uses_nodup _ _ Hwf). }
  { intros d Hd. split; [by apply Huses|]. by apply (wf_uses_lines _ _ Hwf m). }
  intros [= <- <-]. simpl in Hs, Hw. destruct Hlive as [H1 H2 H3 H4].
  unfold ctl_inv. simpl. split; [split; simpl|].
  - rewrite Hs, Hw. intros x [Hx|Hx%elem_of_list_to_set]%elem_of_union Hx'.
    + by apply (H1 x).
    + by apply (Huses x).
  - rewrite Hs, Hw. intros x a Hx Ha y Hy [[Hy'|Hy'%elem_of_list_to_set]%elem_of_union|Hy']%elem_of_union.
    + apply (H2 x a Hx Ha y Hy). set_solver.
    + destruct (wf_uses_ancestor _ _ Hwf src all m y) as (b & Hb & Hin); [done| |done|].
      { apply Hsub. by left. }
      apply (Hsrc x a Hx Ha). by apply (wf_transitive _ _ Hwf x y a b).
    + apply (H2 x a Hx Ha y Hy). set_solver.
  - done.
  - intros x. rewrite Hs. apply H4.
  - rewrite Hs. split; [done|]. by exists all.
Qed.

Lemma ctl_inv_step ev c c' :
  ctl_inv tree c → step e tasks tree njobs ev c = Some c' → ctl_inv tree c'.
Proof.
  intros Hinv. destruct ev as [mod_bytes order| |i retcode]; simpl.
  - unfold sched_step. destruct (ctl c) as [|blocking todo| |src mods| |ex|ex] eqn:Hctl.
    + case_decide as Horder; [|done].
      intros [= <-]. unfold ctl_inv in *. rewrite Hctl in Hinv. simpl.
      split; [by apply live_inv_move|]. split; [done|].
      split; [rewrite Horder; apply NoDup_elements|].
      intros x. by rewrite Horder, elem_of_elements.
    + destruct todo as [|src todo].
      * unfold ctl_inv in Hinv. rewrite Hctl in Hinv. destruct Hinv as [Hlive _].
        repeat case_decide; intros [= <-]; unfold ctl_inv; simpl;
          [done|done|by apply live_inv_move].
      * destruct (dispatch tasks tree blocking src c) as [c1 [ex|]] eqn:Hd;
          intros [= <-]; apply (dispatch_inv _ _ _ _ _ _ Hctl Hinv) in Hd; done.
    + destruct (result_queue c) as [|[src retcode] rest] eqn:Hq; [done|].
      simpl. destruct (complete tree src retcode (st c)) as [s [mods|ex]] eqn:Hc;
        intros [= <-]; apply (complete_inv _ _ _ _ _ _ Hctl Hinv Hq) in Hc; done.
    + destruct mods as [|m mods].
      * intros [= <-]. unfold ctl_inv in *. rewrite Hctl in Hinv. simpl.
        apply live_inv_move. tauto.
      * intros [= <-].
        destruct (propagate e tree m mod_bytes (st c)) as [s [ex|]] eqn:Hp;
          apply (propagate_inv _ _ _ _ _ _ _ Hctl Hinv) in Hp; done.
    + by intros [= <-].
    + intros [= <-]. unfold ctl_inv in *. rewrite Hctl in Hinv. simpl. congruence.
    + done.
  - unfold worker_take. destruct (ctl c) eqn:Hctl; try done.
    case_decide; [|done].
    destruct (pop_min (task_queue c)) as [[[[p name] a] q]|] eqn:Hpop; [|done].
    intros [= <-]. unfold ctl_inv in *. rewrite Hctl in Hinv. simpl.
    revert Hinv. apply live_inv_perm; [done|]. unfold in_flight. simpl.
    apply pop_min_perm in Hpop. rewrite Hpop. simpl.
    rewrite <- !app_assoc. simpl. by rewrite <- !Permutation_middle.
  - unfold worker_done. destruct (ctl c) eqn:Hctl; try done.
    destruct (running c !! i) as [name|] eqn:Hi; [|done].
    intros [= <-]. unfold ctl_inv in *. rewrite Hctl in Hinv. simpl.
    revert Hinv. apply live_inv_perm; [done|]. unfold in_flight. simpl.
    rewrite (delete_Permutation _ _ _ Hi) at 1. rewrite fmap_app. simpl.
    rewrite <- !Permutation_middle. by rewrite app_nil_r.
Qed.

Lemma reachable_inv c0 c :
  ctl_inv tree c0 → reachable e tasks tree njobs c0 c → ctl_inv tree c.
Proof. intros H0. induction 1; [done|]. by eapply ctl_inv_step. Qed.

End scheduler.


(** ** Live hashes and the cache file *)

Section cache.

Variables (e : env) (tasks : list (string * Task)) (tree : TaskTree) (njobs : nat).

Hypothesis Hwf : tree_wf tasks tree.
Hypothesis Hclash : no_clash tasks tree.

Implicit Types (c : config) (s : sched).

Lemma task_of_Ok src t : task_of tasks src = Ok t → src ∈ tasks.*1.
Proof.
  unfold task_of. destruct (list_find _ tasks) as [[i [s' t']]|] eqn:Hf; [|done].
  intros _. apply list_find_Some in Hf as (Hi & Hs & _). simpl in Hs. subst s'.
  apply list_elem_of_fmap. exists (src, t'). split; [done|].
  by eapply list_elem_of_lookup_2.
Qed.

Lemma hashes_inv_step ev c c' :
  ctl_inv tree c → hashes_inv tasks c →
  step e tasks tree njobs ev c = Some c' → hashes_inv tasks c'.
Proof.
  intros Hinv Hh. destruct ev as [mod_bytes order| |i retcode]; simpl.
  - unfold sched_step. destruct (ctl c) as [|blocking todo| |src mods| |ex|ex] eqn:Hctl.
    + case_decide; [|done].
      intros [= <-]. unfold hashes_inv in *. by rewrite Hctl in Hh.
    + unfold hashes_inv in Hh. rewrite Hctl in Hh. destruct todo as [|src todo].
      * repeat case_decide; by intros [= <-].
      * unfold dispatch.
        destruct (ancestors tree !! src) as [anc|]; [|by intros [= <-]].
        destruct (decide (_ ∩ anc = ∅)); [|by intros [= <-]].
        destruct (priority tree !! src) as [p|]; [|by intros [= <-]].
        destruct (task_of tasks src) as [t|ex] eqn:Ht; cycle 1.
        { intros [= <-]. by rewrite (task_of_Raise _ _ _ Ht). }
        apply task_of_Ok in Ht. simpl.
        case_decide; intros [= <-]; [|done].
        unfold hashes_inv, in_flight in *. simpl.
        intros x [->|Hx]%elem_of_cons.
        -- split; [done|]. by rewrite lookup_delete_eq.
        -- destruct (Hh x Hx) as [? Hnone]. split; [done|].
           rewrite lookup_delete. by case_decide.
    + destruct (result_queue c) as [|[src retcode] rest] eqn:Hq; [done|].
      unfold hashes_inv in Hh. rewrite Hctl in Hh.
      unfold ctl_inv in Hinv. rewrite Hctl in Hinv. destruct Hinv as [_ _ Hnd _].
      assert (in_flight c ≡ₚ
              src :: (((λ entry : item, entry.1.2) <$> task_queue c)
                      ++ running c ++ rest.*1)) as Hperm.
      { unfold in_flight. rewrite Hq. simpl.
        rewrite !app_assoc. by rewrite <- Permutation_middle. }
      rewrite Hperm in Hnd. apply NoDup_cons in Hnd as [Hnin _].
      simpl. unfold complete.
      destruct (decide (retcode ≠ 0)) as [Hrc|Hrc].
      { intros [= <-]. unfold hashes_inv. simpl. apply Hh. rewrite Hperm. by left. }
      destruct (line_nums tree !! src) as [n|]; [|by intros [= <-]].
      destruct (hashes tree !! src) as [h|]; [|by intros [= <-]].
      simpl. case_decide; [|by intros [= <-]].
      unfold getitem. destruct (src_mods tree !! src); intros [= <-]; [|done].
      unfold hashes_inv, in_flight at 1. simpl. intros x Hx.
      destruct (Hh x) as [? ?]; [rewrite Hperm; by right|]. split; [done|].
      rewrite lookup_insert_ne; [done|]. by intros <-.
    + destruct mods as [|m mods].
      { intros [= <-]. unfold hashes_inv in *. by rewrite Hctl in Hh. }
      intros [= <-].
      pose proof (λ d, uses_not_scheduled _ _ Hwf _ _ _ _ d Hctl Hinv) as Huses.
      unfold hashes_inv in Hh. rewrite Hctl in Hh.
      unfold ctl_inv in Hinv. rewrite Hctl in Hinv.
      destruct Hinv as (_ & _ & all & Hall & Hsub).
      unfold propagate. destruct mod_bytes as [bytes|]; [|done].
      destruct (hash_differs _ _); [|done].
      destruct (notify_Ok tree (uses_of (mod_uses tree) m)
                  (with_hashes (insert (m +:+ ".mod")
                     (JString (sha1_hexdigest e bytes))) (st c)))
        as (s' & -> & _ & _ & _ & _ & Hk).
      { by apply (wf_uses_nodup _ _ Hwf). }
      { intros d Hd. split; [by apply Huses|]. by apply (wf_uses_lines _ _ Hwf m). }
      unfold hashes_inv, in_flight in *. simpl in *. intros x Hx.
      destruct (Hh x Hx) as [Hin Hnone]. split; [done|].
      rewrite Hk. case_decide; [done|]. rewrite lookup_insert_ne; [done|].
      intros <-. pose proof (map_Forall_lookup_1 _ _ _ _ Hclash Hall) as Hm.
      rewrite Forall_forall in Hm. apply (Hm m); [|done]. apply Hsub. by left.
    + by intros [= <-].
    + intros [= <-]. unfold hashes_inv in *. by rewrite Hctl in Hh.
    + done.
  - unfold worker_take. destruct (ctl c) eqn:Hctl; try done. case_decide; [|done].
    destruct (pop_min (task_queue c)) as [[[[p name] a] q]|] eqn:Hpop; [|done].
    intros [= <-]. unfold hashes_inv in *. rewrite Hctl in Hh. simpl.
    intros x Hx. apply Hh. revert Hx.
    match goal with |- x ∈ ?l → _ => assert (in_flight c ≡ₚ l) as Hperm end.
    { unfold in_flight. simpl. apply pop_min_perm in Hpop. rewrite Hpop. simpl.
      rewrite <- !app_assoc. simpl. by rewrite <- !Permutation_middle. }
    by rewrite Hperm.
  - unfold worker_done. destruct (ctl c) eqn:Hctl; try done.
    destruct (running c !! i) as [name|] eqn:Hi; [|done].
    intros [= <-]. unfold hashes_inv in *. rewrite Hctl in Hh. simpl.
    intros x Hx. apply Hh. revert Hx.
    match goal with |- x ∈ ?l → _ => assert (in_flight c ≡ₚ l) as Hperm end.
    { unfold in_flight. simpl.
      rewrite (delete_Permutation _ _ _ Hi) at 1. rewrite fmap_app. simpl.
      rewrite <- !Permutation_middle. by rewrite app_nil_r. }
    by rewrite Hperm.
Qed.

Lemma hashes_inv_init live changed_files :
  hashes_inv tasks (scheduler_init tree live changed_files).
Proof.
  unfold scheduler_init, hashes_inv.
  destruct (sum_lines tree changed_files) as [n|ex] eqn:Hsum; simpl.
  - by intros x ?%elem_of_nil.
  - clear -Hsum. revert ex Hsum.
    induction changed_files as [|src l IH]; intros ex; simpl; [done|].
    unfold getitem. destruct (line_nums tree !! src); simpl; [|by intros [= <-]].
    destruct (sum_lines tree l); simpl; [done|]. intros [= <-]. by apply IH.
Qed.

Lemma reachable_hashes_inv live changed_files c :
  reachable e tasks tree njobs (scheduler_init tree live changed_files) c →
  ctl_inv tree c ∧ hashes_inv tasks c.
Proof.
  induction 1 as [|c ev c' _ [IH1 IH2] Hstep].
  - split; [by apply (ctl_inv_init tasks)|apply hashes_inv_init].
  - split; [by eapply ctl_inv_step|by eapply hashes_inv_step].
Qed.

End cache.

Section exit.

Variables (e : env) (tasks : list (string * Task)) (tree : TaskTree) (njobs : nat).

Lemma exited_inv_step ev c c' :
  exited_inv c → step e tasks tree njobs ev c = Some c' → exited_inv c'.
Proof.
  intros Hinv. destruct ev as [mod_bytes order| |i retcode]; simpl.
  - unfold sched_step. destruct (ctl c) as [|blocking todo| |src mods| |ex|ex] eqn:Hctl.
    + case_decide; [|done]. by intros [= <-].
    + destruct todo as [|src todo].
      * repeat case_decide; by intros [= <-].
      * by destruct (dispatch tasks tree blocking src c) as [c1 [ex|]]; intros [= <-].
    + destruct (result_queue c) as [|[src retcode] rest]; [done|]. simpl.
      by destruct (complete tree src retcode (st c)) as [s [mods|ex]]; intros [= <-].
    + destruct mods as [|m mods]; intros [= <-]; [done|].
      by destruct (propagate e tree m mod_bytes (st c)) as [s [ex|]].
    + by intros [= <-].
    + by intros [= <-].
    + done.
  - unfold worker_take. destruct (ctl c); try done. case_decide; [|done].
    destruct (pop_min (task_queue c)) as [[[[p name] a] q]|]; [|done].
    by intros [= <-].
  - unfold worker_done. destruct (ctl c); try done.
    destruct (running c !! i); [|done]. by intros [= <-].
Qed.

Lemma reachable_exited_inv c0 c :
  exited_inv c0 → reachable e tasks tree njobs c0 c → exited_inv c.
Proof. intros H0. induction 1; [done|]. by eapply exited_inv_step. Qed.

Lemma exited_inv_init live changed_files :
  exited_inv (scheduler_init tree live changed_files).
Proof. unfold scheduler_init. by destruct (sum_lines tree changed_files). Qed.

End exit.

(** ** Entry point *)

Lemma string_length_append (a b : string) :
  String.length (a +:+ b) = (String.length a + String.length b)%nat.
Proof. induction a as [|c a IH]; [done|]. rewrite append_cons. simpl. by rewrite IH. Qed.

Lemma string_app_inv_tail (a a' b : string) : a +:+ b = a' +:+ b → a = a'.
Proof.
  revert a'. induction a as [|c a IH]; intros [|c' a'] H.
  - done.
  - exfalso. apply (f_equal String.length) in H.
    rewrite !string_length_append in H. simpl in H. lia.
  - exfalso. apply (f_equal String.length) in H.
    rewrite !string_length_append in H. simpl in H. lia.
  - rewrite !append_cons in H. injection H as -> H. f_equal. by apply IH.
Qed.

Lemma hash_differs_false h stored :
  hash_differs h stored = false ↔ stored = Some (JString h).
Proof.
  unfold hash_differs. destruct stored as [[| | | |h'| |]|]; try by split.
  rewrite negb_false_iff, String.eqb_eq. split; congruence.
Qed.

Lemma hash_differs_true h stored :
  hash_differs h stored = true ↔ Some (JString h) ≠ stored.
Proof.
  unfold hash_differs. destruct stored as [[| | | |h'| |]|]; try by split.
  rewrite negb_true_iff, String.eqb_neq. split; congruence.
Qed.

Lemma changed_Ok tree prior tasks :
  (∀ s, s ∈ tasks.*1 → is_Some (hashes tree !! s)) →
  ∃ changed_files,
    changed tree prior tasks = Ok changed_files ∧
    ∀ s, s ∈ changed_files ↔ s ∈ tasks.*1 ∧ JString <$> hashes tree !! s ≠ prior !! s.
Proof.
  induction tasks as [|[src task] tasks IH]; intros Hall.
  - exists []. split; [done|]. intros s. split; [by intros ?%elem_of_nil|].
    by intros [?%elem_of_nil _].
  - destruct IH as (l & Hl & Hiff).
    { intros s Hs. apply Hall. by right. }
    destruct (Hall src) as [h Hh]; [by left|].
    simpl. unfold getitem. rewrite Hh, Hl. simpl.
    eexists. split; [done|]. intros s.
    destruct (hash_differs h (prior !! src)) eqn:Hd.
    + apply hash_differs_true in Hd.
      rewrite !elem_of_cons, Hiff. split.
      * intros [->|[? ?]]; [|by auto]. split; [by left|]. by rewrite Hh.
      * intros [[->|?] ?]; auto.
    + apply hash_differs_false in Hd.
      rewrite elem_of_cons, Hiff. split.
      * intros [? ?]. auto.
      * intros [[->|?] Hne]; [|done]. exfalso. apply Hne. by rewrite Hh, Hd.
Qed.

Lemma get_tree_hashes e fuel tasks tree s task :
  NoDup (tasks.*1) → get_tree e fuel tasks = Ok tree → (s, task) ∈ tasks →
  ∃ f, open_file e (source task) = Some f ∧
       hashes tree !! s
         = Some (sha1_hexdigest e (repr_tuple e (args task) +:+ raw_bytes f)).
Proof.
  intros Hnd H Hin. unfold get_tree in H.
  inv_bind H as sc Hsc. apply scan_tasks_Ok in Hsc; [|done].
  inv_bind H as sd Hsd. inv_bind H as u Hchk. inv_bind H as P HP.
  inv_bind H as ptree Hpt. inv_bind H as A HA. injection H as <-. simpl.
  destruct (scan_done _ _ _ Hsc _ _ Hin) as (n & d & us & h & Hscan & _ & _ & _ & ->).
  unfold scanned in Hscan.
  destruct (open_file e (source task)) as [f|]; [|done]. simpl in Hscan.
  destruct (parse_modules (text_lines f)) as [[[? ?] ?]|]; [|done].
  injection Hscan as <- <- <- <-. by exists f.
Qed.


(** ** Claims on the scheduler *)

Lemma example_tree : get_tree Example.world 10 Example.tasks = Ok Example.tree.
Proof. by vm_compute. Qed.

Lemma example_reachable evs :
  is_Some (run Example.world Example.tasks Example.tree 2 evs Example.start) →
  reachable Example.world Example.tasks Example.tree 2 Example.start (Example.after evs).
Proof.
  intros [c Hc]. apply (run_reachable _ _ _ _ evs). unfold Example.after.
  by rewrite Hc.
Qed.

(** C2. In every configuration that the scheduler and the workers reach,
    a step moves a source [s] into [scheduled] only as a dispatch: no
    member of [ancestors[s]] is in [waiting ∪ scheduled] at that moment;
    [s] goes from [waiting] to [scheduled]; its entry leaves the live
    hashes; and the entry [(-priority[s], s, args + (source_path,))] is
    put on the priority queue. *)
Theorem dispatch_only_when_ready e tasks tree njobs live changed_files c ev c' s :
  reachable e tasks tree njobs (scheduler_init tree live changed_files) c →
  step e tasks tree njobs ev c = Some c' →
  s ∈ scheduled (st c') → s ∉ scheduled (st c) →
  ∃ anc p t,
    ancestors tree !! s = Some anc ∧
    anc ∩ (waiting (st c) ∪ scheduled (st c)) = ∅ ∧
    s ∈ waiting (st c) ∧
    waiting (st c') = waiting (st c) ∖ {[s]} ∧
    scheduled (st c') = {[s]} ∪ scheduled (st c) ∧
    s_hashes (st c') = delete s (s_hashes (st c)) ∧
    priority tree !! s = Some p ∧ task_of tasks s = Ok t ∧
    task_queue c' = (- p, s, args t ++ [source t]) :: task_queue c.
Proof.
  intros Hreach. apply step_scheduled.
  eapply reachable_loop_inv; [|done]. apply loop_inv_init.
Qed.

Lemma dispatch_only_when_ready_witness :
  ∃ anc p t,
    ancestors Example.tree !! "a" = Some anc ∧
    anc ∩ (waiting (st (Example.after Example.to_visit))
           ∪ scheduled (st (Example.after Example.to_visit))) = ∅ ∧
    "a" ∈ waiting (st (Example.after Example.to_visit)) ∧
    waiting (st (Example.after Example.to_dispatched)) =
      waiting (st (Example.after Example.to_visit)) ∖ {["a"]} ∧
    scheduled (st (Example.after Example.to_dispatched)) =
      {["a"]} ∪ scheduled (st (Example.after Example.to_visit)) ∧
    s_hashes (st (Example.after Example.to_dispatched)) =
      delete "a" (s_hashes (st (Example.after Example.to_visit))) ∧
    priority Example.tree !! "a" = Some p ∧ task_of Example.tasks "a" = Ok t ∧
    task_queue (Example.after Example.to_dispatched) =
      (- p, "a", args t ++ [source t]) :: task_queue (Example.after Example.to_visit).
Proof.
  apply (dispatch_only_when_ready Example.world Example.tasks Example.tree 2
           (dict_of Example.prior_hashes) ["a"]
           (Example.after Example.to_visit) Example.sched
           (Example.after Example.to_dispatched) "a").
  - apply example_reachable. by_compute.
  - by vm_compute.
  - by_compute.
  - by_compute.
Defined.

(** C9. In no execution of the scheduler and the workers on a tree of the
    graph builder, from any live hashes and any list of changed files,
    does the assertion [src not in scheduled] fail: no configuration
    reached has raised [AssertionError], and whenever the modules of a
    completed source are visited, no source that uses one of them is
    scheduled. *)
Theorem assertion_never_fails e fuel tasks tree njobs live changed_files c :
  iterates_sets e → NoDup (tasks.*1) → get_tree e fuel tasks = Ok tree →
  reachable e tasks tree njobs (scheduler_init tree live changed_files) c →
  ctl c ≠ Raised AssertionError ∧ ctl c ≠ Exited (Some AssertionError) ∧
  ∀ src m mods d,
    ctl c = AtModules src (m :: mods) → d ∈ uses_of (mod_uses tree) m →
    d ∉ scheduled (st c).
Proof.
  intros Hiter Hnd Htree Hreach.
  pose proof (get_tree_wf _ _ _ _ Hiter Hnd Htree) as Hwf.
  assert (ctl_inv tree c) as Hinv.
  { eapply reachable_inv; [done| |done]. by eapply ctl_inv_init. }
  split; [|split].
  - intros Hc. unfold ctl_inv in Hinv. by rewrite Hc in Hinv.
  - intros Hc. unfold ctl_inv in Hinv. by rewrite Hc in Hinv.
  - intros src m mods d Hc. by eapply uses_not_scheduled.
Qed.

Lemma assertion_never_fails_witness :
  ctl (Example.after Example.to_modules) = AtModules "a" ["m"] ∧
  ctl (Example.after Example.to_modules) ≠ Raised AssertionError ∧
  ctl (Example.after Example.to_modules) ≠ Exited (Some AssertionError) ∧
  ∀ src m mods d,
    ctl (Example.after Example.to_modules) = AtModules src (m :: mods) →
    d ∈ uses_of (mod_uses Example.tree) m →
    d ∉ scheduled (st (Example.after Example.to_modules)).
Proof.
  split; [by vm_compute|].
  apply (assertion_never_fails Example.world 10 Example.tasks Example.tree 2
           (dict_of Example.prior_hashes) ["a"]).
  - by intros s X.
  - by_compute.
  - apply example_tree.
  - apply example_reachable. by_compute.
Defined.




(** ** Claims on the entry point and the cache *)

Lemma build_runs e fuel cache tasks dry tree c0 :
  build e fuel cache tasks dry = BuildRuns tree c0 →
  get_tree e fuel tasks = Ok tree ∧
  ∃ prior changed_files, c0 = scheduler_init tree prior changed_files.
Proof.
  unfold build. destruct (get_tree e fuel tasks) as [t|]; [|done].
  destruct (load_cache cache) as [loaded|]; [|done].
  destruct tasks as [|st tasks']; [done|].
  destruct (as_dict loaded) as [prior|]; [|done]. rewrite bind_Ok_l.
  generalize (changed t prior (st :: tasks')). intros [[|s l]|]; simpl; [done| |done].
  destruct dry; [done|]. intros [= <- <-]. eauto.
Qed.

Lemma example_build :
  build Example.world 10 Example.cache Example.tasks false
    = BuildRuns Example.tree Example.start.
Proof. by vm_compute. Qed.

(** C8 (as amended). In every invocation of [build] that starts the
    scheduler, however the scheduler ends (it returns, it raises
    [CompilationError], it raises anything else), [build] goes on to its
    exit and writes the live hashes, as they are then, to the cache file.
    After a [CompilationError] the hashes written have no entry for the
    source that failed, when no source is named as the interface file of
    a module is. *)
Theorem cache_written_on_exit e fuel cache tasks dry njobs tree c0 c :
  iterates_sets e → NoDup (tasks.*1) →
  build e fuel cache tasks dry = BuildRuns tree c0 →
  reachable e tasks tree njobs c0 c →
  (ctl c = Returned ∨ (∃ ex, ctl c = Raised ex) →
   ∀ mod_bytes order, ∃ c',
     step e tasks tree njobs (Sched mod_bytes order) c = Some c' ∧
     (∃ ex, ctl c' = Exited ex) ∧ cachefile c' = Some (s_hashes (st c))) ∧
  (∀ ex, ctl c = Exited ex → cachefile c = Some (s_hashes (st c))) ∧
  (no_clash tasks tree →
   ∀ src retcode, ctl c = Exited (Some (CompilationError src retcode)) →
     ∃ written, cachefile c = Some written ∧ written !! src = None).
Proof.
  intros Hiter Hnd Hbuild Hreach.
  apply build_runs in Hbuild as (Htree & prior & changed_files & ->).
  pose proof (get_tree_wf _ _ _ _ Hiter Hnd Htree) as Hwf.
  assert (exited_inv c) as Hex.
  { eapply reachable_exited_inv; [|done]. apply exited_inv_init. }
  split; [|split].
  - intros [Hc|[ex Hc]] mod_bytes order; simpl; unfold sched_step; rewrite Hc;
      eexists; (split; [done|]); simpl; eauto.
  - intros ex Hc. unfold exited_inv in Hex. by rewrite Hc in Hex.
  - intros Hclash src retcode Hc.
    destruct (reachable_hashes_inv _ _ _ _ Hwf Hclash _ _ _ Hreach) as [_ Hh].
    unfold exited_inv in Hex. unfold hashes_inv in Hh. rewrite Hc in Hex, Hh.
    by exists (s_hashes (st c)).
Qed.

Lemma cache_written_on_exit_witness :
  ctl (Example.after Example.to_exit) = Exited (Some (CompilationError "b" 3)) ∧
  cachefile (Example.after Example.to_exit)
    = Some (s_hashes (st (Example.after Example.to_exit))) ∧
  ∃ written,
    cachefile (Example.after Example.to_exit) = Some written ∧ written !! "b" = None.
Proof.
  destruct (cache_written_on_exit Example.world 10 Example.cache Example.tasks
              false 2 Example.tree Example.start (Example.after Example.to_exit))
    as (_ & Hexit & Hfail).
  - by intros s X.
  - by_compute.
  - apply example_build.
  - apply example_reachable. by_compute.
  - split; [by vm_compute|]. split.
    + apply (Hexit (Some (CompilationError "b" 3))). by vm_compute.
    + apply (Hfail ltac:(by_compute) "b" 3). by vm_compute.
Defined.

(** C8 fails as stated. A build whose cache is up to date returns, and a
    build whose graph builder raises (here a source file is missing)
    raises, and neither writes the cache file. *)
Lemma cache_not_written_counterexample :
  build_outcome Example.world 10 Example.fresh_cache Example.tasks false 2 []
    = Some (None, None) ∧
  build_outcome Example.world 10 Example.cache Example.lost_tasks false 2 []
    = Some (Some (FileNotFoundError "x.f90"), None).
Proof. split; by vm_compute. Qed.

(** C4. When [build] has its tree and a loaded cache that is a [dict],
    the changed files are exactly the sources [s] with
    [tree.hashes[s] != hashes.get(s)]; the hash of a source is the SHA-1
    digest of [repr(args)] followed by the bytes of its file; so a source
    whose cached hash was taken from the same bytes and other arguments is
    changed, as long as [repr] tells the two tuples apart and SHA-1 does
    not collide on the two inputs; and with no changed file, or with
    [dry], [build] returns before it creates workers. *)
Theorem changed_files_exact e fuel cache tasks dry tree loaded prior :
  NoDup (tasks.*1) →
  get_tree e fuel tasks = Ok tree →
  load_cache cache = Ok loaded → as_dict loaded = Ok prior →
  ∃ changed_files,
    changed tree prior tasks = Ok changed_files ∧
    (∀ s, s ∈ changed_files ↔
          s ∈ tasks.*1 ∧ JString <$> hashes tree !! s ≠ prior !! s) ∧
    (∀ s task, (s, task) ∈ tasks →
       ∃ f, open_file e (source task) = Some f ∧
            hashes tree !! s
              = Some (sha1_hexdigest e (repr_tuple e (args task) +:+ raw_bytes f))) ∧
    (∀ s task f old_args,
       (s, task) ∈ tasks → open_file e (source task) = Some f →
       prior !! s
         = Some (JString (sha1_hexdigest e (repr_tuple e old_args +:+ raw_bytes f))) →
       old_args ≠ args task →
       (repr_tuple e old_args = repr_tuple e (args task) → old_args = args task) →
       (sha1_hexdigest e (repr_tuple e old_args +:+ raw_bytes f)
          = sha1_hexdigest e (repr_tuple e (args task) +:+ raw_bytes f) →
        repr_tuple e old_args +:+ raw_bytes f
          = repr_tuple e (args task) +:+ raw_bytes f) →
       s ∈ changed_files) ∧
    build e fuel cache tasks dry =
      match changed_files with
      | [] => BuildReturned 0
      | _ => if dry then BuildReturned (length changed_files)
             else BuildRuns tree (scheduler_init tree prior changed_files)
      end.
Proof.
  intros Hnd Htree Hload Hdict.
  destruct (changed_Ok tree prior tasks) as (l & Hl & Hiff).
  { intros s ((s' & task) & -> & Hin)%list_elem_of_fmap.
    destruct (get_tree_hashes _ _ _ _ _ _ Hnd Htree Hin) as (f & _ & Hh).
    simpl. by rewrite Hh. }
  exists l. split; [done|]. split; [done|]. split; [|split].
  - intros s task. by apply (get_tree_hashes e fuel).
  - intros s task f old_args Hin Hf Hprior Hargs Hrepr Hsha. apply Hiff. split.
    { apply list_elem_of_fmap. by exists (s, task). }
    destruct (get_tree_hashes _ _ _ _ _ _ Hnd Htree Hin) as (f' & Hf' & ->).
    rewrite Hprior. simplify_eq. simpl. intros [= Heq].
    apply Hargs, Hrepr. symmetry in Heq. apply Hsha in Heq.
    by apply string_app_inv_tail in Heq.
  - unfold build. rewrite Htree, Hload. destruct tasks as [|st tasks'].
    { simpl in Hl. by injection Hl as <-. }
    rewrite Hdict, bind_Ok_l, Hl. simpl. by destruct l.
Qed.

Lemma changed_files_exact_witness :
  ∃ changed_files,
    changed Example.tree (dict_of Example.prior_hashes) Example.tasks = Ok changed_files ∧
    (∀ s, s ∈ changed_files ↔
          s ∈ Example.tasks.*1 ∧
          JString <$> hashes Example.tree !! s ≠ dict_of Example.prior_hashes !! s) ∧
    "a" ∈ changed_files ∧
    build Example.world 10 Example.cache Example.tasks true =
      match changed_files with
      | [] => BuildReturned 0
      | _ => if true then BuildReturned (length changed_files)
             else BuildRuns Example.tree
                    (scheduler_init Example.tree (dict_of Example.prior_hashes)
                       changed_files)
      end.
Proof.
  destruct (changed_files_exact Example.world 10 Example.cache Example.tasks true
              Example.tree (JObject Example.prior_hashes) (dict_of Example.prior_hashes))
    as (l & Hl & Hiff & _ & Hargs & Hbuild).
  - by_compute.
  - apply example_tree.
  - by vm_compute.
  - done.
  - exists l. split; [done|]. split; [done|]. split; [|done].
    apply (Hargs "a" (Example.task "a.f90")
             (Example.text ["module m"; "end module m"])
             ["gfortran"; "-O2"; "-c"]).
    + unfold Example.tasks. apply elem_of_cons. right. apply elem_of_cons. by left.
    + by vm_compute.
    + by vm_compute.
    + done.
    + by vm_compute.
    + by vm_compute.
Defined.

(** C7, where the code departs from it. A missing cache file and a file
    that is not JSON give the empty map; a file that holds JSON of
    another shape makes the load raise: [KeyError] for an object without
    the key [hashes], [TypeError] for a value that is not an object. *)
Theorem load_cache_cases :
  load_cache Missing = Ok (JObject []) ∧
  load_cache NotJson = Ok (JObject []) ∧
  load_cache (Document (JObject [])) = Raise (KeyError "hashes") ∧
  load_cache (Document (JArray [])) = Raise TypeError ∧
  build Example.world 10 (Document (JObject [])) Example.tasks false
    = BuildRaised (KeyError "hashes").
Proof. repeat split; by vm_compute. Qed.


(** ** Errors of the graph builder *)

Section errors.

Variable e : env.

Implicit Types (tasks done : list (string * Task)) (sc : scan)
  (mod_defs : gmap string string) (sd : gmap string (gset string)).

Lemma record_defs_Raise src : ∀ defined mod_defs ex,
  record_defs src defined mod_defs = Raise ex →
  ∃ m first, ex = ModuleMultipleDefined m [first; src] ∧ m ∈ defined ∧
             (mod_defs !! m = Some first ∨ first = src).
Proof.
  induction defined as [|x defined IH]; intros md ex; simpl; [done|].
  destruct (md !! x) as [first|] eqn:Hx.
  - intros [= <-]. exists x, first. split; [done|]. split; [by left|by left].
  - intros (m & first & -> & Hm & Hfirst)%IH. exists m, first.
    split; [done|]. split; [by right|].
    destruct Hfirst as [Hfirst|]; [|by right].
    rewrite lookup_insert in Hfirst. case_decide; [right; congruence|by left].
Qed.

Lemma record_defs_total src : ∀ defined mod_defs,
  NoDup defined → (∀ m, m ∈ defined → mod_defs !! m = None) →
  ∃ mod_defs', record_defs src defined mod_defs = Ok mod_defs'.
Proof.
  induction defined as [|x defined IH]; intros md Hnd Hfresh; simpl; [eauto|].
  apply NoDup_cons in Hnd as [Hx Hnd]. rewrite (Hfresh x) by by left.
  apply IH; [done|]. intros m Hm. rewrite lookup_insert_ne.
  - apply Hfresh. by right.
  - by intros ->.
Qed.

Lemma scan_task_scanned sc src task n d u h :
  scanned e task = Some (n, d, u, h) →
  scan_task e sc (src, task) =
    mod_defs ← record_defs src d (sc_mod_defs sc);
    Ok {| sc_src_mods := <[src := d]> (sc_src_mods sc);
          sc_mod_defs := mod_defs;
          sc_src_deps := <[src := u]> (sc_src_deps sc);
          sc_hashes := <[src := h]> (sc_hashes sc);
          sc_line_nums := <[src := n]> (sc_line_nums sc) |}.
Proof.
  unfold scanned, scan_task, get_hash, py_open.
  destruct (open_file e (source task)) as [f|]; [|done]. simpl.
  destruct (parse_modules (text_lines f)) as [[[n' d'] u']|]; [|done].
  by intros [= -> -> -> <-].
Qed.

Lemma defs_of_scanned task n d u h :
  scanned e task = Some (n, d, u, h) → defs_of e task = d ∧ used_in e task = u.
Proof. unfold defs_of, used_in. by intros ->. Qed.

Lemma all_defs_app tasks1 tasks2 :
  all_defs e (tasks1 ++ tasks2) = all_defs e tasks1 ++ all_defs e tasks2.
Proof. unfold all_defs. apply bind_app. Qed.

Lemma elem_of_all_defs tasks m :
  m ∈ all_defs e tasks ↔ ∃ s t, (s, t) ∈ tasks ∧ m ∈ defs_of e t.
Proof.
  unfold all_defs. rewrite list_elem_of_bind. split.
  - intros ([s t] & ? & ?). eauto.
  - intros (s & t & ? & ?). by exists (s, t).
Qed.

Lemma elem_of_definers tasks m s :
  s ∈ definers e tasks m ↔ ∃ t, (s, t) ∈ tasks ∧ m ∈ defs_of e t.
Proof.
  unfold definers. rewrite list_elem_of_fmap. split.
  - intros ([s' t] & -> & [? ?]%list_elem_of_filter). eauto.
  - intros (t & ? & ?). exists (s, t). split; [done|].
    by apply list_elem_of_filter.
Qed.

Lemma definers_nil tasks m :
  definers e tasks m = [] ↔ m ∉ all_defs e tasks.
Proof.
  rewrite elem_of_all_defs. split.
  - intros Hnil (s & t & Hin & Hm).
    assert (s ∈ definers e tasks m) as Hs by (apply elem_of_definers; eauto).
    rewrite Hnil in Hs. by apply elem_of_nil in Hs.
  - intros Hno. destruct (definers e tasks m) as [|s l] eqn:Hd; [done|].
    exfalso. apply Hno.
    assert (s ∈ definers e tasks m) as Hs by (rewrite Hd; by left).
    apply elem_of_definers in Hs as (t & ? & ?). eauto.
Qed.

(** After a scan the table of definitions knows exactly the modules
    defined. *)
Lemma scan_inv_mod_defs done sc m :
  scan_inv e done sc →
  (∀ s, sc_mod_defs sc !! m = Some s → s ∈ definers e done m) ∧
  (sc_mod_defs sc !! m = None ↔ m ∉ all_defs e done).
Proof.
  intros Hinv.
  assert (∀ s, sc_mod_defs sc !! m = Some s → s ∈ definers e done m) as H1.
  { intros s (mods & Hmods & Hm)%(scan_defs _ _ _ Hinv).
    destruct (decide (s ∈ done.*1)) as [Hs|Hs]; cycle 1.
    { destruct (scan_fresh _ _ _ Hinv s Hs) as [Hnone _]. congruence. }
    apply list_elem_of_fmap in Hs as ([s' t] & -> & Hin). simpl in *.
    destruct (scan_done _ _ _ Hinv _ _ Hin) as (n & d & u & h & Hsc & Hd & _).
    apply elem_of_definers. exists t. split; [done|].
    destruct (defs_of_scanned _ _ _ _ _ Hsc) as [-> _]. congruence. }
  split; [done|]. split.
  - intros Hnone (s & t & Hin & Hm)%elem_of_all_defs.
    destruct (scan_done _ _ _ Hinv _ _ Hin) as (n & d & u & h & Hsc & Hd & _).
    destruct (defs_of_scanned _ _ _ _ _ Hsc) as [Hdefs _].
    assert (sc_mod_defs sc !! m = Some s) as Hs.
    { apply (scan_defs _ _ _ Hinv). exists d. split; [done|]. congruence. }
    congruence.
  - intros Hno. destruct (sc_mod_defs sc !! m) as [s|] eqn:Hs; [|done].
    exfalso. apply Hno. specialize (H1 s eq_refl).
    apply elem_of_definers in H1 as (t & ? & ?). apply elem_of_all_defs. eauto.
Qed.

(** The first loop, on tasks whose files open and parse: it ends well
    when no module is defined twice, and otherwise raises
    [ModuleMultipleDefined] at the first definition [b] of a module
    that [a], scanned before or being [b] itself, defines already. *)
Lemma scan_tasks_cases tasks : ∀ done sc,
  scan_inv e done sc → NoDup ((done ++ tasks).*1) →
  Forall (λ st, is_Some (scanned e st.2)) tasks →
  NoDup (all_defs e done) →
  (NoDup (all_defs e (done ++ tasks)) ∧ ∃ sc', scan_tasks e sc tasks = Ok sc') ∨
  (¬ NoDup (all_defs e (done ++ tasks)) ∧
   ∃ m a b pre task post ta,
     scan_tasks e sc tasks = Raise (ModuleMultipleDefined m [a; b]) ∧
     tasks = pre ++ (b, task) :: post ∧ m ∈ defs_of e task ∧
     (a, ta) ∈ done ++ pre ++ [(b, task)] ∧ m ∈ defs_of e ta).
Proof.
  induction tasks as [|[src task] tasks IH]; intros done sc Hinv Hnd Hall Hdefs.
  { left. rewrite app_nil_r. split; [done|]. by exists sc. }
  apply Forall_cons in Hall as [[[[[n d] u] h] Hsc] Hall]. simpl in Hsc.
  destruct (defs_of_scanned _ _ _ _ _ Hsc) as [Hd _].
  assert (src ∉ done.*1) as Hsrc.
  { rewrite !fmap_app in Hnd. simpl in Hnd.
    apply NoDup_app in Hnd as (_ & Hnd & _). intros Hin. apply (Hnd src Hin). by left. }
  replace (done ++ (src, task) :: tasks) with ((done ++ [(src, task)]) ++ tasks)
    in * by by rewrite <- app_assoc.
  assert (all_defs e (done ++ [(src, task)]) = all_defs e done ++ d) as Hall_defs.
  { rewrite all_defs_app. unfold all_defs at 2. simpl. by rewrite app_nil_r, Hd. }
  change (scan_tasks e sc ((src, task) :: tasks))
    with (scan_task e sc (src, task) ≫= λ sc', scan_tasks e sc' tasks).
  destruct (scan_task e sc (src, task)) as [sc1|ex] eqn:Hstep.
  - pose proof (scan_inv_step _ _ _ _ _ _ Hsrc Hinv Hstep) as Hinv1.
    rewrite (scan_task_scanned _ _ _ _ _ _ _ Hsc) in Hstep.
    inv_bind Hstep as md Hmd. clear Hstep.
    apply record_defs_Ok in Hmd as (Hndd & Hfresh & _).
    assert (NoDup (all_defs e (done ++ [(src, task)]))) as Hdefs1.
    { rewrite Hall_defs. apply NoDup_app. split; [done|]. split; [|done].
      intros m Hm Hmd.
      by apply (proj1 (proj2 (scan_inv_mod_defs _ _ m Hinv)) (Hfresh m Hmd)). }
    rewrite bind_Ok_l.
    destruct (IH _ sc1 Hinv1 Hnd Hall Hdefs1)
      as [Hok|(Hn & m & a & b & pre & t & post & ta & Hr & -> & Hm & Ha & Hma)];
      [left; exact Hok|right].
    split; [done|].
    exists m, a, b, ((src, task) :: pre), t, post, ta.
    split; [done|]. split; [done|]. split; [done|]. split; [|done].
    by rewrite <- app_assoc in Ha.
  - right. rewrite (scan_task_scanned _ _ _ _ _ _ _ Hsc) in Hstep.
    destruct (record_defs src d (sc_mod_defs sc)) as [md|ex'] eqn:Hrec; [done|].
    simpl in Hstep. injection Hstep as <-.
    assert (¬ NoDup (all_defs e done ++ d)) as Hdup.
    { intros [Hn1 [Hdisj Hn2]]%NoDup_app.
      destruct (record_defs_total src d (sc_mod_defs sc)) as [md Hmd]; [done| |congruence].
      intros m Hm. apply (proj2 (scan_inv_mod_defs _ _ m Hinv)). intros Hin.
      by apply (Hdisj m). }
    split.
    { rewrite all_defs_app, Hall_defs. intros [Hn _]%NoDup_app. done. }
    apply record_defs_Raise in Hrec as (m & first & -> & Hm & Hfirst).
    destruct Hfirst as [Hfirst| ->].
    + apply (proj1 (scan_inv_mod_defs _ _ m Hinv)) in Hfirst.
      apply elem_of_definers in Hfirst as (ta & Hta & Hmta).
      exists m, first, src, [], task, tasks, ta. simpl.
      split; [done|]. split; [done|]. split; [by rewrite Hd|]. split; [|done].
      apply elem_of_app. by left.
    + exists m, src, src, [], task, tasks, task. simpl.
      split; [done|]. split; [done|]. split; [by rewrite Hd|].
      split; [|by rewrite Hd]. apply elem_of_app. right. by left.
Qed.

Lemma check_defined_Raise mod_defs mods ex :
  check_defined mod_defs mods = Raise ex →
  ∃ m, ex = ModuleNotDefined m ∧ m ∈ mods ∧ mod_defs !! m = None.
Proof.
  induction mods as [|m mods IH]; simpl; [done|].
  destruct (mod_defs !! m) as [s|] eqn:Hm.
  - intros (m' & ? & ? & ?)%IH. exists m'. split; [done|]. split; [by right|done].
  - intros [= <-]. exists m. split; [done|]. split; [by left|done].
Qed.

Lemma sum_calls_Raise {M : Type} (call : string → M → result (Z * M)) l :
  (∀ n memo ex, call n memo = Raise ex → depth_or_key ex) →
  ∀ memo ex, sum_calls call l memo = Raise ex → depth_or_key ex.
Proof.
  intros Hcall. induction l as [|n l IH]; intros memo ex; simpl; [done|].
  destruct (call n memo) as [[p memo1]|ex1] eqn:Hn; simpl.
  - destruct (sum_calls call l memo1) as [[s memo2]|ex2] eqn:Hl; simpl; [done|].
    intros [= <-]. by eapply IH.
  - intros [= <-]. by eapply Hcall.
Qed.

Lemma priority_getset_Raise fuel tree : ∀ node priority ex,
  priority_getset fuel tree node priority = Raise ex → depth_or_key ex.
Proof.
  induction fuel as [|fuel IH]; intros node P ex; simpl.
  { intros [= <-]. by left. }
  destruct (P !! node); [done|]. unfold getitem.
  destruct (tree !! node) as [ch|]; simpl; [|intros [= <-]; right; eauto].
  destruct (sum_calls _ ch P) as [[s P1]|ex1] eqn:Hs; simpl; [done|].
  intros [= <-]. by eapply sum_calls_Raise.
Qed.

Lemma get_priority_Raise fuel tree order ex :
  get_priority fuel tree order = Raise ex → depth_or_key ex.
Proof.
  unfold get_priority. generalize (∅ : gmap string Z).
  induction order as [|node order IH]; intros P; simpl; [done|].
  destruct (priority_getset fuel tree node P) as [[p P1]|ex1] eqn:Hn; simpl.
  - apply IH.
  - intros [= <-]. by eapply priority_getset_Raise.
Qed.

Lemma update_calls_Raise {M : Type}
    (call : string → M → result (gset string * M)) l :
  (∀ n memo ex, call n memo = Raise ex → depth_or_key ex) →
  ∀ acc memo ex, update_calls call l acc memo = Raise ex → depth_or_key ex.
Proof.
  intros Hcall. induction l as [|n l IH]; intros acc memo ex; simpl; [done|].
  destruct (call n memo) as [[a memo1]|ex1] eqn:Hn; simpl.
  - apply IH.
  - intros [= <-]. by eapply Hcall.
Qed.

Lemma ancestors_getset_Raise iter fuel tree : ∀ node ancestors ex,
  ancestors_getset iter fuel tree node ancestors = Raise ex → depth_or_key ex.
Proof.
  induction fuel as [|fuel IH]; intros node A ex; simpl.
  { intros [= <-]. by left. }
  destruct (A !! node); [done|]. unfold getitem.
  destruct (tree !! node) as [ps|]; simpl; [|intros [= <-]; right; eauto].
  destruct (update_calls _ (iter node ps) ps A) as [[a A1]|ex1] eqn:Hs; simpl;
    [done|].
  intros [= <-]. by eapply update_calls_Raise.
Qed.

Lemma get_ancestors_Raise iter fuel tree order ex :
  get_ancestors iter fuel tree order = Raise ex → depth_or_key ex.
Proof.
  unfold get_ancestors. generalize (∅ : gmap string (gset string)).
  induction order as [|node order IH]; intros A; simpl; [done|].
  destruct (ancestors_getset iter fuel tree node A) as [[a A1]|ex1] eqn:Hn; simpl.
  - apply IH.
  - intros [= <-]. by eapply ancestors_getset_Raise.
Qed.

Lemma parents_of_Raise mod_defs mods ex :
  parents_of mod_defs mods = Raise ex → depth_or_key ex.
Proof.
  induction mods as [|m mods IH]; simpl; [done|]. unfold getitem.
  destruct (mod_defs !! m); simpl; [|intros [= <-]; right; eauto].
  destruct (parents_of mod_defs mods); simpl; [done|].
  intros [= <-]. by apply IH.
Qed.

Lemma parents_tree_Raise mod_defs order sd ex :
  parents_tree e mod_defs order sd = Raise ex → depth_or_key ex.
Proof.
  induction order as [|src order IH]; simpl; [done|].
  destruct (parents_of mod_defs _) eqn:Hp; simpl.
  - destruct (parents_tree e mod_defs order sd); simpl; [done|].
    intros [= <-]. by apply IH.
  - intros [= <-]. by eapply parents_of_Raise.
Qed.

End errors.


(** ** Uses dropped by the graph builder *)

Section drops.

Variable e : env.

Implicit Types (tasks : list (string * Task)) (task : Task)
  (mod_defs : gmap string string) (sd : gmap string (gset string))
  (used : gset string) (ms incs : list string).

Lemma drop_intrinsics_lookup mod_defs sd s :
  drop_intrinsics mod_defs sd !! s = kept_uses mod_defs <$> sd !! s.
Proof.
  unfold drop_intrinsics, kept_uses. case_decide.
  - rewrite !lookup_fmap. by destruct (sd !! s).
  - by rewrite lookup_fmap.
Qed.

Lemma product_cons {A B : Type} (x : A) (a : list A) (b : list B) :
  product (x :: a) b = (pair x <$> b) ++ product a b.
Proof.
  unfold product. simpl. f_equal.
Qed.

Lemma drop_found_cons i m pairs used :
  drop_found e ((i, m) :: pairs) used =
    if path_exists e (i +:+ "/" +:+ m +:+ ".mod") then
      if decide (m ∈ used) then drop_found e pairs (used ∖ {[m]})
      else Raise (KeyError m)
    else drop_found e pairs used.
Proof. reflexivity. Qed.

(** The pairs of one include directory. *)
Lemma drop_found_dir i rest : ∀ ms used,
  NoDup ms →
  (∀ m, m ∈ ms → path_exists e (i +:+ "/" +:+ m +:+ ".mod") = true → m ∈ used) →
  ∃ used',
    drop_found e ((pair i <$> ms) ++ rest) used = drop_found e rest used' ∧
    ∀ m, m ∈ used' ↔
         m ∈ used ∧ ¬ (m ∈ ms ∧ path_exists e (i +:+ "/" +:+ m +:+ ".mod") = true).
Proof.
  induction ms as [|x ms IH]; intros used Hnd Hin.
  { exists used. split; [done|]. intros m. rewrite elem_of_nil. tauto. }
  apply NoDup_cons in Hnd as [Hx Hnd].
  rewrite fmap_cons, <- app_comm_cons, drop_found_cons.
  destruct (path_exists e (i +:+ "/" +:+ x +:+ ".mod")) eqn:Hex.
  - rewrite decide_True by (apply Hin; [by left|done]).
    destruct (IH (used ∖ {[x]}) Hnd) as (used' & -> & Hused').
    { intros m Hm Hem. apply elem_of_difference. split.
      - apply Hin; [by right|done].
      - rewrite elem_of_singleton. by intros ->. }
    exists used'. split; [done|]. intros m.
    rewrite Hused', elem_of_difference, elem_of_singleton, elem_of_cons. split.
    + intros [[? ?] Hno]. split; [done|]. intros [[->|?] ?]; [done|]. by apply Hno.
    + intros [? Hno]. split; [split; [done|]|].
      * intros ->. apply Hno. by split; [left|].
      * intros [? ?]. apply Hno. by split; [right|].
  - destruct (IH used Hnd) as (used' & -> & Hused').
    { intros m Hm Hem. apply Hin; [by right|done]. }
    exists used'. split; [done|]. intros m. rewrite Hused', elem_of_cons. split.
    + intros [? Hno]. split; [done|]. intros [[->|?] ?]; [congruence|]. by apply Hno.
    + intros [? Hno]. split; [done|]. intros [? ?]. apply Hno. by split; [right|].
Qed.

(** All the pairs: nothing is raised when no module is found twice. *)
Lemma drop_found_product ms : ∀ incs used,
  NoDup ms →
  (∀ m, m ∈ ms →
     let found := filter (λ i, path_exists e (i +:+ "/" +:+ m +:+ ".mod") = true) incs in
     (length found ≤ 1)%nat ∧ (found ≠ [] → m ∈ used)) →
  ∃ used',
    drop_found e (product incs ms) used = Ok used' ∧
    ∀ m, m ∈ used' ↔
         m ∈ used ∧
         (m ∈ ms →
          filter (λ i, path_exists e (i +:+ "/" +:+ m +:+ ".mod") = true) incs = []).
Proof.
  intros incs used Hnd. revert used.
  induction incs as [|i incs IH]; intros used Hpre.
  { exists used. split; [done|]. intros m. tauto. }
  rewrite product_cons.
  destruct (drop_found_dir i (product incs ms) ms used Hnd) as (used1 & -> & Hused1).
  { intros m Hm Hex. apply (Hpre m Hm). rewrite filter_cons, decide_True by done. done. }
  destruct (IH used1) as (used' & -> & Hused').
  { intros m Hm. specialize (Hpre m Hm). simpl in Hpre. rewrite filter_cons in Hpre.
    destruct Hpre as [Hlen Hin]. simpl. case_decide as Hex.
    - simpl in Hlen.
      destruct (filter _ incs) as [|? ?]; [|simpl in Hlen; lia].
      split; [simpl; lia|]. intros Hne. by destruct Hne.
    - split; [done|]. intros Hne. apply Hused1. split; [by apply Hin|]. tauto. }
  exists used'. split; [done|]. intros m. rewrite Hused', Hused1, filter_cons. split.
  - intros [[? Hno] Hnil]. split; [done|]. intros Hm.
    case_decide; [by destruct Hno|by apply Hnil].
  - intros [? Hnil]. split; [split; [done|]|].
    + intros [Hm Hex]. specialize (Hnil Hm). by rewrite decide_True in Hnil.
    + intros Hm. specialize (Hnil Hm). by case_decide.
Qed.

Lemma found_in_no_includes task m : includes task = [] → found_in e task m = [].
Proof. unfold found_in. by intros ->. Qed.

Lemma drop_included_cons src task tasks sd :
  drop_included e ((src, task) :: tasks) sd =
    match includes task with
    | [] => drop_included e tasks sd
    | _ =>
        used ← getitem sd src;
        used' ← drop_found e
                  (product (includes task) (iterate e (InProduct src) used)) used;
        drop_included e tasks (<[src := used']> sd)
    end.
Proof. reflexivity. Qed.

(** The second loop over the tasks. *)
Lemma drop_included_Ok tasks : iterates_sets e → ∀ sd0,
  NoDup (tasks.*1) →
  (∀ src task, (src, task) ∈ tasks →
     ∃ used, sd0 !! src = Some used ∧
             ∀ m, m ∈ used → (length (found_in e task m) ≤ 1)%nat) →
  ∃ sd,
    drop_included e tasks sd0 = Ok sd ∧
    (∀ src, src ∉ tasks.*1 → sd !! src = sd0 !! src) ∧
    ∀ src task used, (src, task) ∈ tasks → sd0 !! src = Some used →
      ∃ used', sd !! src = Some used' ∧
               ∀ m, m ∈ used' ↔ m ∈ used ∧ found_in e task m = [].
Proof.
  intros Hiter. induction tasks as [|[src task] tasks IH]; intros sd0 Hnd Hpre.
  { exists sd0. split; [done|]. split; [done|]. by intros ??? ?%elem_of_nil. }
  simpl in Hnd. apply NoDup_cons in Hnd as [Hsrc Hnd].
  destruct (Hpre src task) as (used & Hused & Hlen); [by left|].
  assert (∃ used',
            (match includes task with
             | [] => drop_included e tasks sd0
             | _ => drop_included e tasks (<[src := used']> sd0)
             end = drop_included e ((src, task) :: tasks) sd0) ∧
            (includes task = [] → used' = used) ∧
            ∀ m, m ∈ used' ↔ m ∈ used ∧ found_in e task m = []) as (used' & Heq & Hnil & Hused').
  { destruct (includes task) as [|i incs] eqn:Hinc.
    - exists used. rewrite drop_included_cons, Hinc. split; [done|]. split; [done|].
      intros m. rewrite found_in_no_includes by done. tauto.
    - destruct (drop_found_product (iterate e (InProduct src) used) (i :: incs) used)
        as (used' & Hd & Hu).
      { by apply NoDup_iterate. }
      { intros m Hm%elem_of_iterate; [|done]. simpl. split; [|done].
        specialize (Hlen m Hm). unfold found_in in Hlen. by rewrite Hinc in Hlen. }
      exists used'. rewrite drop_included_cons, Hinc. unfold getitem.
      rewrite Hused, bind_Ok_l, Hd, bind_Ok_l. split; [done|]. split; [done|].
      intros m. rewrite Hu, elem_of_iterate by done.
      unfold found_in. rewrite Hinc. tauto. }
  rewrite <- Heq.
  set (sd1 := match includes task with [] => sd0 | _ => <[src := used']> sd0 end).
  assert (sd1 !! src = Some used') as Hsd1.
  { unfold sd1. destruct (includes task); [|by rewrite lookup_insert_eq].
    by rewrite Hnil. }
  assert (∀ s, s ≠ src → sd1 !! s = sd0 !! s) as Hsd1'.
  { intros s Hs. unfold sd1. destruct (includes task); [done|].
    by rewrite lookup_insert_ne. }
  destruct (IH sd1 Hnd) as (sd & Hsd & Hout & Hin).
  { intros s t Hst. destruct (Hpre s t) as (u & Hu & Hl); [by right|].
    exists u. split; [|done]. rewrite Hsd1'; [done|]. intros ->.
    apply Hsrc. apply list_elem_of_fmap. by exists (src, t). }
  exists sd. split; [|split].
  - unfold sd1 in Hsd. by destruct (includes task).
  - intros s [Hne Hs]%not_elem_of_cons. rewrite Hout by done. by apply Hsd1'.
  - intros s t u [[= -> ->]|Hst]%elem_of_cons Hu.
    + exists used'. rewrite Hout by done. split; [done|]. by simplify_eq.
    + assert (s ≠ src) as Hne.
      { intros ->. apply Hsrc. apply list_elem_of_fmap. by exists (src, t). }
      apply (Hin s t u Hst). by rewrite Hsd1'.
Qed.

End drops.


(** ** Claims on the errors of the graph builder *)

Lemma scan_tasks_app e tasks1 tasks2 : ∀ sc,
  scan_tasks e sc (tasks1 ++ tasks2) =
    scan_tasks e sc tasks1 ≫= λ sc', scan_tasks e sc' tasks2.
Proof.
  induction tasks1 as [|st tasks1 IH]; intros sc; [done|].
  change (scan_tasks e sc ((st :: tasks1) ++ tasks2))
    with (scan_task e sc st ≫= λ sc', scan_tasks e sc' (tasks1 ++ tasks2)).
  change (scan_tasks e sc (st :: tasks1))
    with (scan_task e sc st ≫= λ sc', scan_tasks e sc' tasks1).
  destruct (scan_task e sc st) as [sc1|ex]; simpl; [apply IH|done].
Qed.

(** Where [for module in defined] raises: at the first module of the
    file that the table holds already, from an earlier source or from
    the definitions of the file before it. *)
Lemma record_defs_first src : ∀ defined md ex,
  record_defs src defined md = Raise ex →
  ∃ d1 m d2 first,
    defined = d1 ++ m :: d2 ∧ ex = ModuleMultipleDefined m [first; src] ∧
    NoDup d1 ∧ (∀ x, x ∈ d1 → md !! x = None) ∧
    (md !! m = Some first ∨ (first = src ∧ m ∈ d1)).
Proof.
  induction defined as [|x defined IH]; intros md ex; simpl; [done|].
  destruct (md !! x) as [first|] eqn:Hx.
  - intros [= <-]. exists [], x, defined, first.
    split; [done|]. split; [done|]. split; [constructor|].
    split; [by intros ? ?%elem_of_nil|by left].
  - intros (d1 & m & d2 & first & -> & -> & Hnd & Hfresh & Hfirst)%IH.
    exists (x :: d1), m, d2, first. split; [done|]. split; [done|].
    assert (x ∉ d1) as Hxd.
    { intros Hin. specialize (Hfresh x Hin). by rewrite lookup_insert_eq in Hfresh. }
    split; [by constructor|]. split.
    + intros y [->|Hy]%elem_of_cons; [done|]. specialize (Hfresh y Hy).
      rewrite lookup_insert_ne in Hfresh; [done|]. by intros ->.
    + destruct Hfirst as [Hm|[-> Hm]].
      * destruct (decide (x = m)) as [->|Hne].
        -- rewrite lookup_insert_eq in Hm. injection Hm as <-.
           right. split; [done|by left].
        -- rewrite lookup_insert_ne in Hm by done. by left.
      * right. split; [done|by right].
Qed.

(** The first task after which a module is defined twice. *)
Lemma first_collision_split e : ∀ tasks,
  ¬ NoDup (all_defs e tasks) →
  ∃ pre st post, tasks = pre ++ st :: post ∧ NoDup (all_defs e pre) ∧
                 ¬ NoDup (all_defs e (pre ++ [st])).
Proof.
  induction tasks as [|x l IH] using rev_ind; intros Hdup.
  { destruct Hdup. constructor. }
  destruct (decide (NoDup (all_defs e l))) as [Hnd|Hnd].
  - by exists l, x, [].
  - destruct (IH Hnd) as (pre & st & post & -> & Hpre & Hbreak).
    exists pre, st, (post ++ [x]). split; [by rewrite <- app_assoc|done].
Qed.

Section builder_errors.

Variables (e : env) (fuel : nat) (tasks : list (string * Task)).

Hypothesis Hkeys : NoDup (tasks.*1).
Hypothesis Hscanned : Forall (λ st, is_Some (scanned e st.2)) tasks.

Lemma definers_inj m : ∀ l a b,
  NoDup (all_defs e l) → a ∈ definers e l m → b ∈ definers e l m →
  NoDup (l.*1) → a = b.
Proof.
  induction l as [|[s t] l IH]; intros a b Hnd Ha Hb Hk.
  { apply elem_of_definers in Ha as (? & ?%elem_of_nil & _). done. }
  change (all_defs e ((s, t) :: l)) with (defs_of e t ++ all_defs e l) in Hnd.
  apply NoDup_app in Hnd as (_ & Hdisj & Hnd).
  simpl in Hk. apply NoDup_cons in Hk as [_ Hk].
  apply elem_of_definers in Ha as (ta & [[= -> ->]|Ha]%elem_of_cons & Hma);
    apply elem_of_definers in Hb as (tb & [[= -> ->]|Hb]%elem_of_cons & Hmb).
  - done.
  - exfalso. apply (Hdisj m Hma). apply elem_of_all_defs. eauto.
  - exfalso. apply (Hdisj m Hmb). apply elem_of_all_defs. eauto.
  - apply (IH a b Hnd); [| |done]; apply elem_of_definers; eauto.
Qed.

(** [get_tree] stops at the first collision: [b] is the first task
    whose file defines a module [m] that is defined already, [m] is the
    first such module of the file, and [a] is the source that defined
    it, an earlier task or [b] itself higher in its file. *)
Lemma get_tree_first_collision :
  ¬ NoDup (all_defs e tasks) →
  ∃ m a b pre task post d1 d2,
    get_tree e fuel tasks = Raise (ModuleMultipleDefined m [a; b]) ∧
    tasks = pre ++ (b, task) :: post ∧
    defs_of e task = d1 ++ m :: d2 ∧
    NoDup (all_defs e pre ++ d1) ∧
    (a ∈ definers e pre m ∨ (a = b ∧ m ∈ d1)).
Proof.
  intros Hdup.
  destruct (first_collision_split e tasks Hdup)
    as (pre & [b task] & post & Htasks & Hpre & Hbreak).
  pose proof Hkeys as Hkpre. rewrite Htasks, fmap_app in Hkpre.
  apply NoDup_app in Hkpre as [Hkpre _].
  pose proof Hscanned as Hspre. rewrite Htasks in Hspre.
  apply Forall_app in Hspre as [Hspre [[[[[n d] u] h] Hsc] _]%Forall_cons].
  simpl in Hsc.
  destruct (scan_tasks_cases e pre [] scan_empty (scan_inv_empty e) Hkpre Hspre)
    as [[_ [sc Hr]]|[Hno _]]; [constructor| |done].
  pose proof (scan_tasks_Ok _ _ _ Hkpre Hr) as Hinv.
  destruct (defs_of_scanned _ _ _ _ _ _ Hsc) as [Hd _].
  assert (all_defs e (pre ++ [(b, task)]) = all_defs e pre ++ d) as Hall.
  { rewrite all_defs_app. unfold all_defs at 2. simpl. by rewrite app_nil_r, Hd. }
  rewrite Hall in Hbreak.
  destruct (record_defs b d (sc_mod_defs sc)) as [md|ex] eqn:Hrec.
  { exfalso. apply Hbreak. apply record_defs_Ok in Hrec as (Hndd & Hfresh & _).
    apply NoDup_app. split; [done|]. split; [|done]. intros m Hm Hmd.
    by apply (proj1 (proj2 (scan_inv_mod_defs _ _ _ m Hinv)) (Hfresh m Hmd)). }
  pose proof Hrec as (d1 & m & d2 & first & -> & -> & Hnd1 & Hfresh & Hfirst)%record_defs_first.
  exists m, first, b, pre, task, post, d1, d2. split.
  { assert (scan_tasks e scan_empty (pre ++ (b, task) :: post)
            = Raise (ModuleMultipleDefined m [first; b])) as Hscan.
    { rewrite scan_tasks_app, Hr, bind_Ok_l.
      change (scan_tasks e sc ((b, task) :: post))
        with (scan_task e sc (b, task) ≫= λ sc', scan_tasks e sc' post).
      by rewrite (scan_task_scanned _ _ _ _ _ _ _ _ Hsc), Hrec. }
    unfold get_tree. by rewrite Htasks, Hscan. }
  split; [done|]. split; [done|]. split.
  - apply NoDup_app. split; [done|]. split; [|done]. intros x Hx Hxd.
    by apply (proj1 (proj2 (scan_inv_mod_defs _ _ _ x Hinv)) (Hfresh x Hxd)).
  - destruct Hfirst as [Hm|Hm]; [left|by right].
    by apply (proj1 (scan_inv_mod_defs _ _ _ m Hinv)).
Qed.

Lemma get_tree_not_defined :
  iterates_sets e → NoDup (all_defs e tasks) → found_once e tasks →
  (∀ m, get_tree e fuel tasks = Raise (ModuleNotDefined m) → unresolved e tasks m) ∧
  ((∃ m, unresolved e tasks m) →
   ∃ m, get_tree e fuel tasks = Raise (ModuleNotDefined m) ∧ unresolved e tasks m).
Proof.
  intros Hiter Hnd Honce.
  destruct (scan_tasks_cases e tasks [] scan_empty (scan_inv_empty e) Hkeys Hscanned)
    as [[_ [sc Hsc]]|[Hdup _]]; [constructor| |done].
  pose proof (scan_tasks_Ok _ _ _ Hkeys Hsc) as Hinv.
  unfold get_tree. rewrite Hsc, bind_Ok_l.
  set (md := sc_mod_defs sc). set (sd0 := drop_intrinsics md (sc_src_deps sc)).
  assert (∀ m, md !! m = None ↔ definers e tasks m = []) as Hmd.
  { intros m. rewrite definers_nil. apply (scan_inv_mod_defs e tasks sc m Hinv). }
  assert (∀ m u, m ∈ kept_uses md u ↔ m ∈ u ∧ ¬ intrinsic e tasks m) as Hkept.
  { intros m u. unfold kept_uses, intrinsic. rewrite <- Hmd.
    case_decide; set_solver. }
  assert (∀ src task, (src, task) ∈ tasks →
            sd0 !! src = Some (kept_uses md (used_in e task))) as Hsd0.
  { intros src task Hin. unfold sd0. rewrite drop_intrinsics_lookup.
    destruct (scan_done _ _ _ Hinv _ _ Hin) as (n & d & u & h & Hs & _ & -> & _).
    by destruct (defs_of_scanned _ _ _ _ _ _ Hs) as [_ ->]. }
  destruct (drop_included_Ok e tasks Hiter sd0 Hkeys) as (sd & -> & Hout & Hin).
  { intros src task Hst. eexists. split; [by apply Hsd0|].
    intros m [Hm Hni]%Hkept. unfold found_once in Honce.
    rewrite Forall_forall in Honce.
    by apply (Honce (src, task) Hst). }
  rewrite bind_Ok_l.
  assert (∀ m, m ∈ all_used sd ↔
            Exists (λ st, m ∈ used_in e st.2 ∧ ¬ intrinsic e tasks m ∧
                          found_in e st.2 m = []) tasks) as Hused.
  { intros m. rewrite elem_of_all_used, Exists_exists. split.
    - intros (s & u & Hs & Hm).
      destruct (decide (s ∈ tasks.*1)) as [Hk|Hk]; cycle 1.
      { rewrite (Hout s Hk) in Hs. unfold sd0 in Hs.
        rewrite drop_intrinsics_lookup in Hs.
        destruct (scan_fresh _ _ _ Hinv s Hk) as (_ & Hnone & _).
        by rewrite Hnone in Hs. }
      apply list_elem_of_fmap in Hk as ([s' t] & -> & Hst). simpl in *.
      destruct (Hin s' t _ Hst (Hsd0 _ _ Hst)) as (u' & Hu' & Hiff).
      simplify_eq. apply Hiff in Hm as [[? ?]%Hkept ?].
      exists (s', t). done.
    - intros ([s t] & Hst & Hm & Hni & Hf). simpl in *.
      destruct (Hin s t _ Hst (Hsd0 _ _ Hst)) as (u' & Hu' & Hiff).
      exists s, u'. split; [done|]. apply Hiff. split; [|done]. by apply Hkept. }
  destruct (check_defined md (iterate e InCheck (all_used sd))) as [[]|ex] eqn:Hchk.
  - rewrite check_defined_Ok in Hchk.
    setoid_rewrite (elem_of_iterate e InCheck _ _ Hiter) in Hchk.
    assert (∀ m, ¬ unresolved e tasks m) as Hno.
    { intros m [Hm Hd]. apply Hused, Hchk in Hm as [s Hs].
      apply Hmd in Hd. congruence. }
    split; [|by intros [m ?%Hno]].
    intros m Hr. exfalso. rewrite bind_Ok_l in Hr.
    assert (depth_or_key (ModuleNotDefined m)) as [?|[? ?]]; [|done..].
    destruct (get_priority _ _ _) as [P|ex1] eqn:HP; simpl in Hr.
    2: { injection Hr as ->. by eapply get_priority_Raise. }
    destruct (parents_tree _ _ _ _) as [pt|ex2] eqn:Hpt; simpl in Hr.
    2: { injection Hr as ->. by eapply parents_tree_Raise. }
    destruct (get_ancestors _ _ _ _) as [A|ex3] eqn:HA; simpl in Hr; [done|].
    injection Hr as ->. by eapply get_ancestors_Raise.
  - apply check_defined_Raise in Hchk as (m & -> & Hm & Hnone).
    apply elem_of_iterate in Hm; [|done].
    assert (unresolved e tasks m) as Hun.
    { split; [by apply Hused|by apply Hmd]. }
    simpl. split; [by intros m' [= <-]|]. intros _. by exists m.
Qed.

End builder_errors.

(** C5 (as amended). On tasks whose files open and parse, the graph
    builder raises [ModuleMultipleDefined(module, [first, second])]
    whenever two sources define one module, for the first collision met
    in the order of the tasks: [second] is the first task whose file
    defines a module that is defined already (nothing is defined twice
    by the tasks before it and by the definitions [d1] of its file
    before [module]), and [first] is the source that defined [module],
    a task before [second] or [second] itself, higher in its file.
    When no module is defined twice, and no use has its interface file
    in two include directories of its task, it raises
    [ModuleNotDefined(module)] exactly when some module is used by a
    task, is not [iso_c_binding], is not [mpi] with no source defining
    it, has no interface file in an include directory of that task, and
    is defined by no source; [module] is then such a module. Both errors
    leave [build] before anything is scheduled. *)
Theorem graph_builder_errors e fuel tasks :
  NoDup (tasks.*1) →
  Forall (λ st, is_Some (scanned e st.2)) tasks →
  (∀ s1 s2 m0, s1 ≠ s2 → s1 ∈ definers e tasks m0 → s2 ∈ definers e tasks m0 →
     ∃ m a b pre task post d1 d2,
       get_tree e fuel tasks = Raise (ModuleMultipleDefined m [a; b]) ∧
       tasks = pre ++ (b, task) :: post ∧
       defs_of e task = d1 ++ m :: d2 ∧
       NoDup (all_defs e pre ++ d1) ∧
       (a ∈ definers e pre m ∨ (a = b ∧ m ∈ d1))) ∧
  (iterates_sets e → NoDup (all_defs e tasks) → found_once e tasks →
     (∀ m, get_tree e fuel tasks = Raise (ModuleNotDefined m) → unresolved e tasks m) ∧
     ((∃ m, unresolved e tasks m) →
      ∃ m, get_tree e fuel tasks = Raise (ModuleNotDefined m) ∧ unresolved e tasks m)) ∧
  (∀ ex cache dry,
     get_tree e fuel tasks = Raise ex → build e fuel cache tasks dry = BuildRaised ex).
Proof.
  intros Hkeys Hscanned. split; [|split].
  - intros s1 s2 m0 Hne H1 H2. apply get_tree_first_collision; [done..|].
    intros Hnd. apply Hne. by apply (definers_inj e m0 tasks).
  - by apply get_tree_not_defined.
  - intros ex cache dry Hr. unfold build. by rewrite Hr.
Qed.

Lemma graph_builder_errors_witness :
  get_tree Example.more_world 10 Example.undefined_tasks
    = Raise (ModuleNotDefined "z") ∧
  unresolved Example.more_world Example.undefined_tasks "z" ∧
  build Example.more_world 10 Missing Example.undefined_tasks false
    = BuildRaised (ModuleNotDefined "z").
Proof.
  destruct (graph_builder_errors Example.more_world 10 Example.undefined_tasks)
    as (_ & Hnot & Hbuild).
  - by_compute.
  - repeat constructor; by_compute.
  - assert (get_tree Example.more_world 10 Example.undefined_tasks
            = Raise (ModuleNotDefined "z")) as Hr by by vm_compute.
    split; [done|]. split; [|by apply Hbuild].
    destruct Hnot as [Hsound _]; [by intros s X|by_compute| |by apply Hsound].
    apply Forall_forall. intros [s t] Hin m _ _.
    rewrite found_in_no_includes; [simpl; lia|].
    unfold Example.undefined_tasks in Hin.
    repeat (apply elem_of_cons in Hin as [[= -> ->]|Hin]); try done.
    by apply elem_of_nil in Hin.
Defined.

(** C5 fails as stated. Here [a2] defines the module [m] that [a]
    defines, and uses a module [z] that is not dropped, not found and not
    defined: the error raised is [ModuleMultipleDefined], not
    [ModuleNotDefined]. *)
Lemma module_not_defined_counterexample :
  unresolved Example.more_world Example.clash_tasks "z" ∧
  get_tree Example.more_world 10 Example.clash_tasks
    = Raise (ModuleMultipleDefined "m" ["a"; "a2"]).
Proof.
  split; [|by vm_compute]. split; [|by vm_compute].
  apply Exists_cons_tl, Exists_cons_hd. split; [by_compute|]. split; [|by vm_compute].
  intros [?|[? _]]; discriminate.
Qed.


(** * Further properties of the code *)

(** ** Parser *)

Section casing.

Implicit Types (c : ascii) (s : string).

Lemma lower_char_idemp c : Py.lower_char (Py.lower_char c) = Py.lower_char c.
Proof. destruct c as [[] [] [] [] [] [] [] []]; by vm_compute. Qed.

Lemma isword_lower_char c : Py.isword (Py.lower_char c) = Py.isword c.
Proof. destruct c as [[] [] [] [] [] [] [] []]; by vm_compute. Qed.

Lemma isspace_lower_char c : Py.isspace (Py.lower_char c) = Py.isspace c.
Proof. destruct c as [[] [] [] [] [] [] [] []]; by vm_compute. Qed.

Lemma eqb_space_lower_char c :
  Ascii.eqb (Py.lower_char c) " " = Ascii.eqb c " ".
Proof. destruct c as [[] [] [] [] [] [] [] []]; by vm_compute. Qed.

Lemma eqb_bang_lower_char c :
  Ascii.eqb (Py.lower_char c) "!" = Ascii.eqb c "!".
Proof. destruct c as [[] [] [] [] [] [] [] []]; by vm_compute. Qed.

Lemma lower_idemp s : Py.lower (Py.lower s) = Py.lower s.
Proof. induction s as [|c s IH]; simpl; [done|]. by rewrite lower_char_idemp, IH. Qed.

Lemma lower_nil s : Py.lower s = "" ↔ s = "".
Proof. by destruct s. Qed.

Lemma all_chars_isword_lower s :
  all_chars Py.isword (Py.lower s) = all_chars Py.isword s.
Proof. induction s as [|c s IH]; simpl; [done|]. by rewrite isword_lower_char, IH. Qed.

(** Lowering commutes with the splitting of a string at the end of a
    run of a class of characters that lowering respects. *)
Lemma span_lower p s :
  (∀ c, p (Py.lower_char c) = p c) →
  Py.span p (Py.lower s) = (Py.lower (Py.span p s).1, Py.lower (Py.span p s).2).
Proof.
  intros Hp. induction s as [|c s IH]; simpl; [done|].
  rewrite Hp. destruct (p c); [|done].
  rewrite IH. by destruct (Py.span p s).
Qed.

Lemma lstrip_lower s : Py.lstrip (Py.lower s) = Py.lower (Py.lstrip s).
Proof. unfold Py.lstrip. by rewrite (span_lower _ _ isspace_lower_char). Qed.

Lemma first_word_lower s : Py.first_word (Py.lower s) = Py.lower (Py.first_word s).
Proof.
  unfold Py.first_word. rewrite span_lower; [done|].
  intros c. by rewrite eqb_space_lower_char.
Qed.

Lemma strip_prefix_ci_lower kw : ∀ s,
  Py.strip_prefix_ci kw (Py.lower s) = Py.lower <$> Py.strip_prefix_ci kw s.
Proof.
  induction kw as [|k kw IH]; intros s; simpl; [done|].
  destruct s as [|c s]; simpl; [done|].
  rewrite lower_char_idemp. by destruct (Ascii.eqb (Py.lower_char c) k).
Qed.

Lemma re_match_group1_lower kw s :
  Py.re_match_group1 kw (Py.lower s) = Py.lower <$> Py.re_match_group1 kw s.
Proof.
  unfold Py.re_match_group1. rewrite strip_prefix_ci_lower.
  destruct (Py.strip_prefix_ci kw s) as [rest|]; simpl; [|done].
  rewrite (span_lower _ _ isspace_lower_char).
  destruct (Py.span Py.isspace rest) as [ws rest']. simpl.
  destruct ws as [|w ws]; simpl; [done|].
  rewrite (span_lower _ _ isword_lower_char).
  destruct (Py.span Py.isword rest') as [ident r]. simpl.
  by destruct ident.
Qed.

Lemma parse_line_lower st line :
  parse_line st (Py.lower line) = parse_line st line.
Proof.
  destruct st as [[n d] u]. unfold parse_line.
  rewrite lstrip_lower. destruct (Py.lstrip line) as [|c r] eqn:Hl; simpl; [done|].
  rewrite eqb_bang_lower_char. destruct (Ascii.eqb c "!"); [done|].
  change (String (Py.lower_char c) (Py.lower r)) with (Py.lower (String c r)).
  rewrite first_word_lower, lower_idemp, !re_match_group1_lower.
  destruct (String.eqb _ "module").
  { destruct (Py.re_match_group1 "module" _) as [g|]; simpl; [|done].
    by rewrite lower_idemp. }
  destruct (String.eqb _ "use"); [|done].
  destruct (Py.re_match_group1 "use" _) as [g|]; simpl; [|done].
  by rewrite lower_idemp.
Qed.

Lemma parse_lines_lower f : ∀ st,
  parse_lines st (Py.lower <$> f) = parse_lines st f.
Proof.
  induction f as [|line f IH]; intros st; [done|].
  change (parse_lines st (Py.lower <$> line :: f))
    with (parse_line st (Py.lower line) ≫= λ st', parse_lines st' (Py.lower <$> f)).
  rewrite parse_line_lower.
  change (parse_lines st (line :: f))
    with (parse_line st line ≫= λ st', parse_lines st' f).
  destruct (parse_line st line); simpl; [apply IH|done].
Qed.

End casing.

(** X1. Fortran does not tell upper case from lower case, and neither
    does the parser on a file whose characters are all below U+0100, the
    files of this development: it returns the same on such a file and
    on the file with every line in lower case. (Beyond that range
    [str.lower] can make a string longer, U+0130 becoming two code
    points, and the statement does not extend to such files.) *)
Theorem parse_modules_ignores_case (f : list string) :
  parse_modules (Py.lower <$> f) = parse_modules f.
Proof. unfold parse_modules. by rewrite parse_lines_lower. Qed.

Section composing.

Implicit Types (line : string) (f : list string) (st : parse_state).

Lemma parse_line_shift n d u line :
  parse_line (n, d, u) line = shift n d u <$> parse_line (0, [], ∅) line.
Proof.
  unfold parse_line.
  assert ((n + 1, d, u) = shift n d u (0 + 1, [], ∅)) as Hskip.
  { simpl. rewrite app_nil_r. f_equal. set_solver. }
  destruct (Py.lstrip line) as [|c r]; [by rewrite Hskip|].
  destruct (Ascii.eqb c "!"); [by rewrite Hskip|].
  destruct (String.eqb _ "module").
  { destruct (Py.re_match_group1 "module" _) as [g|]; [|done].
    destruct (negb _); [|by rewrite Hskip].
    simpl. do 2 f_equal. set_solver. }
  destruct (String.eqb _ "use"); [|by rewrite Hskip].
  destruct (Py.re_match_group1 "use" _) as [g|]; [|done].
  simpl. rewrite app_nil_r. do 2 f_equal. set_solver.
Qed.

Lemma shift_shift n d u n' d' u' st :
  shift n d u (shift n' d' u' st) = shift (n + n') (d ++ d') (u' ∪ u) st.
Proof.
  destruct st as [[n0 d0] u0]. simpl. rewrite app_assoc.
  f_equal; [f_equal; lia|set_solver].
Qed.

Lemma parse_lines_shift f : ∀ n d u,
  parse_lines (n, d, u) f = shift n d u <$> parse_lines (0, [], ∅) f.
Proof.
  induction f as [|line f IH]; intros n d u.
  - simpl. rewrite app_nil_r, Z.add_0_r. do 2 f_equal. set_solver.
  - change (parse_lines (n, d, u) (line :: f))
      with (parse_line (n, d, u) line ≫= λ st', parse_lines st' f).
    change (parse_lines (0, [], ∅) (line :: f))
      with (parse_line (0, [], ∅) line ≫= λ st', parse_lines st' f).
    rewrite parse_line_shift.
    destruct (parse_line (0, [], ∅) line) as [[[n1 d1] u1]|ex]; simpl; [|done].
    rewrite (IH (n + n1)), (IH n1).
    destruct (parse_lines (0, [], ∅) f) as [st|ex]; simpl; [|done].
    f_equal. by rewrite (shift_shift n d u n1 d1 u1).
Qed.

Lemma parse_lines_app f1 f2 st :
  parse_lines st (f1 ++ f2) = parse_lines st f1 ≫= λ st', parse_lines st' f2.
Proof.
  revert st. induction f1 as [|line f1 IH]; intros st; [done|].
  change (parse_lines st ((line :: f1) ++ f2))
    with (parse_line st line ≫= λ st', parse_lines st' (f1 ++ f2)).
  change (parse_lines st (line :: f1))
    with (parse_line st line ≫= λ st', parse_lines st' f1).
  destruct (parse_line st line) as [st1|ex]; simpl; [apply IH|done].
Qed.

End composing.

(** X2. Parsing two files one after the other, as one file: the parser
    raises when it does on the first, or else on the second; otherwise
    the counts add up, the definitions follow one another, and the uses
    are those of both files that neither defines. *)
Theorem parse_modules_app (f1 f2 : list string) :
  parse_modules (f1 ++ f2) =
    r1 ← parse_modules f1; r2 ← parse_modules f2; Ok (join_parsed r1 r2).
Proof.
  unfold parse_modules. rewrite parse_lines_app.
  destruct (parse_lines (0, [], ∅) f1) as [[[n1 d1] u1]|ex1]; simpl; [|done].
  rewrite parse_lines_shift.
  destruct (parse_lines (0, [], ∅) f2) as [[[n2 d2] u2]|ex2]; simpl; [|done].
  do 2 f_equal. rewrite !list_to_set_app_L. set_solver.
Qed.

Section names.

Lemma classifies_names line k m :
  classifies line k → m ∈ defined_by k ∨ m ∈ used_by k → module_name m.
Proof.
  assert (∀ kw s ident, identifier_after kw s ident → module_name (Py.lower ident))
    as Hname.
  { intros kw s ident (k0 & ws & rest & _ & _ & _ & _ & Hne & Hw & _).
    split; [by rewrite lower_nil|]. split; [by rewrite all_chars_isword_lower|].
    apply lower_idemp. }
  intros [Hs|i _ _ Hi _|i _ _ Hi _|i _ _ Hi|_ _ _]; simpl;
    intros [Hm|Hm]; try (by apply elem_of_nil in Hm);
    apply list_elem_of_singleton in Hm as ->; by eapply Hname.
Qed.

Lemma classifies_procedure line k : classifies line k → "procedure" ∉ defined_by k.
Proof.
  intros [Hs|i _ _ _ Hp|i _ _ _ _|i _ _ _|_ _ _]; simpl;
    try (by intros ?%elem_of_nil).
  intros Heq%list_elem_of_singleton. congruence.
Qed.

End names.

(** X3. What the parser returns: the number of lines read;
    definitions and uses that are not empty; no definition named
    [procedure]; and no use of a module that the file defines. *)
Theorem parse_modules_names (f : list string) n defined used :
  parse_modules f = Ok (n, defined, used) →
  n = Z.of_nat (length f) ∧
  (∀ m, m ∈ defined ∨ m ∈ used → m ≠ "") ∧
  "procedure" ∉ defined ∧
  ∀ m, m ∈ used → m ∉ defined.
Proof.
  unfold parse_modules. intros H. inv_bind H as [[n0 d0] u0] Hp.
  injection H as <- <- <-.
  apply parse_lines_Ok in Hp as (kinds & Hkinds & [= -> -> ->]).
  split; [lia|]. change ([] ++ kinds ≫= defined_by) with (kinds ≫= defined_by).
  split; [|split].
  - intros m Hm.
    assert (∃ k, k ∈ kinds ∧ (m ∈ defined_by k ∨ m ∈ used_by k)) as (k & Hk & Hmk).
    { destruct Hm as [Hm|Hm].
      - apply list_elem_of_bind in Hm as (k & ? & ?). eauto.
      - apply elem_of_difference in Hm as [Hm _].
        apply elem_of_union in Hm as [Hm|Hm]; [|set_solver].
        apply elem_of_list_to_set, list_elem_of_bind in Hm as (k & ? & ?). eauto. }
    apply list_elem_of_lookup in Hk as [i Hi].
    destruct (Forall2_lookup_r _ _ _ _ _ Hkinds Hi) as (line & _ & Hcl).
    by destruct (classifies_names line k m Hcl Hmk) as [Hne _].
  - intros (k & Hp & Hk)%list_elem_of_bind.
    apply list_elem_of_lookup in Hk as [i Hi].
    destruct (Forall2_lookup_r _ _ _ _ _ Hkinds Hi) as (line & _ & Hcl).
    by eapply classifies_procedure.
  - set_solver.
Qed.

Lemma parse_modules_names_witness :
  ∃ n defined used,
    parse_modules Example.sample = Ok (n, defined, used) ∧
    n = 7 ∧ (∀ m, m ∈ defined ∨ m ∈ used → m ≠ "") ∧
    "procedure" ∉ defined ∧ ∀ m, m ∈ used → m ∉ defined.
Proof.
  eexists _, _, _. split; [by vm_compute|].
  apply (parse_modules_names Example.sample). by vm_compute.
Defined.


(** ** Priorities, once more *)

Section priority_runs.

Variable tree : gmap string (list string).

Implicit Types (P : gmap string Z) (l order : list string).

Lemma sum_calls_Raise_in {M : Type} (call : string → M → result (Z * M)) l
    (Q : exn → Prop) :
  (∀ n memo ex, n ∈ l → call n memo = Raise ex → Q ex) →
  ∀ memo ex, sum_calls call l memo = Raise ex → Q ex.
Proof.
  induction l as [|n l IH]; intros Hcall memo ex; simpl; [done|].
  destruct (call n memo) as [[p memo1]|ex1] eqn:Hn; simpl.
  - destruct (sum_calls call l memo1) as [[s memo2]|ex2] eqn:Hs; simpl; [done|].
    intros [= <-]. eapply IH; [|done]. intros n' m' ex' Hin. apply Hcall. by right.
  - intros [= <-]. eapply Hcall; [|done]. by left.
Qed.

Lemma sum_calls_returns {M : Type} (call : string → M → result (Z * M)) l :
  (∀ n memo, n ∈ l → ∃ r, call n memo = Ok r) →
  ∀ memo, ∃ r, sum_calls call l memo = Ok r.
Proof.
  induction l as [|n l IH]; intros Hcall memo; simpl; [eauto|].
  destruct (Hcall n memo) as [[p memo1] ->]; [by left|]. simpl.
  destruct (IH (λ n' m' Hin, Hcall n' m' (proj2 (elem_of_cons l n' n) (or_intror Hin)))
              memo1) as [[s memo2] ->].
  simpl. eauto.
Qed.

Lemma priority_getset_errors fuel : ∀ node P ex,
  priority_getset fuel tree node P = Raise ex →
  traversal_error tree [node] (child tree) ex.
Proof.
  induction fuel as [|fuel IH]; intros node P ex; simpl.
  { intros [= <-]. by left. }
  destruct (P !! node); [done|]. unfold getitem.
  destruct (tree !! node) as [ch|] eqn:Hch; simpl.
  2: { intros [= <-]. right. exists node. split; [done|]. split; [done|].
       left. by left. }
  destruct (sum_calls _ ch P) as [[s P1]|ex1] eqn:Hs; simpl; [done|].
  intros [= <-]. revert Hs. apply sum_calls_Raise_in.
  intros c memo ex' Hc Hr. apply IH in Hr as [->|(k & -> & Hk & Hwhere)]; [by left|].
  right. exists k. split; [done|]. split; [done|]. right.
  destruct Hwhere as [->%list_elem_of_singleton|?]; [|done].
  exists node, ch. done.
Qed.

Lemma priority_loop_errors fuel order : ∀ P ex,
  priority_loop fuel tree order P = Raise ex →
  traversal_error tree order (child tree) ex.
Proof.
  induction order as [|node order IH]; intros P ex; simpl; [done|].
  destruct (priority_getset fuel tree node P) as [[p P1]|ex1] eqn:Hn; simpl.
  - intros [->|(k & -> & Hk & [?|?])]%IH; [by left|..];
      right; exists k; (split; [done|]); (split; [done|]); [left; by right|by right].
  - intros [= <-]. apply priority_getset_errors in Hn as [->|(k & -> & Hk & Hw)];
      [by left|].
    right. exists k. split; [done|]. split; [done|].
    destruct Hw as [->%list_elem_of_singleton|?]; [left; by left|by right].
Qed.

Lemma priority_ok_path P n x p :
  priority_ok tree P → P !! n = Some p → tc (child tree) n x →
  ∃ px, P !! x = Some px ∧ 1 ≤ px < p.
Proof.
  intros Hok Hn Hpath. revert p Hn.
  induction Hpath as [n x (ch & Hch & Hx)|n y x (ch & Hch & Hy) _ IH]; intros p Hn.
  - by eapply priority_ok_child.
  - destruct (priority_ok_child tree P n p ch y Hok Hn Hch Hy) as (py & Hpy & ?).
    destruct (IH _ Hpy) as (px & Hpx & ?). exists px. split; [done|lia].
Qed.

Lemma priority_getset_returns rank fuel : ∀ node P,
  ranked tree (child tree) rank →
  is_Some (tree !! node) → (rank node < fuel)%nat →
  ∃ r, priority_getset fuel tree node P = Ok r.
Proof.
  induction fuel as [|fuel IH]; intros node P Hrank [ch Hch] Hlt; [lia|].
  simpl. destruct (P !! node); [eauto|].
  unfold getitem. rewrite Hch. simpl.
  destruct (sum_calls_returns (priority_getset fuel tree) ch) with (memo := P)
    as [[s P1] ->]; [|simpl; eauto].
  intros c memo Hc. destruct (Hrank node c) as [Hkey ?]; [by exists ch|].
  apply IH; [done..|lia].
Qed.

Lemma priority_loop_returns rank fuel order : ∀ P,
  ranked tree (child tree) rank →
  (∀ n, n ∈ order → is_Some (tree !! n) ∧ (rank n < fuel)%nat) →
  ∃ P', priority_loop fuel tree order P = Ok P'.
Proof.
  induction order as [|node order IH]; intros P Hrank Hord; simpl; [eauto|].
  destruct (Hord node) as [Hkey Hlt]; [by left|].
  destruct (priority_getset_returns rank fuel node P Hrank Hkey Hlt) as [[p P1] ->].
  simpl. apply IH; [done|]. intros n Hn. apply Hord. by right.
Qed.

End priority_runs.

(** X4. The table that [get_priority] returns has an entry for every node
    it was started on; every entry is 1 plus the sum of the entries of the
    node's children; and along every path of the tree the entries
    decrease, down to 1 at least. *)
Theorem get_priority_table fuel tree order P :
  get_priority fuel tree order = Ok P →
  (∀ n, n ∈ order → is_Some (P !! n)) ∧
  (∀ n p, P !! n = Some p →
     ∃ ch, tree !! n = Some ch ∧ lookup_sum P ch = Some (p - 1)) ∧
  (∀ n x p, P !! n = Some p → tc (child tree) n x →
     ∃ px, P !! x = Some px ∧ 1 ≤ px < p).
Proof.
  intros [Hok Hall]%get_priority_ok. split; [done|]. split.
  - intros n p Hn. by destruct (Hok n p Hn) as [_ ?].
  - intros n x p. by apply priority_ok_path.
Qed.

Lemma get_priority_table_witness :
  ∃ P,
    get_priority 3 Trees.diamond ["b"; "a"; "c"] = Ok P ∧
    P !! "a" = Some 5 ∧
    (∀ n, n ∈ ["b"; "a"; "c"] → is_Some (P !! n)) ∧
    (∀ n p, P !! n = Some p →
       ∃ ch, Trees.diamond !! n = Some ch ∧ lookup_sum P ch = Some (p - 1)) ∧
    (∀ n x p, P !! n = Some p → tc (child Trees.diamond) n x →
       ∃ px, P !! x = Some px ∧ 1 ≤ px < p).
Proof.
  eexists. split; [by vm_compute|]. split; [by vm_compute|].
  apply (get_priority_table 3 Trees.diamond ["b"; "a"; "c"]).
  by vm_compute.
Defined.

(** X5. What [get_priority] raises: [RecursionError], or [KeyError] for a
    node that is no key of the tree, the traversal having been started on
    it or having met it as a child. *)
Theorem get_priority_errors fuel tree order ex :
  get_priority fuel tree order = Raise ex →
  traversal_error tree order (child tree) ex.
Proof. apply priority_loop_errors. Qed.

Lemma get_priority_errors_witness :
  get_priority 3 Trees.open ["a"] = Raise (KeyError "b") ∧
  traversal_error Trees.open ["a"] (child Trees.open) (KeyError "b").
Proof.
  split; [by vm_compute|].
  apply (get_priority_errors 3 Trees.open ["a"]). by vm_compute.
Defined.

(** X6. On a tree with a path from a node, on which it is started, back
    to that node, [get_priority] raises whatever the recursion limit is;
    it raises [RecursionError] when every node met is a key. *)
Theorem get_priority_cycle fuel tree order n :
  n ∈ order → tc (child tree) n n →
  (∃ ex, get_priority fuel tree order = Raise ex) ∧
  ((∀ k, k ∈ order ∨ (∃ m, child tree m k) → is_Some (tree !! k)) →
   get_priority fuel tree order = Raise RecursionError).
Proof.
  intros Hn Hcycle.
  destruct (get_priority fuel tree order) as [P|ex] eqn:Hr.
  - exfalso. apply get_priority_ok in Hr as [Hok Hall].
    destruct (Hall n Hn) as [p Hp].
    destruct (priority_ok_path tree P n n p Hok Hp Hcycle) as (p' & Hp' & ?).
    simplify_eq. lia.
  - split; [by exists ex|]. intros Hclosed.
    apply priority_loop_errors in Hr as [->|(k & -> & Hk & Hw)]; [done|].
    destruct (Hclosed k Hw) as [? ?]. congruence.
Qed.

Lemma get_priority_cycle_witness :
  get_priority 1000 Trees.cycle ["a"; "b"] = Raise RecursionError.
Proof.
  apply (get_priority_cycle 1000 Trees.cycle ["a"; "b"] "a").
  - by left.
  - apply (tc_l _ _ "b"); [exists ["b"]; split; [by vm_compute|by left]|].
    apply tc_once. exists ["a"]. split; [by vm_compute|by left].
  - assert (∀ k, k = "a" ∨ k = "b" → is_Some (Trees.cycle !! k)) as Hkeys.
    { intros k [-> | ->]; by_compute. }
    intros k [[->|[->|?%elem_of_nil]%elem_of_cons]%elem_of_cons|(m & ch & Hm & Hk)];
      [apply Hkeys; auto..|done|].
    unfold Trees.cycle in Hm. apply Hkeys.
    apply lookup_insert_Some in Hm as [[_ <-]|[_ Hm]].
    { apply list_elem_of_singleton in Hk. auto. }
    apply lookup_singleton_Some in Hm as [_ <-].
    apply list_elem_of_singleton in Hk. auto.
Defined.

(** X7. [get_priority] returns on every tree that has no cycle, when the
    recursion limit exceeds the length of its paths: with [rank]
    decreasing along the edges, below [fuel] on the nodes it is started
    on, and every child a key. *)
Theorem get_priority_returns fuel tree order rank :
  ranked tree (child tree) rank →
  (∀ n, n ∈ order → is_Some (tree !! n) ∧ (rank n < fuel)%nat) →
  ∃ P, get_priority fuel tree order = Ok P.
Proof. intros Hrank Hord. by apply (priority_loop_returns tree rank). Qed.

Lemma diamond_ranked : ranked Trees.diamond (child Trees.diamond) Trees.rank.
Proof.
  intros n c (ch & Hn & Hc). unfold Trees.diamond in Hn.
  repeat (apply lookup_insert_Some in Hn as [[<- <-]|[_ Hn]];
          [repeat (apply elem_of_cons in Hc as [->|Hc]; [split; by_compute|]);
           by apply elem_of_nil in Hc|]).
  apply lookup_singleton_Some in Hn as [_ <-]. by apply elem_of_nil in Hc.
Qed.

Lemma get_priority_returns_witness :
  ∃ P, get_priority 3 Trees.diamond ["a"; "b"; "c"; "d"] = Ok P.
Proof.
  apply (get_priority_returns 3 Trees.diamond ["a"; "b"; "c"; "d"] Trees.rank).
  - apply diamond_ranked.
  - intros n Hn.
    repeat (apply elem_of_cons in Hn as [->|Hn]; [split; by_compute|]).
    by apply elem_of_nil in Hn.
Defined.


(** ** Ancestors, once more *)

Section ancestors_runs.

Variable tree : gmap string (gset string).
Variable iter : string → gset string → list string.

Hypothesis Hiter : ∀ node (X : gset string), iter node X ≡ₚ elements X.

Implicit Types (A : gmap string (gset string)) (l order : list string).

Lemma update_calls_Raise_in {M : Type}
    (call : string → M → result (gset string * M)) l (Q : exn → Prop) :
  (∀ n memo ex, n ∈ l → call n memo = Raise ex → Q ex) →
  ∀ acc memo ex, update_calls call l acc memo = Raise ex → Q ex.
Proof.
  induction l as [|n l IH]; intros Hcall acc memo ex; simpl; [done|].
  destruct (call n memo) as [[a memo1]|ex1] eqn:Hn; simpl.
  - apply IH. intros n' m' ex' Hin. apply Hcall. by right.
  - intros [= <-]. eapply Hcall; [|done]. by left.
Qed.

Lemma update_calls_returns {M : Type}
    (call : string → M → result (gset string * M)) l :
  (∀ n memo, n ∈ l → ∃ r, call n memo = Ok r) →
  ∀ acc memo, ∃ r, update_calls call l acc memo = Ok r.
Proof.
  induction l as [|n l IH]; intros Hcall acc memo; simpl; [eauto|].
  destruct (Hcall n memo) as [[a memo1] ->]; [by left|]. simpl.
  apply IH. intros n' m' Hin. apply Hcall. by right.
Qed.

Lemma ancestors_getset_errors fuel : ∀ node A ex,
  ancestors_getset iter fuel tree node A = Raise ex →
  traversal_error tree [node] (edge tree) ex.
Proof.
  induction fuel as [|fuel IH]; intros node A ex; simpl.
  { intros [= <-]. by left. }
  destruct (A !! node); [done|]. unfold getitem.
  destruct (tree !! node) as [ps|] eqn:Hps; simpl.
  2: { intros [= <-]. right. exists node. split; [done|]. split; [done|].
       left. by left. }
  destruct (update_calls _ (iter node ps) ps A) as [[a A1]|ex1] eqn:Hs; simpl; [done|].
  intros [= <-]. revert Hs. apply update_calls_Raise_in.
  intros c memo ex' Hc Hr. apply IH in Hr as [->|(k & -> & Hk & Hwhere)]; [by left|].
  right. exists k. split; [done|]. split; [done|]. right.
  destruct Hwhere as [->%list_elem_of_singleton|?]; [|done].
  exists node, ps. split; [done|]. by rewrite Hiter, elem_of_elements in Hc.
Qed.

Lemma ancestors_loop_errors fuel order : ∀ A ex,
  ancestors_loop iter fuel tree order A = Raise ex →
  traversal_error tree order (edge tree) ex.
Proof.
  induction order as [|node order IH]; intros A ex; simpl; [done|].
  destruct (ancestors_getset iter fuel tree node A) as [[a A1]|ex1] eqn:Hn; simpl.
  - intros [->|(k & -> & Hk & [?|?])]%IH; [by left|..];
      right; exists k; (split; [done|]); (split; [done|]); [left; by right|by right].
  - intros [= <-]. apply ancestors_getset_errors in Hn as [->|(k & -> & Hk & Hw)];
      [by left|].
    right. exists k. split; [done|]. split; [done|].
    destruct Hw as [->%list_elem_of_singleton|?]; [left; by left|by right].
Qed.

(** A node enters the memo table after its children: a node on a cycle
    never does. *)
Lemma update_calls_no_cycle call l :
  keeps_ancestors_ok tree call →
  (∀ node A a A', ancestors_ok tree A → no_cycle tree A →
     call node A = Ok (a, A') → no_cycle tree A') →
  ∀ acc A acc' A', ancestors_ok tree A → no_cycle tree A →
    update_calls call l acc A = Ok (acc', A') → no_cycle tree A'.
Proof.
  intros Hkeep Hcall. induction l as [|n l IH]; intros acc A acc' A' Hok Hno; simpl.
  { intros [= <- <-]. exact Hno. }
  destruct (call n A) as [[a A1]|ex] eqn:Hn; simpl; [|done].
  destruct (Hkeep _ _ _ _ Hok Hn) as (Hok1 & _ & _).
  apply IH; [done|]. exact (Hcall _ _ _ _ Hok Hno Hn).
Qed.

Lemma ancestors_getset_no_cycle fuel : ∀ node A a A',
  ancestors_ok tree A → no_cycle tree A →
  ancestors_getset iter fuel tree node A = Ok (a, A') → no_cycle tree A'.
Proof.
  induction fuel as [|fuel IH]; intros node A a A' Hok Hno; simpl; [done|].
  destruct (A !! node) as [a0|] eqn:Hnode; [by intros [= _ <-]|].
  unfold getitem. destruct (tree !! node) as [ps|] eqn:Hps; simpl; [|done].
  destruct (update_calls _ (iter node ps) ps A) as [[ancs A1]|ex] eqn:Hs; simpl; [|done].
  intros [= <- <-].
  pose proof (update_calls_no_cycle _ _ (ancestors_getset_ok tree iter Hiter fuel) IH
                _ _ _ _ Hok Hno Hs) as Hno1.
  destruct (update_calls_ok tree _ _ (ancestors_getset_ok tree iter Hiter fuel)
              _ _ _ _ Hok Hs) as (Hok1 & _ & Hdom & _).
  intros n Hn Hcycle. destruct (decide (n = node)) as [->|Hne].
  - assert (is_Some (A1 !! node)) as Hin; [|by apply (Hno1 node)].
    assert (∃ c, edge tree node c ∧ (c = node ∨ tc (edge tree) c node))
      as (c & (ps' & Hps' & Hc) & Hrest).
    { inversion Hcycle as [? ? Hedge|? c ? Hedge Hpath]; simplify_eq; eauto. }
    simplify_eq. destruct (Hdom c) as [ac Hac].
    { by rewrite Hiter, elem_of_elements. }
    destruct Hrest as [->|Hpath]; [by exists ac|].
    by destruct (ancestors_ok_complete tree A1 c node Hok1 Hpath ac Hac).
  - rewrite lookup_insert_ne in Hn by done. by apply (Hno1 n).
Qed.

Lemma ancestors_loop_no_cycle fuel order : ∀ A A',
  ancestors_ok tree A → no_cycle tree A →
  ancestors_loop iter fuel tree order A = Ok A' → no_cycle tree A'.
Proof.
  induction order as [|node order IH]; intros A A' Hok Hno; simpl.
  { by intros [= <-]. }
  destruct (ancestors_getset iter fuel tree node A) as [[a A1]|ex] eqn:Hn; simpl;
    [|done].
  destruct (ancestors_getset_ok tree iter Hiter fuel _ _ _ _ Hok Hn) as (Hok1 & _ & _).
  apply IH; [done|]. exact (ancestors_getset_no_cycle _ _ _ _ _ Hok Hno Hn).
Qed.

Lemma get_ancestors_no_cycle fuel order A :
  get_ancestors iter fuel tree order = Ok A → no_cycle tree A.
Proof.
  apply ancestors_loop_no_cycle.
  - intros n a. by rewrite lookup_empty.
  - intros n [a Ha]. by rewrite lookup_empty in Ha.
Qed.

Lemma ancestors_getset_returns rank fuel : ∀ node A,
  ranked tree (edge tree) rank →
  is_Some (tree !! node) → (rank node < fuel)%nat →
  ∃ r, ancestors_getset iter fuel tree node A = Ok r.
Proof.
  induction fuel as [|fuel IH]; intros node A Hrank [ps Hps] Hlt; [lia|].
  simpl. destruct (A !! node); [eauto|].
  unfold getitem. rewrite Hps. simpl.
  destruct (update_calls_returns (ancestors_getset iter fuel tree) (iter node ps))
    with (acc := ps) (memo := A) as [[a A1] ->]; [|simpl; eauto].
  intros c memo Hc. rewrite Hiter, elem_of_elements in Hc.
  destruct (Hrank node c) as [Hkey ?]; [by exists ps|].
  apply IH; [done..|lia].
Qed.

Lemma ancestors_loop_returns rank fuel order : ∀ A,
  ranked tree (edge tree) rank →
  (∀ n, n ∈ order → is_Some (tree !! n) ∧ (rank n < fuel)%nat) →
  ∃ A', ancestors_loop iter fuel tree order A = Ok A'.
Proof.
  induction order as [|node order IH]; intros A Hrank Hord; simpl; [eauto|].
  destruct (Hord node) as [Hkey Hlt]; [by left|].
  destruct (ancestors_getset_returns rank fuel node A Hrank Hkey Hlt) as [[a A1] ->].
  simpl. apply IH; [done|]. intros n Hn. apply Hord. by right.
Qed.

End ancestors_runs.

(** X8. The table that [get_ancestors] returns has an entry for every
    node it was started on, and the entry of a node is the set of the
    nodes that one or more edges of the tree lead to from it; the node
    itself is not among them. *)
Theorem get_ancestors_reachable iter fuel tree order A :
  (∀ node (X : gset string), iter node X ≡ₚ elements X) →
  get_ancestors iter fuel tree order = Ok A →
  (∀ n, n ∈ order → is_Some (A !! n)) ∧
  ∀ n a, A !! n = Some a → (∀ x, x ∈ a ↔ tc (edge tree) n x) ∧ n ∉ a.
Proof.
  intros Hiter Hr. pose proof (get_ancestors_no_cycle tree iter Hiter _ _ _ Hr) as Hno.
  apply get_ancestors_ok in Hr as [Hok Hall]; [|done]. split; [done|].
  intros n a Hn.
  assert (∀ x, x ∈ a ↔ tc (edge tree) n x) as Hiff.
  { intros x. split.
    - destruct (Hok n a Hn) as [_ Hpath]. apply Hpath.
    - intros Hpath. by destruct (ancestors_ok_complete tree A n x Hok Hpath a Hn). }
  split; [done|]. intros Hin%Hiff. by apply (Hno n).
Qed.

Lemma get_ancestors_reachable_witness :
  get_ancestors Trees.iter 3 Trees.set_diamond ["b"; "a"; "c"] = Ok Trees.above ∧
  Trees.above !! "a" = Some {[ "b"; "c"; "d" ]} ∧
  (∀ n, n ∈ ["b"; "a"; "c"] → is_Some (Trees.above !! n)) ∧
  ∀ n a, Trees.above !! n = Some a →
    (∀ x, x ∈ a ↔ tc (edge Trees.set_diamond) n x) ∧ n ∉ a.
Proof.
  split; [by vm_compute|]. split; [by vm_compute|].
  apply (get_ancestors_reachable Trees.iter 3 Trees.set_diamond ["b"; "a"; "c"]).
  - by intros node X.
  - by vm_compute.
Defined.

(** X9. What [get_ancestors] raises: [RecursionError], or [KeyError] for
    a node that is no key of the tree, the traversal having been started
    on it or having met it in the set of a node. *)
Theorem get_ancestors_errors iter fuel tree order ex :
  (∀ node (X : gset string), iter node X ≡ₚ elements X) →
  get_ancestors iter fuel tree order = Raise ex →
  traversal_error tree order (edge tree) ex.
Proof. intros Hiter. by apply ancestors_loop_errors. Qed.

Lemma get_ancestors_errors_witness :
  get_ancestors Trees.iter 3 Trees.set_open ["a"] = Raise (KeyError "b") ∧
  traversal_error Trees.set_open ["a"] (edge Trees.set_open) (KeyError "b").
Proof.
  split; [by vm_compute|].
  apply (get_ancestors_errors Trees.iter 3 Trees.set_open ["a"]).
  - by intros node X.
  - by vm_compute.
Defined.

(** X10. On a tree with a path from a node, on which it is started, back
    to that node, [get_ancestors] raises whatever the recursion limit
    is; it raises [RecursionError] when every node met is a key. *)
Theorem get_ancestors_cycle iter fuel tree order n :
  (∀ node (X : gset string), iter node X ≡ₚ elements X) →
  n ∈ order → tc (edge tree) n n →
  (∃ ex, get_ancestors iter fuel tree order = Raise ex) ∧
  ((∀ k, k ∈ order ∨ (∃ m, edge tree m k) → is_Some (tree !! k)) →
   get_ancestors iter fuel tree order = Raise RecursionError).
Proof.
  intros Hiter Hn Hcycle.
  destruct (get_ancestors iter fuel tree order) as [A|ex] eqn:Hr.
  - exfalso. pose proof (get_ancestors_no_cycle tree iter Hiter _ _ _ Hr) as Hno.
    apply get_ancestors_ok in Hr as [Hok Hall]; [|done].
    by apply (Hno n (Hall n Hn)).
  - split; [by exists ex|]. intros Hclosed.
    apply (ancestors_loop_errors tree iter Hiter) in Hr as [->|(k & -> & Hk & Hw)];
      [done|].
    destruct (Hclosed k Hw) as [? ?]. congruence.
Qed.

Lemma get_ancestors_cycle_witness :
  get_ancestors Trees.iter 1000 Trees.set_cycle ["a"; "b"] = Raise RecursionError.
Proof.
  apply (get_ancestors_cycle Trees.iter 1000 Trees.set_cycle ["a"; "b"] "a").
  - by intros node X.
  - by left.
  - apply (tc_l _ _ "b"); [exists {["b"]}; split; [by vm_compute|set_solver]|].
    apply tc_once. exists {["a"]}. split; [by vm_compute|set_solver].
  - assert (∀ k, k = "a" ∨ k = "b" → is_Some (Trees.set_cycle !! k)) as Hkeys.
    { intros k [-> | ->]; by_compute. }
    intros k [[->|[->|?%elem_of_nil]%elem_of_cons]%elem_of_cons|(m & ps & Hm & Hk)];
      [apply Hkeys; auto..|done|].
    unfold Trees.set_cycle in Hm. apply Hkeys.
    apply lookup_insert_Some in Hm as [[_ <-]|[_ Hm]].
    { apply elem_of_singleton in Hk. auto. }
    apply lookup_singleton_Some in Hm as [_ <-].
    apply elem_of_singleton in Hk. auto.
Defined.

(** X11. [get_ancestors] returns on every tree that has no cycle, when
    the recursion limit exceeds the length of its paths: with [rank]
    decreasing along the edges, below [fuel] on the nodes it is started
    on, and every node of a set a key. *)
Theorem get_ancestors_returns iter fuel tree order rank :
  (∀ node (X : gset string), iter node X ≡ₚ elements X) →
  ranked tree (edge tree) rank →
  (∀ n, n ∈ order → is_Some (tree !! n) ∧ (rank n < fuel)%nat) →
  ∃ A, get_ancestors iter fuel tree order = Ok A.
Proof. intros Hiter Hrank Hord. by apply (ancestors_loop_returns tree iter Hiter rank). Qed.

Lemma set_diamond_ranked : ranked Trees.set_diamond (edge Trees.set_diamond) Trees.rank.
Proof.
  intros n c (ps & Hn & Hc). unfold Trees.set_diamond in Hn.
  repeat (apply lookup_insert_Some in Hn as [[<- <-]|[_ Hn]];
          [repeat (apply elem_of_union in Hc as [Hc|Hc]);
           apply elem_of_singleton in Hc as ->; split; by_compute|]).
  apply lookup_singleton_Some in Hn as [_ <-]. by apply elem_of_empty in Hc.
Qed.

Lemma get_ancestors_returns_witness :
  ∃ A, get_ancestors Trees.iter 3 Trees.set_diamond ["a"; "b"; "c"; "d"] = Ok A.
Proof.
  apply (get_ancestors_returns Trees.iter 3 Trees.set_diamond ["a"; "b"; "c"; "d"]
           Trees.rank).
  - by intros node X.
  - apply set_diamond_ranked.
  - intros n Hn.
    repeat (apply elem_of_cons in Hn as [->|Hn]; [split; by_compute|]).
    by apply elem_of_nil in Hn.
Defined.


(** ** Graph builder, once more *)

Section include_dirs.

Variable e : env.

Implicit Types (tasks : list (string * Task)) (task : Task)
  (sd : gmap string (gset string)) (used : gset string) (ms incs : list string).

Lemma drop_found_Raise : ∀ pairs used ex,
  drop_found e pairs used = Raise ex → ∃ k, ex = KeyError k.
Proof.
  induction pairs as [|[i m] pairs IH]; intros used ex; [done|].
  rewrite drop_found_cons. destruct (path_exists e _); [|apply IH].
  case_decide; [apply IH|]. intros [= <-]. eauto.
Qed.

(** A module found in a directory after it has been removed. *)
Lemma drop_found_dir_Raise i rest : ∀ ms used,
  (∃ m, m ∈ ms ∧ path_exists e (i +:+ "/" +:+ m +:+ ".mod") = true ∧ m ∉ used) →
  ∃ k, drop_found e ((pair i <$> ms) ++ rest) used = Raise (KeyError k).
Proof.
  induction ms as [|x ms IH]; intros used (m & Hm & Hex & Hno).
  { by apply elem_of_nil in Hm. }
  rewrite fmap_cons, <- app_comm_cons, drop_found_cons.
  destruct (path_exists e (i +:+ "/" +:+ x +:+ ".mod")) eqn:Hx.
  - case_decide as Hin; [|eauto]. apply IH. exists m.
    apply elem_of_cons in Hm as [->|Hm]; [done|]. split; [done|]. split; [done|].
    set_solver.
  - apply IH. exists m. apply elem_of_cons in Hm as [->|Hm]; [congruence|done].
Qed.

Lemma drop_found_product_inv ms : NoDup ms → ∀ incs used used',
  drop_found e (product incs ms) used = Ok used' →
  ∀ m, m ∈ ms →
    let found := filter (λ i, path_exists e (i +:+ "/" +:+ m +:+ ".mod") = true) incs in
    (m ∈ used → (length found ≤ 1)%nat) ∧ (m ∉ used → found = []).
Proof.
  intros Hnd. induction incs as [|i incs IH]; intros used used' Hr m Hm; simpl.
  { split; [lia|done]. }
  rewrite product_cons in Hr.
  destruct (decide (Exists (λ x, path_exists e (i +:+ "/" +:+ x +:+ ".mod") = true
                                 ∧ x ∉ used) ms)) as [Hbad|Hgood].
  { apply Exists_exists in Hbad as (x & Hx & Hex & Hno).
    destruct (drop_found_dir_Raise i (product incs ms) ms used) as [k Hk]; [eauto|].
    congruence. }
  rewrite Exists_exists in Hgood.
  destruct (drop_found_dir e i (product incs ms) ms used Hnd) as (used1 & Heq & Hused1).
  { intros x Hx Hex. destruct (decide (x ∈ used)); [done|]. destruct Hgood; eauto. }
  rewrite Heq in Hr. destruct (IH _ _ Hr m Hm) as [Hin Hout]. simpl in Hin, Hout.
  rewrite filter_cons. case_decide as Hex.
  - split.
    + intros _. rewrite Hout; [simpl; lia|]. rewrite Hused1. tauto.
    + intros Hno. destruct Hgood. eauto.
  - split.
    + intros Hu. apply Hin. rewrite Hused1. tauto.
    + intros Hno. apply Hout. rewrite Hused1. tauto.
Qed.

Lemma drop_included_Raise : ∀ tasks sd ex,
  drop_included e tasks sd = Raise ex → ∃ k, ex = KeyError k.
Proof.
  induction tasks as [|[src task] tasks IH]; intros sd ex; [done|].
  rewrite drop_included_cons. destruct (includes task); [apply IH|].
  unfold getitem. destruct (sd !! src) as [used|]; simpl; [|intros [= <-]; eauto].
  destruct (drop_found e _ used) as [used'|ex1] eqn:Hd; simpl; [apply IH|].
  intros [= <-]. by eapply drop_found_Raise.
Qed.

Lemma drop_included_Ok_inv : iterates_sets e → ∀ tasks sd0 sd,
  NoDup (tasks.*1) → drop_included e tasks sd0 = Ok sd →
  ∀ src task used, (src, task) ∈ tasks → sd0 !! src = Some used →
    ∀ m, m ∈ used → (length (found_in e task m) ≤ 1)%nat.
Proof.
  intros Hiter. induction tasks as [|[s t] tasks IH]; intros sd0 sd Hnd Hr src task used.
  { by intros ?%elem_of_nil. }
  simpl in Hnd. apply NoDup_cons in Hnd as [Hs Hnd].
  rewrite drop_included_cons in Hr.
  intros [[= -> ->]|Hin]%elem_of_cons Hused m Hm.
  - destruct (includes t) as [|i incs] eqn:Hinc.
    { rewrite found_in_no_includes by done. simpl. lia. }
    unfold getitem in Hr. rewrite Hused, bind_Ok_l in Hr.
    destruct (drop_found e _ used) as [used'|ex] eqn:Hd; [|done].
    unfold found_in. rewrite Hinc.
    destruct (drop_found_product_inv (iterate e (InProduct s) used)
                (NoDup_iterate e _ _ Hiter) _ _ _ Hd m) as [Hle _].
    { by apply elem_of_iterate. }
    by apply Hle.
  - assert (src ≠ s) as Hne.
    { intros ->. apply Hs. apply list_elem_of_fmap. by exists (s, task). }
    destruct (includes t) as [|i incs]; [by eapply IH|].
    inv_bind Hr as u Hu. inv_bind Hr as u' Hu'.
    eapply (IH _ _ Hnd Hr src task used Hin); [|done].
    by rewrite lookup_insert_ne.
Qed.

End include_dirs.

Lemma tc_iff {A : Type} (R1 R2 : relation A) x y :
  (∀ a b, R1 a b ↔ R2 a b) → tc R1 x y ↔ tc R2 x y.
Proof.
  intros Hiff. split; induction 1 as [a b Hab|a b c Hab _ IH].
  - apply tc_once. by apply Hiff.
  - eapply tc_l; [by apply Hiff|done].
  - apply tc_once. by apply Hiff.
  - eapply tc_l; [by apply Hiff|done].
Qed.

Lemma tc_flip {A : Type} (R : relation A) x y : tc R x y → tc (flip R) y x.
Proof.
  induction 1 as [a b Hab|a b c Hab _ IH]; [by apply tc_once|].
  eapply tc_r; [done|]. done.
Qed.

Lemma NoDup_fst_inj {A B : Type} (l : list (A * B)) k x y :
  NoDup (l.*1) → (k, x) ∈ l → (k, y) ∈ l → x = y.
Proof.
  induction l as [|[k' z] l IH]; simpl; intros Hnd Hx Hy.
  { by apply elem_of_nil in Hx. }
  apply NoDup_cons in Hnd as [Hk Hnd].
  apply elem_of_cons in Hx as [Hx|Hx]; apply elem_of_cons in Hy as [Hy|Hy];
    simplify_eq; auto.
  - destruct Hk. apply list_elem_of_fmap. by exists (k', y).
  - destruct Hk. apply list_elem_of_fmap. by exists (k', x).
Qed.

Section stages.

Variables (e : env) (tasks : list (string * Task)).

Hypothesis Hiter : iterates_sets e.
Hypothesis Hkeys : NoDup (tasks.*1).

Implicit Types (sc : scan) (sd : gmap string (gset string)).

Lemma scan_inv_scanned sc :
  scan_inv e tasks sc → Forall (λ st, is_Some (scanned e st.2)) tasks.
Proof.
  intros Hinv. apply Forall_forall. intros [s t] Hin. simpl.
  destruct (scan_done _ _ _ Hinv _ _ Hin) as (n & d & u & h & -> & _). done.
Qed.

Lemma scan_front :
  Forall (λ st, is_Some (scanned e st.2)) tasks → NoDup (all_defs e tasks) →
  ∃ sc, scan_tasks e scan_empty tasks = Ok sc ∧ scan_inv e tasks sc.
Proof.
  intros Hsc Hnd.
  destruct (scan_tasks_cases e tasks [] scan_empty (scan_inv_empty e) Hkeys Hsc)
    as [[_ [sc Hr]]|[Hdup _]]; [constructor| |done].
  exists sc. split; [done|]. by apply scan_tasks_Ok.
Qed.

Lemma scan_Ok_defs sc :
  scan_tasks e scan_empty tasks = Ok sc → NoDup (all_defs e tasks).
Proof.
  intros Hr. pose proof (scan_tasks_Ok _ _ _ Hkeys Hr) as Hinv.
  destruct (scan_tasks_cases e tasks [] scan_empty (scan_inv_empty e) Hkeys
              (scan_inv_scanned sc Hinv))
    as [[Hnd _]|[_ (m & a & b & pre & task & post & ta & Hraise & _)]];
    [constructor|done|].
  congruence.
Qed.

Section scanned.

Variable sc : scan.

Hypothesis Hinv : scan_inv e tasks sc.
Hypothesis Hdefs : NoDup (all_defs e tasks).

Lemma mod_defs_definers m d :
  sc_mod_defs sc !! m = Some d ↔ d ∈ definers e tasks m.
Proof.
  destruct (scan_inv_mod_defs e tasks sc m Hinv) as [Hsome Hnone]. split; [auto|].
  intros Hd. assert (sc_mod_defs sc !! m ≠ None) as Hne.
  { intros Hm%Hnone. destruct Hm. apply elem_of_definers in Hd as (t & ? & ?).
    apply elem_of_all_defs. eauto. }
  destruct (sc_mod_defs sc !! m) as [d'|] eqn:Hm; [|done].
  f_equal. apply (definers_inj e m tasks); auto.
Qed.

Lemma mod_defs_None m : sc_mod_defs sc !! m = None ↔ definers e tasks m = [].
Proof. rewrite definers_nil. apply (scan_inv_mod_defs e tasks sc m Hinv). Qed.

Lemma kept_uses_iff m (u : gset string) :
  m ∈ kept_uses (sc_mod_defs sc) u ↔ m ∈ u ∧ ¬ intrinsic e tasks m.
Proof.
  unfold kept_uses, intrinsic. rewrite <- mod_defs_None. case_decide; set_solver.
Qed.

Lemma src_deps_dropped src task :
  (src, task) ∈ tasks →
  drop_intrinsics (sc_mod_defs sc) (sc_src_deps sc) !! src
    = Some (kept_uses (sc_mod_defs sc) (used_in e task)).
Proof.
  intros Hin. rewrite drop_intrinsics_lookup.
  destruct (scan_done _ _ _ Hinv _ _ Hin) as (n & d & u & h & Hs & _ & -> & _).
  by destruct (defs_of_scanned _ _ _ _ _ _ Hs) as [_ ->].
Qed.

Lemma drop_front :
  found_once e tasks →
  ∃ sd, drop_included e tasks (drop_intrinsics (sc_mod_defs sc) (sc_src_deps sc))
          = Ok sd ∧ resolved e tasks sd.
Proof.
  intros Honce.
  destruct (drop_included_Ok e tasks Hiter
              (drop_intrinsics (sc_mod_defs sc) (sc_src_deps sc)) Hkeys)
    as (sd & Hr & Hout & Hin).
  { intros src task Hst. eexists. split; [by apply src_deps_dropped|].
    intros m [Hm Hni]%kept_uses_iff. unfold found_once in Honce.
    rewrite Forall_forall in Honce. by apply (Honce (src, task) Hst). }
  exists sd. split; [done|]. split.
  - intros s Hs. rewrite (Hout s Hs), drop_intrinsics_lookup.
    destruct (scan_fresh _ _ _ Hinv s Hs) as (_ & -> & _). done.
  - intros s task Hst.
    destruct (Hin s task _ Hst (src_deps_dropped _ _ Hst)) as (used & Hu & Hiff).
    exists used. split; [done|]. intros m. rewrite Hiff, kept_uses_iff.
    unfold kept. tauto.
Qed.

Lemma drop_front_inv sd :
  drop_included e tasks (drop_intrinsics (sc_mod_defs sc) (sc_src_deps sc)) = Ok sd →
  found_once e tasks ∧ resolved e tasks sd.
Proof.
  intros Hr. assert (found_once e tasks) as Honce.
  { apply Forall_forall. intros [s t] Hst m Hm Hni. simpl in *.
    apply (drop_included_Ok_inv e Hiter _ _ _ Hkeys Hr s t _ Hst
             (src_deps_dropped _ _ Hst)).
    by apply kept_uses_iff. }
  split; [done|]. destruct (drop_front Honce) as (sd' & Hr' & Hres). congruence.
Qed.

Section dropped.

Variable sd : gmap string (gset string).

Hypothesis Hres : resolved e tasks sd.

Lemma elem_of_resolved s m :
  m ∈ default ∅ (sd !! s) ↔ ∃ task, (s, task) ∈ tasks ∧ kept e tasks task m.
Proof.
  destruct (decide (s ∈ tasks.*1)) as [Hs|Hs].
  - apply list_elem_of_fmap in Hs as ([s' t] & -> & Hst). simpl.
    destruct (res_in _ _ _ Hres _ _ Hst) as (used & -> & Hiff). simpl.
    rewrite Hiff. split; [eauto|]. intros (t' & Hst' & Hk).
    by rewrite (NoDup_fst_inj _ _ _ _ Hkeys Hst Hst').
  - rewrite (res_out _ _ _ Hres s Hs). simpl. split; [set_solver|].
    intros (t & Hst & _). destruct Hs. apply list_elem_of_fmap. by exists (s, t).
Qed.

Lemma all_used_resolved m :
  m ∈ all_used sd ↔ Exists (λ st, kept e tasks st.2 m) tasks.
Proof.
  rewrite elem_of_all_used, Exists_exists. split.
  - intros (s & u & Hs & Hm).
    assert (m ∈ default ∅ (sd !! s)) as Hin by (by rewrite Hs).
    apply elem_of_resolved in Hin as (t & Hst & Hk). by exists (s, t).
  - intros ([s t] & Hst & Hk). simpl in *.
    destruct (res_in _ _ _ Hres _ _ Hst) as (used & Hu & Hiff).
    exists s, used. split; [done|]. by apply Hiff.
Qed.

Lemma check_front :
  check_defined (sc_mod_defs sc) (iterate e InCheck (all_used sd)) = Ok tt ↔
  ∀ m, ¬ unresolved e tasks m.
Proof.
  rewrite check_defined_Ok. split.
  - intros Hall m [Hm Hd]. apply mod_defs_None in Hd.
    destruct (Hall m) as [d Hd']; [|congruence].
    apply elem_of_iterate; [done|]. by apply all_used_resolved.
  - intros Hno m Hm%elem_of_iterate; [|done]. apply all_used_resolved in Hm.
    destruct (sc_mod_defs sc !! m) eqn:Hd; [done|].
    destruct (Hno m). split; [done|]. by apply mod_defs_None.
Qed.

Lemma check_raises ex :
  check_defined (sc_mod_defs sc) (iterate e InCheck (all_used sd)) = Raise ex →
  ∃ m, ex = ModuleNotDefined m ∧ unresolved e tasks m.
Proof.
  intros (m & -> & Hm & Hd)%check_defined_Raise. exists m. split; [done|].
  apply elem_of_iterate in Hm; [|done]. split; [by apply all_used_resolved|].
  by apply mod_defs_None.
Qed.

End dropped.

End scanned.

End stages.


Section parents.

Variable e : env.

Lemma parents_of_returns mod_defs : ∀ mods,
  (∀ m, m ∈ mods → is_Some (mod_defs !! m)) →
  ∃ ps, parents_of mod_defs mods = Ok ps.
Proof.
  induction mods as [|m mods IH]; intros Hall; simpl; [eauto|].
  destruct (Hall m) as [s Hs]; [by left|]. unfold getitem. rewrite Hs. simpl.
  destruct IH as [ps ->]; [intros m' Hm'; apply Hall; by right|]. simpl. eauto.
Qed.

Lemma parents_tree_returns mod_defs (sd : gmap string (gset string)) :
  iterates_sets e → ∀ order,
  (∀ s m, s ∈ order → m ∈ default ∅ (sd !! s) → is_Some (mod_defs !! m)) →
  ∃ ptree, parents_tree e mod_defs order sd = Ok ptree.
Proof.
  intros Hiter. induction order as [|src order IH]; intros Hall; simpl; [eauto|].
  destruct (parents_of_returns mod_defs
              (iterate e (InParents src) (default ∅ (sd !! src)))) as [ps ->].
  { intros m Hm%elem_of_iterate; [|done]. apply (Hall src); [by left|done]. }
  simpl. destruct IH as [t ->]; [|simpl; eauto].
  intros s m Hs. apply Hall. by right.
Qed.

End parents.

Section back.

Variables (e : env) (tasks : list (string * Task)).

Hypothesis Hiter : iterates_sets e.
Hypothesis Hkeys : NoDup (tasks.*1).

Variable sc : scan.

Hypothesis Hinv : scan_inv e tasks sc.
Hypothesis Hdefs : NoDup (all_defs e tasks).

Variable sd : gmap string (gset string).

Hypothesis Hres : resolved e tasks sd.

Lemma uses_resolved m :
  uses_of (build_mod_uses e tasks.*1 sd ∅) m
    = filter (λ s, m ∈ default ∅ (sd !! s)) tasks.*1.
Proof.
  rewrite uses_of_build_mod_uses by done. unfold uses_of at 1.
  by rewrite lookup_empty.
Qed.

Lemma elem_of_uses m d :
  d ∈ uses_of (build_mod_uses e tasks.*1 sd ∅) m ↔
  ∃ task, (d, task) ∈ tasks ∧ kept e tasks task m.
Proof.
  rewrite uses_resolved, list_elem_of_filter, (elem_of_resolved e tasks Hiter Hkeys sc Hinv Hdefs sd Hres).
  split; [tauto|]. intros (t & Hst & Hk). split; [eauto|].
  apply list_elem_of_fmap. by exists (d, t).
Qed.

Lemma src_mods_defs s task :
  (s, task) ∈ tasks → sc_src_mods sc !! s = Some (defs_of e task).
Proof.
  intros Hst. destruct (scan_done _ _ _ Hinv _ _ Hst) as (n & d & u & h & Hs & -> & _).
  by destruct (defs_of_scanned _ _ _ _ _ _ Hs) as [-> _].
Qed.

Lemma src_mods_keys s : is_Some (sc_src_mods sc !! s) ↔ s ∈ tasks.*1.
Proof.
  split.
  - intros Hs. destruct (decide (s ∈ tasks.*1)) as [|Hn]; [done|].
    destruct (scan_fresh _ _ _ Hinv s Hn) as [Hnone _].
    rewrite Hnone in Hs. by destruct Hs.
  - intros ([s' t] & -> & Hst)%list_elem_of_fmap. simpl.
    by rewrite (src_mods_defs _ _ Hst).
Qed.

Lemma child_depends s d :
  child (children_of (build_mod_uses e tasks.*1 sd ∅) <$> sc_src_mods sc) s d ↔
  depends e tasks d s.
Proof.
  unfold child, depends. rewrite lookup_fmap. split.
  - intros (ch & Hch & Hd).
    destruct (sc_src_mods sc !! s) as [mods|] eqn:Hmods; [|done].
    injection Hch as <-. apply elem_of_children_of in Hd as (m & Hm & Hd).
    apply elem_of_uses in Hd as (task & Hst & Hk). exists task, m.
    split; [done|]. split; [done|].
    apply (mod_defs_definers e tasks Hkeys sc Hinv Hdefs).
    apply (scan_defs _ _ _ Hinv). eauto.
  - intros (task & m & Hst & Hk & (ts & Hs & Hm)%elem_of_definers).
    rewrite (src_mods_defs _ _ Hs). simpl. eexists. split; [done|].
    apply elem_of_children_of. exists m. split; [done|].
    apply elem_of_uses. eauto.
Qed.

Lemma depends_sources s d : depends e tasks s d → s ∈ tasks.*1 ∧ d ∈ tasks.*1.
Proof.
  intros (task & m & Hst & _ & (td & Hd & _)%elem_of_definers).
  split; apply list_elem_of_fmap; [by exists (s, task)|by exists (d, td)].
Qed.

Section defined.

Hypothesis Hdefined : ∀ m, ¬ unresolved e tasks m.

Lemma parents_front :
  ∃ ptree, parents_tree e (sc_mod_defs sc) tasks.*1 sd = Ok ptree.
Proof.
  apply parents_tree_returns; [done|]. intros s m _ Hm.
  apply (elem_of_resolved e tasks Hiter Hkeys sc Hinv Hdefs sd Hres) in Hm as (task & Hst & Hk).
  destruct (sc_mod_defs sc !! m) eqn:Hd; [done|].
  destruct (Hdefined m). split.
  - apply Exists_exists. by exists (s, task).
  - by apply (mod_defs_None e tasks sc Hinv).
Qed.

End defined.

Lemma edge_depends ptree :
  parents_tree e (sc_mod_defs sc) tasks.*1 sd = Ok ptree →
  (∀ s, is_Some (ptree !! s) ↔ s ∈ tasks.*1) ∧
  ∀ s d, edge ptree s d ↔ depends e tasks s d.
Proof.
  intros [Hall Hsome]%parents_tree_Ok; [|done]. split.
  - intros s. split; [|apply Hall]. intros [ps Hps]. by destruct (Hsome _ _ Hps).
  - intros s d. unfold edge, depends. split.
    + intros (ps & Hps & Hd). destruct (Hsome _ _ Hps) as [Hs Hiff].
      apply Hiff in Hd as (m & Hm & Hd).
      apply (elem_of_resolved e tasks Hiter Hkeys sc Hinv Hdefs sd Hres) in Hm as (task & Hst & Hk).
      exists task, m. split; [done|]. split; [done|].
      by apply (mod_defs_definers e tasks Hkeys sc Hinv Hdefs).
    + intros (task & m & Hst & Hk & Hd).
      destruct (Hall s) as [ps Hps]; [apply list_elem_of_fmap; by exists (s, task)|].
      exists ps. split; [done|]. destruct (Hsome _ _ Hps) as [_ Hiff].
      apply Hiff. exists m. split.
      * apply (elem_of_resolved e tasks Hiter Hkeys sc Hinv Hdefs sd Hres). eauto.
      * by apply (mod_defs_definers e tasks Hkeys sc Hinv Hdefs).
Qed.

End back.


Section builder.

Variables (e : env) (tasks : list (string * Task)).

Hypothesis Hiter : iterates_sets e.
Hypothesis Hkeys : NoDup (tasks.*1).

(** On tasks that are buildable, [get_tree] comes down to the two
    traversals. *)
Lemma get_tree_stages :
  buildable e tasks →
  ∃ sc sd ptree,
    scan_inv e tasks sc ∧ resolved e tasks sd ∧
    parents_tree e (sc_mod_defs sc) tasks.*1 sd = Ok ptree ∧
    ∀ fuel,
      get_tree e fuel tasks =
        priority ← get_priority fuel
                      (children_of (build_mod_uses e tasks.*1 sd ∅) <$> sc_src_mods sc)
                      tasks.*1;
        ancestors ← get_ancestors (λ node, iterate e (InAncestors node)) fuel ptree
                       tasks.*1;
        Ok {| src_mods := sc_src_mods sc;
              mod_uses := build_mod_uses e tasks.*1 sd ∅;
              hashes := sc_hashes sc; line_nums := sc_line_nums sc;
              priority := priority; ancestors := ancestors |}.
Proof.
  intros [Hsc Hdefs Honce Hdefined].
  destruct (scan_front e tasks Hkeys Hsc Hdefs) as (sc & Hr & Hinv).
  destruct (drop_front e tasks Hiter Hkeys sc Hinv Hdefs Honce) as (sd & Hd & Hres).
  destruct (parents_front e tasks Hiter Hkeys sc Hinv Hdefs sd Hres Hdefined)
    as [ptree Hpt].
  exists sc, sd, ptree. split; [done|]. split; [done|]. split; [done|].
  intros fuel. unfold get_tree. rewrite Hr, bind_Ok_l, Hd, bind_Ok_l.
  rewrite (proj2 (check_front e tasks Hiter Hkeys sc Hinv Hdefs sd Hres) Hdefined).
  rewrite bind_Ok_l.
  destruct (get_priority fuel _ _) as [P|ex]; simpl; [|done].
  by rewrite Hpt.
Qed.

Lemma get_tree_Ok_buildable fuel tree :
  get_tree e fuel tasks = Ok tree → buildable e tasks.
Proof.
  intros H. unfold get_tree in H.
  inv_bind H as sc Hsc. pose proof (scan_tasks_Ok _ _ _ Hkeys Hsc) as Hinv.
  pose proof (scan_Ok_defs e tasks Hkeys sc Hsc) as Hdefs.
  inv_bind H as sd Hsd.
  apply (drop_front_inv e tasks Hiter Hkeys sc Hinv Hdefs) in Hsd as [Honce Hres].
  inv_bind H as u Hchk. destruct u.
  pose proof (proj1 (check_front e tasks Hiter Hkeys sc Hinv Hdefs sd Hres) Hchk)
    as Hdefined.
  split; [by eapply scan_inv_scanned|done..].
Qed.

(** What the traversals raise on buildable tasks. *)
Lemma get_tree_Raise fuel ex :
  buildable e tasks → get_tree e fuel tasks = Raise ex → ex = RecursionError.
Proof.
  intros Hb Hr.
  destruct (get_tree_stages Hb) as (sc & sd & ptree & Hinv & Hres & Hpt & Heq).
  destruct Hb as [Hsc Hdefs Honce Hdefined].
  rewrite Heq in Hr. clear Heq.
  destruct (get_priority fuel _ _) as [P|ex1] eqn:HP; simpl in Hr.
  - destruct (get_ancestors _ fuel ptree _) as [A|ex2] eqn:HA; simpl in Hr; [done|].
    injection Hr as <-.
    apply (ancestors_loop_errors ptree _ (λ node X, Hiter _ X)) in HA
      as [->|(k & -> & Hk & Hw)]; [done|].
    destruct (edge_depends e tasks Hiter Hkeys sc Hinv Hdefs sd Hres ptree Hpt)
      as [Hdom Hedge].
    assert (k ∈ tasks.*1) as Hin.
    { destruct Hw as [?|[n Hn]]; [done|].
      apply Hedge in Hn. by destruct (depends_sources e tasks _ _ Hn). }
    apply Hdom in Hin as [? ?]. congruence.
  - injection Hr as <-.
    apply priority_loop_errors in HP as [->|(k & -> & Hk & Hw)]; [done|].
    assert (k ∈ tasks.*1) as Hin.
    { destruct Hw as [?|[n Hn]]; [done|].
      apply (child_depends e tasks Hiter Hkeys sc Hinv Hdefs sd Hres) in Hn.
      by destruct (depends_sources e tasks _ _ Hn). }
    apply (src_mods_keys e tasks sc Hinv) in Hin as [mods Hmods].
    rewrite lookup_fmap, Hmods in Hk. done.
Qed.

Lemma get_tree_acyclic fuel tree s :
  get_tree e fuel tasks = Ok tree → ¬ tc (depends e tasks) s s.
Proof.
  intros Hr Hcycle. pose proof (get_tree_Ok_buildable _ _ Hr) as Hb.
  destruct (get_tree_stages Hb) as (sc & sd & ptree & Hinv & Hres & Hpt & Heq).
  destruct Hb as [Hsc Hdefs Honce Hdefined].
  rewrite Heq in Hr. inv_bind Hr as P HP. inv_bind Hr as A HA.
  destruct (edge_depends e tasks Hiter Hkeys sc Hinv Hdefs sd Hres ptree Hpt)
    as [Hdom Hedge].
  assert (tc (edge ptree) s s) as Hc.
  { revert Hcycle. apply tc_iff. intros a b. by rewrite Hedge. }
  assert (s ∈ tasks.*1) as Hs.
  { inversion Hcycle as [? ? Hd|? ? ? Hd _]; by destruct (depends_sources e tasks _ _ Hd). }
  pose proof (get_ancestors_no_cycle ptree _ (λ node X, Hiter _ X) _ _ _ HA) as Hno.
  apply get_ancestors_ok in HA as [_ Hall]; [|intros node X; apply Hiter].
  by apply (Hno s (Hall s Hs)).
Qed.

Lemma get_tree_Ok_stages fuel tree :
  get_tree e fuel tasks = Ok tree →
  ∃ sc sd ptree P A,
    scan_inv e tasks sc ∧ NoDup (all_defs e tasks) ∧ resolved e tasks sd ∧
    parents_tree e (sc_mod_defs sc) tasks.*1 sd = Ok ptree ∧
    get_priority fuel
      (children_of (build_mod_uses e tasks.*1 sd ∅) <$> sc_src_mods sc) tasks.*1
      = Ok P ∧
    get_ancestors (λ node, iterate e (InAncestors node)) fuel ptree tasks.*1 = Ok A ∧
    tree = {| src_mods := sc_src_mods sc;
              mod_uses := build_mod_uses e tasks.*1 sd ∅;
              hashes := sc_hashes sc; line_nums := sc_line_nums sc;
              priority := P; ancestors := A |}.
Proof.
  intros Hr. pose proof (get_tree_Ok_buildable _ _ Hr) as Hb.
  destruct (get_tree_stages Hb) as (sc & sd & ptree & Hinv & Hres & Hpt & Heq).
  rewrite Heq in Hr. inv_bind Hr as P HP. inv_bind Hr as A HA. injection Hr as <-.
  exists sc, sd, ptree, P, A. by destruct Hb.
Qed.

Lemma scanned_count task n d u h :
  scanned e task = Some (n, d, u, h) → 0 ≤ n.
Proof.
  unfold scanned. destruct (open_file e (source task)) as [f|]; [|done]. simpl.
  destruct (parse_modules (text_lines f)) as [[[n' d'] u']|] eqn:Hp; [|done].
  intros [= <- _ _ _]. unfold parse_modules in Hp.
  inv_bind Hp as [[n0 d0] u0] Hl. injection Hp as <- _ _.
  apply parse_lines_Ok in Hl as (kinds & _ & [= -> _ _]). lia.
Qed.

Lemma get_tree_depends_path fuel tree s a :
  get_tree e fuel tasks = Ok tree → ancestors tree !! s = Some a →
  ∀ x, x ∈ a ↔ tc (depends e tasks) s x.
Proof.
  intros (sc & sd & ptree & P & A & Hinv & Hdefs & Hres & Hpt & HP & HA & ->)
    %get_tree_Ok_stages Ha x. simpl in Ha.
  destruct (edge_depends e tasks Hiter Hkeys sc Hinv Hdefs sd Hres ptree Hpt)
    as [Hdom Hedge].
  apply get_ancestors_ok in HA as [Hok _]; [|intros node X; apply Hiter].
  rewrite <- (tc_iff (edge ptree) (depends e tasks) s x Hedge). split.
  - destruct (Hok s a Ha) as [_ Hpath]. apply Hpath.
  - intros Hpath. by destruct (ancestors_ok_complete ptree A s x Hok Hpath a Ha).
Qed.

End builder.


Lemma example_keys : NoDup (Example.tasks.*1).
Proof. by_compute. Qed.

Lemma example_buildable : buildable Example.world Example.tasks.
Proof.
  apply (get_tree_Ok_buildable _ _ example_iterates example_keys 10 Example.tree).
  apply example_tree.
Qed.

(** X12. [get_tree] returns a tree only on buildable tasks (every file
    opens and parses, no module is defined twice, no use that is kept has
    its interface file in two include directories of its task, every use
    that is kept is defined by a source) that have no cycle of
    dependencies. *)
Theorem get_tree_requires e fuel tasks tree :
  iterates_sets e → NoDup (tasks.*1) → get_tree e fuel tasks = Ok tree →
  buildable e tasks ∧ ∀ s, ¬ tc (depends e tasks) s s.
Proof.
  intros Hiter Hkeys Hr. split; [by eapply get_tree_Ok_buildable|].
  intros s. by eapply get_tree_acyclic.
Qed.

Lemma get_tree_requires_witness :
  buildable Example.world Example.tasks ∧
  ∀ s, ¬ tc (depends Example.world Example.tasks) s s.
Proof.
  apply (get_tree_requires Example.world 10 Example.tasks Example.tree).
  - apply example_iterates.
  - apply example_keys.
  - apply example_tree.
Defined.

Section returns.

Variables (e : env) (tasks : list (string * Task)).

Hypothesis Hiter : iterates_sets e.
Hypothesis Hkeys : NoDup (tasks.*1).

Lemma get_tree_runs fuel (depth : string → nat) :
  buildable e tasks →
  (∀ s d, depends e tasks s d → (depth d < depth s)%nat) →
  (∀ s, s ∈ tasks.*1 → (depth s < fuel)%nat) →
  ∃ tree, get_tree e fuel tasks = Ok tree.
Proof.
  intros Hb Hdepth Hfuel.
  destruct (get_tree_stages e tasks Hiter Hkeys Hb)
    as (sc & sd & ptree & Hinv & Hres & Hpt & Heq).
  destruct Hb as [Hsc Hdefs Honce Hdefined]. rewrite Heq.
  destruct (edge_depends e tasks Hiter Hkeys sc Hinv Hdefs sd Hres ptree Hpt)
    as [Hdom Hedge].
  destruct (priority_loop_returns
              (children_of (build_mod_uses e tasks.*1 sd ∅) <$> sc_src_mods sc)
              (λ s, fuel - 1 - depth s)%nat fuel tasks.*1 ∅) as [P HP].
  { intros n c Hc.
    apply (child_depends e tasks Hiter Hkeys sc Hinv Hdefs sd Hres) in Hc.
    destruct (depends_sources e tasks _ _ Hc) as [Hcs Hns].
    split.
    - apply (src_mods_keys e tasks sc Hinv) in Hcs as [mods Hmods].
      by rewrite lookup_fmap, Hmods.
    - pose proof (Hdepth _ _ Hc). pose proof (Hfuel _ Hcs). lia. }
  { intros n Hn. split.
    - apply (src_mods_keys e tasks sc Hinv) in Hn as [mods Hmods].
      by rewrite lookup_fmap, Hmods.
    - pose proof (Hfuel _ Hn). lia. }
  unfold get_priority. rewrite HP, bind_Ok_l.
  destruct (ancestors_loop_returns ptree (λ node, iterate e (InAncestors node))
              (λ node X, Hiter _ X) depth fuel tasks.*1 ∅) as [A HA].
  { intros n c Hc. apply Hedge in Hc.
    destruct (depends_sources e tasks _ _ Hc) as [_ Hcs].
    split; [by apply Hdom|by apply Hdepth]. }
  { intros n Hn. split; [by apply Hdom|by apply Hfuel]. }
  unfold get_ancestors. rewrite HA. simpl. eauto.
Qed.

Lemma get_tree_priority_order fuel tree s d :
  get_tree e fuel tasks = Ok tree → depends e tasks s d →
  ∃ ps pd, priority tree !! s = Some ps ∧ priority tree !! d = Some pd ∧ ps < pd.
Proof.
  intros Hr Hd. pose proof (get_tree_wf e fuel tasks tree Hiter Hkeys Hr) as Hwf.
  destruct (depends_sources e tasks _ _ Hd) as [Hs _].
  destruct (wf_sources _ _ Hwf s Hs) as (_ & _ & _ & _ & [a Ha]).
  apply (wf_priority_ancestor _ _ Hwf s a d Ha).
  apply (get_tree_depends_path e tasks Hiter Hkeys fuel tree s a Hr Ha).
  by apply tc_once.
Qed.

End returns.

(** X13. [get_tree] returns a tree on buildable tasks that have no cycle
    of dependencies, when the recursion limit exceeds the length of the
    chains of dependencies: with [depth] greater on a source than on the
    sources it depends on, and below [fuel]. *)
Theorem get_tree_returns e fuel tasks (depth : string → nat) :
  iterates_sets e → NoDup (tasks.*1) → buildable e tasks →
  (∀ s d, depends e tasks s d → (depth d < depth s)%nat) →
  (∀ s, s ∈ tasks.*1 → (depth s < fuel)%nat) →
  ∃ tree, get_tree e fuel tasks = Ok tree.
Proof. intros Hiter Hkeys. by apply get_tree_runs. Qed.

Lemma get_tree_returns_witness :
  ∃ tree, get_tree Example.world 6 Example.tasks = Ok tree.
Proof.
  apply (get_tree_returns Example.world 6 Example.tasks example_depth).
  - apply example_iterates.
  - apply example_keys.
  - apply example_buildable.
  - intros s d Hd.
    destruct (get_tree_priority_order Example.world Example.tasks example_iterates
                example_keys 10 Example.tree s d example_tree Hd)
      as (ps & pd & Hps & Hpd & Hlt).
    assert (map_Forall (λ _ p, 1 ≤ p ≤ 5) (priority Example.tree)) as Hall
      by by_compute.
    assert (1 ≤ ps ≤ 5) by apply (Hall _ _ Hps).
    assert (1 ≤ pd ≤ 5) by apply (Hall _ _ Hpd).
    unfold example_depth. rewrite Hps, Hpd. cbn [from_option]. unfold id. lia.
  - intros s Hs.
    repeat (apply elem_of_cons in Hs as [->|Hs]; [by_compute|]).
    by apply elem_of_nil in Hs.
Defined.

(** X14. On buildable tasks with a cycle of dependencies [get_tree]
    raises [RecursionError], whatever the recursion limit is. *)
Theorem get_tree_cycle e fuel tasks s :
  iterates_sets e → NoDup (tasks.*1) → buildable e tasks →
  tc (depends e tasks) s s →
  get_tree e fuel tasks = Raise RecursionError.
Proof.
  intros Hiter Hkeys Hb Hcycle.
  destruct (get_tree e fuel tasks) as [tree|ex] eqn:Hr.
  - by destruct (get_tree_acyclic e tasks Hiter Hkeys fuel tree s Hr).
  - f_equal. by eapply get_tree_Raise.
Qed.

Lemma found_once_no_includes e tasks :
  Forall (λ st, includes st.2 = []) tasks → found_once e tasks.
Proof.
  intros Hall. unfold found_once. eapply Forall_impl; [exact Hall|].
  intros [s t] Hinc m _ _. simpl in *. rewrite found_in_no_includes by done. simpl. lia.
Qed.

Lemma cyclic_used_p : used_in Cyclic.world (Example.task "p.f90") = {["q1"]}.
Proof. by vm_compute. Qed.

Lemma cyclic_used_q : used_in Cyclic.world (Example.task "q.f90") = {["p1"]}.
Proof. by vm_compute. Qed.

Lemma cyclic_buildable : buildable Cyclic.world Cyclic.tasks.
Proof.
  split.
  - repeat constructor; by_compute.
  - by_compute.
  - apply found_once_no_includes. by repeat constructor.
  - intros m [Hm Hd]. unfold Cyclic.tasks in Hm.
    apply Exists_cons in Hm as [(Hm & _)|Hm]; simpl in Hm.
    { rewrite cyclic_used_p in Hm. apply elem_of_singleton in Hm as ->.
      by vm_compute in Hd. }
    apply Exists_cons in Hm as [(Hm & _)|Hm]; simpl in Hm.
    { rewrite cyclic_used_q in Hm. apply elem_of_singleton in Hm as ->.
      by vm_compute in Hd. }
    by apply Exists_nil in Hm.
Qed.

Lemma get_tree_cycle_witness :
  get_tree Cyclic.world 1000 Cyclic.tasks = Raise RecursionError.
Proof.
  apply (get_tree_cycle Cyclic.world 1000 Cyclic.tasks "p").
  - by intros s X.
  - by_compute.
  - apply cyclic_buildable.
  - assert (∀ m, ¬ intrinsic Cyclic.world Cyclic.tasks m ∨ m ≠ "p1" ∧ m ≠ "q1") as Hni.
    { intros m. destruct (decide (m = "p1")) as [->|?];
        [left; intros [?|[? _]]; discriminate|].
      destruct (decide (m = "q1")) as [->|?];
        [left; intros [?|[? _]]; discriminate|]. by right. }
    apply (tc_l _ _ "q").
    + exists (Example.task "p.f90"), "q1". split; [by left|]. split.
      * split; [rewrite cyclic_used_p; set_solver|]. split; [|by vm_compute].
        by destruct (Hni "q1") as [?|[_ ?]].
      * by_compute.
    + apply tc_once. exists (Example.task "q.f90"), "p1".
      split; [right; by left|]. split.
      * split; [rewrite cyclic_used_q; set_solver|]. split; [|by vm_compute].
        by destruct (Hni "p1") as [?|[? _]].
      * by_compute.
Defined.

(** X15. When every file opens and parses and no module is defined
    twice, and a use that is kept so far has its interface file in two
    include directories of its task (or in one that is listed twice),
    [get_tree] raises [KeyError]. *)
Theorem get_tree_two_directories e fuel tasks :
  iterates_sets e → NoDup (tasks.*1) →
  Forall (λ st, is_Some (scanned e st.2)) tasks → NoDup (all_defs e tasks) →
  ¬ found_once e tasks →
  ∃ k, get_tree e fuel tasks = Raise (KeyError k).
Proof.
  intros Hiter Hkeys Hsc Hdefs Hnot.
  destruct (scan_front e tasks Hkeys Hsc Hdefs) as (sc & Hr & Hinv).
  unfold get_tree. rewrite Hr, bind_Ok_l.
  destruct (drop_included e tasks _) as [sd|ex] eqn:Hd.
  - by apply (drop_front_inv e tasks Hiter Hkeys sc Hinv Hdefs) in Hd as [? _].
  - apply drop_included_Raise in Hd as [k ->]. by exists k.
Qed.

Lemma get_tree_two_directories_witness :
  ∃ k, get_tree TwoDirs.world 10 TwoDirs.tasks = Raise (KeyError k).
Proof.
  apply (get_tree_two_directories TwoDirs.world 10 TwoDirs.tasks).
  - by intros s X.
  - by_compute.
  - repeat constructor; by_compute.
  - by_compute.
  - intros Honce. apply Forall_cons in Honce as [Hu _]. simpl in Hu.
    specialize (Hu "z"). vm_compute in Hu.
    assert (2 <= 1)%nat as Hle; [|lia]. apply Hu.
    + reflexivity.
    + intros [?|[? _]]; discriminate.
Defined.


(** X16. The tree that [get_tree] returns has, for every task, what the
    scan of its file gave: the modules defined, in the order of the file,
    the number of lines, which is not negative, and the hash; it has a
    priority and a set of ancestors for it; and it has no entry for
    anything that is no key of the tasks. *)
Theorem get_tree_sources e fuel tasks tree :
  iterates_sets e → NoDup (tasks.*1) → get_tree e fuel tasks = Ok tree →
  (∀ s task, (s, task) ∈ tasks →
     ∃ n d u h, scanned e task = Some (n, d, u, h) ∧
       src_mods tree !! s = Some d ∧ line_nums tree !! s = Some n ∧ 0 ≤ n ∧
       hashes tree !! s = Some h ∧
       is_Some (priority tree !! s) ∧ is_Some (ancestors tree !! s)) ∧
  (∀ s, s ∉ tasks.*1 →
     src_mods tree !! s = None ∧ line_nums tree !! s = None ∧
     hashes tree !! s = None ∧ priority tree !! s = None ∧
     ancestors tree !! s = None).
Proof.
  intros Hiter Hkeys Hr.
  pose proof (get_tree_wf e fuel tasks tree Hiter Hkeys Hr) as Hwf.
  apply get_tree_Ok_stages in Hr
    as (sc & sd & ptree & P & A & Hinv & Hdefs & Hres & Hpt & HP & HA & ->);
    [|done..].
  split.
  - intros s task Hst.
    destruct (scan_done _ _ _ Hinv _ _ Hst) as (n & d & u & h & Hs & ? & ? & ? & ?).
    destruct (wf_sources _ _ Hwf s) as (_ & _ & _ & ? & ?).
    { apply list_elem_of_fmap. by exists (s, task). }
    exists n, d, u, h. simpl in *. pose proof (scanned_count e _ _ _ _ _ Hs). done.
  - intros s Hs. simpl.
    destruct (scan_fresh _ _ _ Hinv s Hs) as (Hm & _ & Hl & Hh).
    split; [done|]. split; [done|]. split; [done|]. split.
    + destruct (P !! s) as [p|] eqn:Hp; [|done].
      apply get_priority_ok in HP as [Hok _].
      destruct (Hok s p Hp) as (_ & ch & Hch & _).
      by rewrite lookup_fmap, Hm in Hch.
    + destruct (A !! s) as [a|] eqn:Ha; [|done].
      apply get_ancestors_ok in HA as [Hok _]; [|intros node X; apply Hiter].
      destruct (Hok s a Ha) as [(ps & Hps & _) _].
      destruct (edge_depends e tasks Hiter Hkeys sc Hinv Hdefs sd Hres ptree Hpt)
        as [Hdom _].
      destruct Hs. apply Hdom. eauto.
Qed.

Lemma get_tree_sources_witness :
  (∀ s task, (s, task) ∈ Example.tasks →
     ∃ n d u h, scanned Example.world task = Some (n, d, u, h) ∧
       src_mods Example.tree !! s = Some d ∧ line_nums Example.tree !! s = Some n ∧
       0 ≤ n ∧ hashes Example.tree !! s = Some h ∧
       is_Some (priority Example.tree !! s) ∧ is_Some (ancestors Example.tree !! s)) ∧
  (∀ s, s ∉ Example.tasks.*1 →
     src_mods Example.tree !! s = None ∧ line_nums Example.tree !! s = None ∧
     hashes Example.tree !! s = None ∧ priority Example.tree !! s = None ∧
     ancestors Example.tree !! s = None).
Proof.
  apply (get_tree_sources Example.world 10 Example.tasks Example.tree).
  - apply example_iterates.
  - apply example_keys.
  - apply example_tree.
Defined.

(** X17. In the tree that [get_tree] returns, [mod_uses[m]] lists the
    sources that keep a use of [m], each once and in the order of the
    tasks: the sources whose file uses [m] without defining it, [m] being
    neither [iso_c_binding], nor [mpi] when no source defines it, nor a
    module whose interface file is in an include directory of the task. *)
Theorem get_tree_mod_uses e fuel tasks tree m :
  iterates_sets e → NoDup (tasks.*1) → get_tree e fuel tasks = Ok tree →
  uses_of (mod_uses tree) m `sublist_of` tasks.*1 ∧
  NoDup (uses_of (mod_uses tree) m) ∧
  ∀ d, d ∈ uses_of (mod_uses tree) m ↔ ∃ task, (d, task) ∈ tasks ∧ kept e tasks task m.
Proof.
  intros Hiter Hkeys Hr.
  apply get_tree_Ok_stages in Hr
    as (sc & sd & ptree & P & A & Hinv & Hdefs & Hres & Hpt & HP & HA & ->);
    [|done..].
  simpl. split; [|split].
  - rewrite (uses_resolved e tasks Hiter). apply sublist_filter.
  - rewrite (uses_resolved e tasks Hiter). by apply NoDup_filter.
  - intros d. by apply (elem_of_uses e tasks Hiter Hkeys sc Hinv Hdefs).
Qed.

Lemma get_tree_mod_uses_witness :
  uses_of (mod_uses Example.tree) "m" = ["b"; "d"; "c"] ∧
  uses_of (mod_uses Example.tree) "m" `sublist_of` Example.tasks.*1 ∧
  NoDup (uses_of (mod_uses Example.tree) "m") ∧
  ∀ d, d ∈ uses_of (mod_uses Example.tree) "m" ↔
       ∃ task, (d, task) ∈ Example.tasks ∧ kept Example.world Example.tasks task "m".
Proof.
  split; [by vm_compute|].
  apply (get_tree_mod_uses Example.world 10 Example.tasks Example.tree "m").
  - apply example_iterates.
  - apply example_keys.
  - apply example_tree.
Defined.

(** X18. In the tree that [get_tree] returns, the ancestors of a source
    are the sources that a chain of dependencies (a kept use of a module
    that the next source defines) leads to from it, and the source is
    not among them. *)
Theorem get_tree_ancestors e fuel tasks tree s a :
  iterates_sets e → NoDup (tasks.*1) → get_tree e fuel tasks = Ok tree →
  ancestors tree !! s = Some a →
  (∀ x, x ∈ a ↔ tc (depends e tasks) s x) ∧ s ∉ a.
Proof.
  intros Hiter Hkeys Hr Ha.
  pose proof (get_tree_depends_path e tasks Hiter Hkeys fuel tree s a Hr Ha) as Hiff.
  split; [done|]. intros Hs%Hiff.
  by apply (get_tree_acyclic e tasks Hiter Hkeys fuel tree s).
Qed.

Lemma get_tree_ancestors_witness :
  ancestors Example.tree !! "d" = Some {[ "c"; "a" ]} ∧
  (∀ x, x ∈ ({[ "c"; "a" ]} : gset string) ↔
        tc (depends Example.world Example.tasks) "d" x) ∧
  "d" ∉ ({[ "c"; "a" ]} : gset string).
Proof.
  split; [by vm_compute|].
  apply (get_tree_ancestors Example.world 10 Example.tasks Example.tree "d").
  - apply example_iterates.
  - apply example_keys.
  - apply example_tree.
  - by vm_compute.
Defined.

(** X19. In the tree that [get_tree] returns, the priority of a source is
    1 plus the priorities of the sources in [mod_uses[m]], summed over
    the modules [m] that the source defines: a source that uses two of
    them counts twice. *)
Theorem get_tree_priority e fuel tasks tree s p :
  iterates_sets e → NoDup (tasks.*1) → get_tree e fuel tasks = Ok tree →
  priority tree !! s = Some p →
  ∃ mods, src_mods tree !! s = Some mods ∧
    lookup_sum (priority tree) (children_of (mod_uses tree) mods) = Some (p - 1).
Proof.
  intros Hiter Hkeys Hr Hp.
  apply get_tree_Ok_stages in Hr
    as (sc & sd & ptree & P & A & Hinv & Hdefs & Hres & Hpt & HP & HA & ->);
    [|done..].
  simpl in *. apply get_priority_ok in HP as [Hok _].
  destruct (Hok s p Hp) as (_ & ch & Hch & Hsum).
  rewrite lookup_fmap in Hch.
  destruct (sc_src_mods sc !! s) as [mods|]; [|done].
  injection Hch as <-. by exists mods.
Qed.

Lemma get_tree_priority_witness :
  priority Example.tree !! "a" = Some 5 ∧
  ∃ mods, src_mods Example.tree !! "a" = Some mods ∧
    lookup_sum (priority Example.tree) (children_of (mod_uses Example.tree) mods)
      = Some (5 - 1).
Proof.
  split; [by vm_compute|].
  apply (get_tree_priority Example.world 10 Example.tasks Example.tree "a" 5).
  - apply example_iterates.
  - apply example_keys.
  - apply example_tree.
  - by vm_compute.
Defined.

Lemma scan_task_unscanned e sc s task :
  scanned e task = None →
  scan_task e sc (s, task) =
    Raise (match open_file e (source task) with
           | None => FileNotFoundError (source task)
           | Some _ => AttributeError
           end).
Proof.
  unfold scanned, scan_task, py_open.
  destruct (open_file e (source task)) as [f|]; simpl; [|done].
  destruct (parse_modules (text_lines f)) as [[[n d] u]|ex] eqn:Hp; [done|].
  intros _. simpl. f_equal. unfold parse_modules in Hp.
  destruct (parse_lines (0, [], ∅) (text_lines f)) as [[[n d] u]|ex'] eqn:Hl; [done|].
  injection Hp as <-. by apply parse_lines_Raise in Hl as [-> _].
Qed.

(** X20. The first task, in the order of the tasks, whose file does not
    open or does not parse decides how [get_tree] ends when the tasks
    before it define no module twice: [FileNotFoundError] for the path of
    the task when there is no such file, [AttributeError] when the parser
    raises. *)
Theorem get_tree_first_failure e fuel pre s task post :
  NoDup ((pre ++ (s, task) :: post).*1) →
  Forall (λ st, is_Some (scanned e st.2)) pre → NoDup (all_defs e pre) →
  scanned e task = None →
  get_tree e fuel (pre ++ (s, task) :: post) =
    Raise (match open_file e (source task) with
           | None => FileNotFoundError (source task)
           | Some _ => AttributeError
           end).
Proof.
  intros Hkeys Hsc Hdefs Hno.
  assert (NoDup (pre.*1)) as Hpre.
  { rewrite fmap_app in Hkeys. by apply NoDup_app in Hkeys as [? _]. }
  destruct (scan_front e pre Hpre Hsc Hdefs) as (sc & Hr & _).
  unfold get_tree. rewrite scan_tasks_app, Hr, bind_Ok_l.
  change (scan_tasks e sc ((s, task) :: post))
    with (scan_task e sc (s, task) ≫= λ sc', scan_tasks e sc' post).
  by rewrite (scan_task_unscanned e sc s task Hno).
Qed.

Lemma get_tree_first_failure_witness :
  get_tree Example.world 10
      (Example.two_tasks ++ ("x", Example.task "x.f90") :: [("c", Example.task "c.f90")])
    = Raise (FileNotFoundError "x.f90").
Proof.
  apply (get_tree_first_failure Example.world 10 Example.two_tasks "x"
           (Example.task "x.f90") [("c", Example.task "c.f90")]).
  - by_compute.
  - repeat constructor; by_compute.
  - by_compute.
  - by vm_compute.
Defined.


(** ** Scheduler, once more *)

Section moving.

Variables (e : env) (tasks : list (string * Task)) (tree : TaskTree) (njobs : nat).

Hypothesis Hwf : tree_wf tasks tree.

Implicit Types (c : config) (s : sched).

Lemma result_scheduled c src retcode rest :
  ctl c = AtAwait → ctl_inv tree c → result_queue c = (src, retcode) :: rest →
  src ∈ scheduled (st c).
Proof.
  unfold ctl_inv. intros -> [_ _ _ H4] Hq. apply H4. unfold in_flight.
  rewrite Hq, !elem_of_app. right. right. by left.
Qed.

(** Every step of the scheduler or of a worker is one of the moves. *)
Lemma step_moves ev c c' :
  ctl_inv tree c → step e tasks tree njobs ev c = Some c' →
  moves e tree (st c) (st c').
Proof.
  intros Hinv. destruct ev as [mod_bytes order| |i retcode]; simpl.
  - unfold sched_step. destruct (ctl c) as [|blocking todo| |src mods| |ex|ex] eqn:Hctl.
    + case_decide; [|done]. intros [= <-]. constructor.
    + destruct todo as [|src todo].
      { repeat case_decide; intros [= <-]; constructor. }
      unfold ctl_inv in Hinv. rewrite Hctl in Hinv.
      destruct Hinv as (_ & _ & _ & Htodo).
      assert (src ∈ waiting (st c)) as Hw by (apply Htodo; by left).
      unfold dispatch.
      destruct (ancestors tree !! src) as [anc|]; [|intros [= <-]; constructor].
      destruct (decide (_ ∩ anc = ∅)); [|intros [= <-]; constructor].
      destruct (priority tree !! src) as [p|];
        [|intros [= <-]; simpl; by apply mv_mark].
      destruct (task_of tasks src) as [t|ex] eqn:Ht;
        [|intros [= <-]; simpl; by apply mv_mark].
      simpl. rewrite decide_True by done. intros [= <-]. simpl.
      by apply (mv_dispatch _ _ _ src).
    + destruct (result_queue c) as [|[src retcode] rest] eqn:Hq; [done|].
      pose proof (result_scheduled c src retcode rest Hctl Hinv Hq) as Hsrc.
      simpl. unfold complete.
      destruct (decide (retcode ≠ 0)) as [Hrc|Hrc]; [intros [= <-]; constructor|].
      destruct (line_nums tree !! src) as [ln|] eqn:Hn; [|intros [= <-]; constructor].
      destruct (hashes tree !! src) as [h|] eqn:Hh; [|intros [= <-]; constructor].
      simpl. rewrite decide_True by done.
      destruct (getitem (src_mods tree) src); intros [= <-]; simpl;
        by apply (mv_complete _ _ _ src ln h).
    + destruct mods as [|m mods]; [intros [= <-]; constructor|].
      intros [= <-].
      pose proof (λ d, uses_not_scheduled _ _ Hwf _ _ _ _ d Hctl Hinv) as Huses.
      unfold ctl_inv in Hinv. rewrite Hctl in Hinv.
      destruct Hinv as (_ & _ & all & Hall & Hsub).
      unfold propagate. destruct mod_bytes as [bytes|]; [|constructor].
      destruct (hash_differs _ _); [|constructor].
      assert (∀ d, d ∈ uses_of (mod_uses tree) m →
                d ∉ scheduled (st c) ∧ is_Some (line_nums tree !! d)) as Hd.
      { intros d Hd. split; [by apply Huses|]. by apply (wf_uses_lines _ _ Hwf m). }
      destruct (notify_Ok tree (uses_of (mod_uses tree) m)
                  (with_hashes (insert (m +:+ ".mod")
                     (JString (sha1_hexdigest e bytes))) (st c)))
        as (s' & -> & Hs & Hl & Hw & Hn & Hk);
        [by apply (wf_uses_nodup _ _ Hwf)|done|].
      simpl. apply (mv_propagate _ _ _ src all m bytes); try done.
      * apply Hsub. by left.
      * by apply (wf_uses_nodup _ _ Hwf).
    + intros [= <-]. constructor.
    + intros [= <-]. constructor.
    + done.
  - unfold worker_take. destruct (ctl c); try done. case_decide; [|done].
    destruct (pop_min (task_queue c)) as [[[[p name] a] q]|]; [|done].
    intros [= <-]. constructor.
  - unfold worker_done. destruct (ctl c); try done.
    destruct (running c !! i); [|done]. intros [= <-]. constructor.
Qed.

End moving.


Section lines.

Variable tree : TaskTree.

Implicit Types (X : gset string) (l : list string).

Lemma sum_perm (l1 l2 : list Z) :
  l1 ≡ₚ l2 → foldr Z.add 0 l1 = foldr Z.add 0 l2.
Proof. induction 1; simpl; lia. Qed.

Lemma total_lines_empty : total_lines tree ∅ = 0.
Proof. unfold total_lines. by rewrite elements_empty. Qed.

Lemma total_lines_insert X x :
  x ∉ X → total_lines tree ({[x]} ∪ X) = lines_of tree x + total_lines tree X.
Proof.
  intros Hx. unfold total_lines.
  rewrite (sum_perm _ (lines_of tree <$> x :: elements X)); [done|].
  by rewrite elements_union_singleton.
Qed.

Lemma total_lines_delete X x :
  x ∈ X → total_lines tree X = lines_of tree x + total_lines tree (X ∖ {[x]}).
Proof.
  intros Hx. rewrite (union_difference_singleton_L x X Hx) at 1.
  apply total_lines_insert. set_solver.
Qed.

Lemma total_lines_union_list X : ∀ l,
  NoDup l →
  total_lines tree (X ∪ list_to_set l) =
    total_lines tree X + foldr Z.add 0 (lines_of tree <$> filter (λ d, d ∉ X) l).
Proof.
  induction l as [|d l IH]; intros Hnd.
  { simpl. rewrite union_empty_r_L. lia. }
  apply NoDup_cons in Hnd as [Hd Hnd]. rewrite filter_cons.
  change (list_to_set (d :: l)) with ({[d]} ∪ list_to_set l : gset string).
  destruct (decide (d ∉ X)) as [Hout|Hin].
  - replace (X ∪ ({[d]} ∪ list_to_set l)) with ({[d]} ∪ (X ∪ list_to_set l))
      by set_solver.
    rewrite total_lines_insert by set_solver. rewrite IH by done.
    rewrite fmap_cons. cbn [foldr]. lia.
  - replace (X ∪ ({[d]} ∪ list_to_set l)) with (X ∪ list_to_set l).
    + by apply IH.
    + apply dec_stable in Hin. set_solver.
Qed.

Lemma sum_lines_total : ∀ l n,
  NoDup l → sum_lines tree l = Ok n → total_lines tree (list_to_set l) = n.
Proof.
  induction l as [|x l IH]; intros n Hnd; simpl.
  { intros [= <-]. apply total_lines_empty. }
  apply NoDup_cons in Hnd as [Hx Hnd].
  rewrite total_lines_insert by set_solver.
  unfold getitem, lines_of. destruct (line_nums tree !! x) as [k|]; [|done].
  simpl. destruct (sum_lines tree l) as [m|]; [|done]. simpl. intros [= <-].
  by rewrite (IH m Hnd eq_refl).
Qed.

End lines.

Section kept_by_moves.

Variables (e : env) (tasks : list (string * Task)) (tree : TaskTree).

Implicit Types (s : sched).

Lemma tally_moves s s' : tally tree s → moves e tree s s' → tally tree s'.
Proof.
  intros [Hdisj Hsum] Hm.
  destruct Hm as [|src Hw|src s' Hw Hh Hw' Hs' Hn Ha
                  |src n h s' Hsrc Hln Hhash Hh Hw' Hs' Hn Ha
                  |src all m bytes s' Hall Hm Hnd Hd Hs' Hn Hw' Ha Hk];
    unfold tally; simpl.
  - done.
  - done.
  - rewrite Hw', Hs', Hn, Ha. split; [set_solver|].
    by rewrite <- (union_move _ _ _ Hw).
  - rewrite Hw', Hs', Hn, Ha. split; [set_solver|].
    assert (src ∉ waiting s) by set_solver.
    replace (waiting s ∪ scheduled s ∖ {[src]})
      with ((waiting s ∪ scheduled s) ∖ {[src]}) by set_solver.
    rewrite (total_lines_delete tree (waiting s ∪ scheduled s) src) in Hsum
      by set_solver.
    unfold lines_of in Hsum. rewrite Hln in Hsum. simpl in Hsum. lia.
  - rewrite Hw', Hs', Hn, Ha. split.
    { intros x [Hx|Hx%elem_of_list_to_set]%elem_of_union Hx'.
      - by apply (Hdisj x).
      - by destruct (Hd x Hx). }
    replace (waiting s ∪ list_to_set (uses_of (mod_uses tree) m) ∪ scheduled s)
      with ((waiting s ∪ scheduled s) ∪ list_to_set (uses_of (mod_uses tree) m))
      by set_solver.
    rewrite total_lines_union_list by done. unfold new_lines.
    rewrite (filter_ext_elem (λ d, d ∉ waiting s ∪ scheduled s) (λ d, d ∉ waiting s)).
    + unfold lines_of. lia.
    + intros x Hx. destruct (Hd x Hx). set_solver.
Qed.

Lemma counted_moves s s' : counted tree s → moves e tree s s' → counted tree s'.
Proof.
  intros Hc Hm.
  destruct Hm as [|src Hw|src s' Hw Hh Hw' Hs' Hn Ha
                  |src n h s' Hsrc Hln Hhash Hh Hw' Hs' Hn Ha
                  |src all m bytes s' Hall Hm Hnd Hd Hs' Hn Hw' Ha Hk];
    unfold counted in *; simpl.
  - done.
  - done.
  - rewrite Hw', Hs'. intros x Hx. apply Hc. rewrite (union_move _ _ _ Hw). done.
  - rewrite Hw', Hs'. intros x Hx. apply Hc. set_solver.
  - rewrite Hw', Hs'.
    intros x [[Hx|Hx%elem_of_list_to_set]%elem_of_union|Hx]%elem_of_union.
    + apply Hc. set_solver.
    + by destruct (Hd x Hx).
    + apply Hc. set_solver.
Qed.

Lemma fresh_moves s s' :
  no_clash tasks tree → waiting s ## scheduled s →
  fresh tasks tree s → moves e tree s s' → fresh tasks tree s'.
Proof.
  intros Hclash Hdisj Hf Hm.
  destruct Hm as [|src Hw|src s' Hw Hh Hw' Hs' Hn Ha
                  |src n h s' Hsrc Hln Hhash Hh Hw' Hs' Hn Ha
                  |src all m bytes s' Hall Hm Hnd Hd Hs' Hn Hw' Ha Hk];
    unfold fresh; simpl; [done|..]; intros x hx Hx Hhx;
    specialize (Hf x hx Hx Hhx).
  - rewrite lookup_delete. case_decide as Heq; [|done]. subst x. split; [done|tauto].
  - rewrite Hh, Hw', Hs', lookup_delete. case_decide as Heq.
    + subst x. split; [done|]. set_solver.
    + rewrite Hf. set_solver.
  - rewrite Hh, Hw', Hs', lookup_insert. case_decide as Heq.
    + subst x. simplify_eq. split; [|done]. intros _. set_solver.
    + rewrite Hf. set_solver.
  - rewrite Hk, Hw', Hs'. case_decide as Hu.
    + split; [done|]. intros [Hnot _]. destruct Hnot. set_solver.
    + rewrite lookup_insert_ne.
      * rewrite Hf. set_solver.
      * intros <-. pose proof (map_Forall_lookup_1 _ _ _ _ Hclash Hall) as Hno.
        rewrite Forall_forall in Hno. by apply (Hno m).
Qed.

End kept_by_moves.


Section reaching.

Variables (e : env) (tasks : list (string * Task)) (tree : TaskTree) (njobs : nat).

Hypothesis Hwf : tree_wf tasks tree.

Implicit Types (c : config) (s : sched).

Lemma reachable_keeps (I : sched → Prop) c0 c :
  (∀ s s', I s → moves e tree s s' → I s') →
  ctl_inv tree c0 → I (st c0) →
  reachable e tasks tree njobs c0 c → ctl_inv tree c ∧ I (st c).
Proof.
  intros Hkeep H0 HI. induction 1 as [|c ev c' _ [IH1 IH2] Hstep]; [done|].
  split; [by eapply ctl_inv_step|].
  eapply Hkeep; [done|]. by eapply step_moves.
Qed.

Lemma tally_init live changed_files :
  NoDup changed_files → tally tree (st (scheduler_init tree live changed_files)).
Proof.
  intros Hnd. unfold scheduler_init, tally.
  destruct (sum_lines tree changed_files) as [n|ex] eqn:Hsum; simpl.
  - split; [set_solver|]. rewrite union_empty_r_L.
    rewrite (sum_lines_total tree _ _ Hnd Hsum). lia.
  - split; [set_solver|]. rewrite union_empty_r_L, total_lines_empty. lia.
Qed.

Lemma reachable_tally live changed_files c :
  NoDup changed_files →
  reachable e tasks tree njobs (scheduler_init tree live changed_files) c →
  ctl_inv tree c ∧ tally tree (st c).
Proof.
  intros Hnd. apply (reachable_keeps (tally tree)).
  - apply tally_moves.
  - by apply (ctl_inv_init tasks).
  - by apply tally_init.
Qed.

Lemma finished_step ev c c' :
  ctl_inv tree c → finished c → step e tasks tree njobs ev c = Some c' → finished c'.
Proof.
  intros Hinv Hf. destruct ev as [mod_bytes order| |i retcode]; simpl.
  - unfold sched_step. destruct (ctl c) as [|blocking todo| |src mods| |ex|ex] eqn:Hctl.
    + case_decide; [|done]. by intros [= <-].
    + destruct todo as [|src todo].
      * unfold ctl_inv in Hinv. rewrite Hctl in Hinv.
        destruct Hinv as ([_ _ _ Hflight] & -> & _).
        repeat case_decide; intros [= <-]; unfold finished; simpl; [done| |done].
        assert (in_flight c = []) as Hnil.
        { destruct (in_flight c) as [|x l] eqn:Hl; [done|].
          assert (x ∈ scheduled (st c)) by (apply Hflight; by left). set_solver. }
        unfold in_flight in Hnil.
        apply app_eq_nil in Hnil as [Hq [Hr Hres]%app_eq_nil].
        apply fmap_nil_inv in Hq. apply fmap_nil_inv in Hres.
        split; [set_solver|]. split; [set_solver|]. done.
      * by destruct (dispatch tasks tree blocking src c) as [c1 [ex|]]; intros [= <-].
    + destruct (result_queue c) as [|[src retcode] rest]; [done|]. simpl.
      by destruct (complete tree src retcode (st c)) as [s [mods|ex]]; intros [= <-].
    + destruct mods as [|m mods]; intros [= <-]; [done|].
      by destruct (propagate e tree m mod_bytes (st c)) as [s [ex|]].
    + intros [= <-]. unfold finished in *. by rewrite Hctl in Hf.
    + by intros [= <-].
    + done.
  - unfold worker_take. destruct (ctl c); try done. case_decide; [|done].
    destruct (pop_min (task_queue c)) as [[[[p name] a] q]|]; [|done].
    by intros [= <-].
  - unfold worker_done. destruct (ctl c); try done.
    destruct (running c !! i); [|done]. by intros [= <-].
Qed.

Lemma finished_init live changed_files :
  finished (scheduler_init tree live changed_files).
Proof. unfold scheduler_init. by destruct (sum_lines tree changed_files). Qed.

Lemma reachable_finished live changed_files c :
  reachable e tasks tree njobs (scheduler_init tree live changed_files) c →
  finished c.
Proof.
  intros Hr. assert (ctl_inv tree c ∧ finished c) as [_ ?]; [|done].
  induction Hr as [|c ev c' _ [IH1 IH2] Hstep].
  - split; [by apply (ctl_inv_init tasks)|apply finished_init].
  - split; [by eapply ctl_inv_step|by eapply finished_step].
Qed.

End reaching.

(** X21. The counters of the progress line add up, in every
    configuration that the scheduler and the workers reach on a tree of
    the graph builder, from changed files listed once: no source is both
    waiting and scheduled, and [n_all_lines - n_lines] is the number of
    lines of the sources waiting or scheduled. When the scheduler has
    returned, nothing is waiting, scheduled, queued, running or reported,
    and [n_lines = n_all_lines]. *)
Theorem scheduler_tally e fuel tasks tree njobs live changed_files c :
  iterates_sets e → NoDup (tasks.*1) → get_tree e fuel tasks = Ok tree →
  NoDup changed_files →
  reachable e tasks tree njobs (scheduler_init tree live changed_files) c →
  waiting (st c) ## scheduled (st c) ∧
  n_all_lines (st c)
    = n_lines (st c) + total_lines tree (waiting (st c) ∪ scheduled (st c)) ∧
  (ctl c = Returned ∨ ctl c = Exited None →
   waiting (st c) = ∅ ∧ scheduled (st c) = ∅ ∧ n_lines (st c) = n_all_lines (st c) ∧
   task_queue c = [] ∧ running c = [] ∧ result_queue c = []).
Proof.
  intros Hiter Hkeys Htree Hnd Hreach.
  pose proof (get_tree_wf _ _ _ _ Hiter Hkeys Htree) as Hwf.
  destruct (reachable_tally e tasks tree njobs Hwf _ _ _ Hnd Hreach) as [_ [Hdisj Hsum]].
  pose proof (reachable_finished e tasks tree njobs Hwf _ _ _ Hreach) as Hfin.
  split; [done|]. split; [done|]. intros Hctl. unfold finished in Hfin.
  assert (waiting (st c) = ∅ ∧ scheduled (st c) = ∅ ∧
          task_queue c = [] ∧ running c = [] ∧ result_queue c = [])
    as (Hw & Hs & ? & ? & ?) by (by destruct Hctl as [Hc|Hc]; rewrite Hc in Hfin).
  rewrite Hw, Hs, union_empty_r_L, total_lines_empty in Hsum.
  repeat split; try done; lia.
Qed.

Lemma scheduler_tally_witness :
  ctl (Example.after Run.to_return) = Returned ∧
  n_lines (st (Example.after Run.to_return)) = 12 ∧
  waiting (st (Example.after Run.to_return)) ## scheduled (st (Example.after Run.to_return)) ∧
  n_all_lines (st (Example.after Run.to_return))
    = n_lines (st (Example.after Run.to_return))
      + total_lines Example.tree (waiting (st (Example.after Run.to_return))
                                  ∪ scheduled (st (Example.after Run.to_return))) ∧
  (ctl (Example.after Run.to_return) = Returned
   ∨ ctl (Example.after Run.to_return) = Exited None →
   waiting (st (Example.after Run.to_return)) = ∅ ∧
   scheduled (st (Example.after Run.to_return)) = ∅ ∧
   n_lines (st (Example.after Run.to_return))
     = n_all_lines (st (Example.after Run.to_return)) ∧
   task_queue (Example.after Run.to_return) = [] ∧
   running (Example.after Run.to_return) = [] ∧
   result_queue (Example.after Run.to_return) = []).
Proof.
  split; [by vm_compute|]. split; [by vm_compute|].
  apply (scheduler_tally Example.world 10 Example.tasks Example.tree 2
           (dict_of Example.prior_hashes) ["a"]).
  - apply example_iterates.
  - apply example_keys.
  - apply example_tree.
  - by_compute.
  - apply example_reachable. by_compute.
Defined.


Lemma build_runs_changed e fuel cache tasks dry tree c0 :
  build e fuel cache tasks dry = BuildRuns tree c0 →
  get_tree e fuel tasks = Ok tree ∧ dry = false ∧
  ∃ prior changed_files,
    changed tree prior tasks = Ok changed_files ∧ changed_files ≠ [] ∧
    c0 = scheduler_init tree prior changed_files.
Proof.
  unfold build. destruct (get_tree e fuel tasks) as [t|]; [|done].
  destruct (load_cache cache) as [loaded|]; [|done].
  destruct tasks as [|st tasks']; [done|].
  destruct (as_dict loaded) as [prior|]; [|done]. rewrite bind_Ok_l.
  destruct (changed t prior (st :: tasks')) as [[|s l]|] eqn:Hch; simpl; [done| |done].
  destruct dry; [done|]. intros [= <- <-]. split; [done|]. split; [done|].
  by exists prior, (s :: l).
Qed.

Lemma changed_sublist tree prior : ∀ tasks l,
  changed tree prior tasks = Ok l → l `sublist_of` tasks.*1.
Proof.
  induction tasks as [|[src t] tasks IH]; intros l; simpl.
  { intros [= <-]. constructor. }
  destruct (getitem (hashes tree) src); simpl; [|done].
  destruct (changed tree prior tasks) as [rest|]; simpl; [|done].
  intros [= <-]. destruct (hash_differs _ _).
  - apply sublist_skip. by apply IH.
  - apply sublist_cons. by apply IH.
Qed.

Lemma sum_lines_returns tree : ∀ l,
  (∀ x, x ∈ l → is_Some (line_nums tree !! x)) → ∃ n, sum_lines tree l = Ok n.
Proof.
  induction l as [|x l IH]; intros Hall; simpl; [eauto|].
  destruct (Hall x) as [k Hk]; [by left|]. unfold getitem. rewrite Hk. simpl.
  destruct IH as [n ->]; [intros y Hy; apply Hall; by right|]. simpl. eauto.
Qed.

Section pending.

Variables (e : env) (tasks : list (string * Task)) (tree : TaskTree) (njobs : nat).

Hypothesis Hkeys : NoDup (tasks.*1).
Hypothesis Hwf : tree_wf tasks tree.
Hypothesis Hclash : no_clash tasks tree.

Variables (prior : gmap string json) (changed_files : list string).

Hypothesis Hchanged : changed tree prior tasks = Ok changed_files.

Lemma changed_iff s :
  s ∈ changed_files ↔ s ∈ tasks.*1 ∧ JString <$> hashes tree !! s ≠ prior !! s.
Proof.
  destruct (changed_Ok tree prior tasks) as (l & Hl & Hiff).
  { intros x Hx. by destruct (wf_sources _ _ Hwf x Hx) as (_ & ? & _). }
  rewrite Hchanged in Hl. injection Hl as <-. apply Hiff.
Qed.

Lemma changed_nodup : NoDup changed_files.
Proof.
  exact (sublist_NoDup _ _ Hkeys (changed_sublist _ _ _ _ Hchanged)).
Qed.

Lemma changed_counted : ∃ n, sum_lines tree changed_files = Ok n.
Proof.
  apply sum_lines_returns. intros x [Hx _]%changed_iff.
  by destruct (wf_sources _ _ Hwf x Hx) as (_ & _ & ? & _).
Qed.

Lemma fresh_init : fresh tasks tree (st (scheduler_init tree prior changed_files)).
Proof.
  unfold scheduler_init. destruct changed_counted as [n ->]. simpl.
  intros x h Hx Hh. simpl. rewrite elem_of_list_to_set, changed_iff, Hh. simpl.
  split.
  - intros Heq. split; [|set_solver]. intros [_ Hne]. by rewrite Heq in Hne.
  - intros [Hno _]. destruct (hash_differs h (prior !! x)) eqn:Hd.
    + apply hash_differs_true in Hd. destruct Hno. by split.
    + by apply hash_differs_false in Hd.
Qed.

Lemma reachable_fresh c :
  reachable e tasks tree njobs (scheduler_init tree prior changed_files) c →
  ctl_inv tree c ∧ tally tree (st c) ∧ fresh tasks tree (st c).
Proof.
  apply (reachable_keeps e tasks tree njobs Hwf
           (λ s, tally tree s ∧ fresh tasks tree s)).
  - intros s s' [Ht Hf] Hm. split; [by apply (tally_moves e tree s s')|].
    destruct Ht as [Hdisj _]. exact (fresh_moves e tasks tree s s' Hclash Hdisj Hf Hm).
  - by apply (ctl_inv_init tasks).
  - split; [apply (tally_init tasks tree Hwf), changed_nodup|apply fresh_init].
Qed.

End pending.

(** X22. While [build] runs, when no source of the tasks has the name of
    the interface file of a module, the live hashes tell what is left to
    do: a source has its current hash there exactly when it is neither
    waiting nor scheduled. *)
Theorem hashes_tell_pending e fuel cache tasks dry njobs tree c0 c s h :
  iterates_sets e → NoDup (tasks.*1) →
  build e fuel cache tasks dry = BuildRuns tree c0 → no_clash tasks tree →
  reachable e tasks tree njobs c0 c →
  s ∈ tasks.*1 → hashes tree !! s = Some h →
  s_hashes (st c) !! s = Some (JString h) ↔
  s ∉ waiting (st c) ∧ s ∉ scheduled (st c).
Proof.
  intros Hiter Hkeys (Htree & _ & prior & l & Hl & _ & ->)%build_runs_changed
    Hclash Hreach Hs Hh.
  pose proof (get_tree_wf _ _ _ _ Hiter Hkeys Htree) as Hwf.
  destruct (reachable_fresh e tasks tree njobs Hkeys Hwf Hclash prior l Hl c Hreach)
    as (_ & _ & Hfresh).
  by apply Hfresh.
Qed.

Lemma hashes_tell_pending_witness :
  scheduled (st (Example.after Example.to_exit)) = {[ "b"; "c" ]} ∧
  waiting (st (Example.after Example.to_exit)) = {[ "d" ]} ∧
  (s_hashes (st (Example.after Example.to_exit)) !! "a"
     = Some (JString ("gfortran,-c" +:+ Example.bytes "a.f90")) ↔
   ("a" ∉ waiting (st (Example.after Example.to_exit))) ∧
   ("a" ∉ scheduled (st (Example.after Example.to_exit)))).
Proof.
  split; [by vm_compute|]. split; [by vm_compute|].
  apply (hashes_tell_pending Example.world 10 Example.cache Example.tasks false 2
           Example.tree Example.start (Example.after Example.to_exit) "a").
  - apply example_iterates.
  - apply example_keys.
  - apply example_build.
  - by_compute.
  - apply example_reachable. by_compute.
  - by_compute.
  - by vm_compute.
Defined.

Lemma load_cache_hashes v :
  load_cache (Document (JObject [("hashes", v)])) = Ok v.
Proof.
  unfold load_cache, dict_of. simpl. by rewrite lookup_insert_eq.
Qed.

(** X23. When [build] has exited and no source of the tasks has the name
    of the interface file of a module, the cache file tells the next build
    where to resume: with the same files and arguments, and the cache
    file read back as it was written, the changed files of the next
    build are the sources that were waiting or scheduled at the exit.
    After a build that succeeded there is none, and the next build
    returns at once. *)
Theorem next_build_resumes e fuel cache tasks dry njobs tree c0 c ex fields :
  iterates_sets e → NoDup (tasks.*1) →
  build e fuel cache tasks dry = BuildRuns tree c0 → no_clash tasks tree →
  reachable e tasks tree njobs c0 c →
  ctl c = Exited ex → cachefile c = Some (dict_of fields) →
  ∃ l,
    (∀ s, s ∈ l ↔ s ∈ tasks.*1 ∧ (s ∈ waiting (st c) ∨ s ∈ scheduled (st c))) ∧
    build e fuel (Document (JObject [("hashes", JObject fields)])) tasks false =
      match l with
      | [] => BuildReturned 0
      | _ => BuildRuns tree (scheduler_init tree (dict_of fields) l)
      end ∧
    (ex = None → l = []).
Proof.
  intros Hiter Hkeys Hbuild Hclash Hreach Hctl Hfile.
  pose proof Hbuild as (Htree & _ & prior & l0 & Hl0 & _ & ->)%build_runs_changed.
  pose proof (get_tree_wf _ _ _ _ Hiter Hkeys Htree) as Hwf.
  destruct (reachable_fresh e tasks tree njobs Hkeys Hwf Hclash prior l0 Hl0 c Hreach)
    as (_ & _ & Hfresh).
  pose proof (reachable_exited_inv e tasks tree njobs _ _ (exited_inv_init tree _ _) Hreach)
    as Hexit.
  unfold exited_inv in Hexit. rewrite Hctl, Hfile in Hexit. injection Hexit as Heq.
  destruct (changed_Ok tree (dict_of fields) tasks) as (l & Hl & Hiff).
  { intros x Hx. by destruct (wf_sources _ _ Hwf x Hx) as (_ & ? & _). }
  exists l. split; [|split].
  - intros s. rewrite Hiff. split.
    + intros [Hs Hne]. split; [done|].
      destruct (wf_sources _ _ Hwf s Hs) as (_ & [h Hh] & _).
      destruct (decide (s ∈ waiting (st c))) as [|Hw]; [by left|].
      destruct (decide (s ∈ scheduled (st c))) as [|Hsch]; [by right|].
      destruct Hne. rewrite Hh, Heq. simpl. symmetry. by apply Hfresh.
    + intros [Hs Hpend]. split; [done|].
      destruct (wf_sources _ _ Hwf s Hs) as (_ & [h Hh] & _).
      rewrite Hh, Heq. simpl. intros Hsame. symmetry in Hsame.
      apply (Hfresh s h Hs Hh) in Hsame. tauto.
  - unfold build. rewrite Htree, load_cache_hashes.
    destruct tasks as [|st0 tasks'].
    { simpl in Hl. by injection Hl as <-. }
    unfold as_dict. rewrite bind_Ok_l, Hl. simpl. by destruct l.
  - intros ->.
    pose proof (reachable_finished e tasks tree njobs Hwf _ _ _ Hreach) as Hfin.
    unfold finished in Hfin. rewrite Hctl in Hfin. destruct Hfin as (Hw & Hs & _).
    destruct l as [|s l]; [done|].
    assert (s ∈ s :: l) as Hin by by left.
    apply Hiff in Hin as [Hin Hne].
    destruct (wf_sources _ _ Hwf s Hin) as (_ & [h Hh] & _).
    destruct Hne. rewrite Hh, Heq. simpl. symmetry. apply (Hfresh s h Hin Hh).
    rewrite Hw, Hs. set_solver.
Qed.

Lemma next_build_resumes_witness :
  ctl (Example.after Run.to_exit) = Exited None ∧
  build Example.world 10
    (Document (JObject [("hashes", JObject (Run.written Run.to_exit))]))
    Example.tasks false = BuildReturned 0.
Proof.
  split; [by vm_compute|].
  destruct (next_build_resumes Example.world 10 Example.cache Example.tasks false 2
              Example.tree Example.start (Example.after Run.to_exit) None
              (Run.written Run.to_exit))
    as (l & _ & Hbuild & Hnil).
  - apply example_iterates.
  - apply example_keys.
  - apply example_build.
  - by_compute.
  - apply example_reachable. by_compute.
  - by vm_compute.
  - by vm_compute.
  - by rewrite (Hnil eq_refl) in Hbuild.
Defined.



Section progress.

Variables (e : env) (tasks : list (string * Task)) (tree : TaskTree) (njobs : nat).

Hypothesis Hwf : tree_wf tasks tree.

Implicit Types (c : config) (s : sched).





End progress.





Lemma task_of_returns tasks src : src ∈ tasks.*1 → ∃ t, task_of tasks src = Ok t.
Proof.
  intros ([s t] & -> & Hin)%list_elem_of_fmap. unfold task_of.
  destruct (list_find _ tasks) as [[i [s' t']]|] eqn:Hfind; [eauto|].
  apply list_find_None in Hfind. rewrite Forall_forall in Hfind.
  by destruct (Hfind _ Hin).
Qed.

Lemma total_lines_zero tree X :
  (∀ x, x ∈ X → line_nums tree !! x = Some 0) → total_lines tree X = 0.
Proof.
  intros Hall. unfold total_lines.
  assert (Forall (λ x, lines_of tree x = 0) (elements X)) as Hzero.
  { apply Forall_forall. intros x Hx%elem_of_elements. unfold lines_of.
    by rewrite (Hall x Hx). }
  induction Hzero as [|x l Hx _ IH]; [done|].
  rewrite fmap_cons. cbn [foldr]. lia.
Qed.

Section stalling.

Variables (e : env) (tasks : list (string * Task)) (tree : TaskTree) (njobs : nat).

Hypothesis Hwf : tree_wf tasks tree.

Lemma stalled_step ev c c' :
  ctl_inv tree c → stalled tasks c →
  step e tasks tree njobs ev c = Some c' → stalled tasks c'.
Proof.
  intros Hinv (Hzero & Hkeys & Hctl).
  destruct ev as [mod_bytes order| |i retcode]; simpl.
  - unfold sched_step.
    destruct (ctl c) as [|blocking todo| |src mods| |ex|ex] eqn:Hc; try done.
    + case_decide; [|done]. by intros [= <-].
    + destruct todo as [|src todo].
      { rewrite decide_True by done. by intros [= <-]. }
      unfold ctl_inv in Hinv. rewrite Hc in Hinv.
      destruct Hinv as (_ & _ & _ & Htodo).
      assert (src ∈ waiting (st c)) as Hw by (apply Htodo; by left).
      pose proof (Hkeys src Hw) as Hsrc.
      destruct (wf_sources _ _ Hwf src Hsrc) as (_ & _ & _ & [p Hp] & [anc Hanc]).
      destruct (task_of_returns tasks src Hsrc) as [t Ht].
      unfold dispatch. rewrite Hanc.
      destruct (decide (blocking ∩ anc = ∅)); [|by intros [= <-]].
      rewrite Hp, Ht. simpl. rewrite decide_True by done.
      intros [= <-]. unfold stalled. simpl. repeat split; try done.
      intros x [Hx _]%elem_of_difference. by apply Hkeys.
    + subst ex. by intros [= <-].
  - unfold worker_take. by destruct (ctl c).
  - unfold worker_done. by destruct (ctl c).
Qed.

Lemma reachable_stalled c0 c :
  ctl_inv tree c0 → stalled tasks c0 →
  reachable e tasks tree njobs c0 c → ctl_inv tree c ∧ stalled tasks c.
Proof.
  intros H0 Hs. induction 1 as [|c ev c' _ [IH1 IH2] Hstep]; [done|].
  split; [by eapply ctl_inv_step|by eapply stalled_step].
Qed.

End stalling.

(** X25. When the changed files have no line at all, the scheduler
    fails at its first progress line (the lines compiled over the lines
    to compile): it does not reach the [await] of a result, so it
    handles none, it does not return, the one exception it raises is
    [ZeroDivisionError], and [build] does not end well. *)
Theorem empty_files_fail e fuel cache tasks dry njobs tree c0 c :
  iterates_sets e → NoDup (tasks.*1) →
  build e fuel cache tasks dry = BuildRuns tree c0 →
  (∀ s, s ∈ waiting (st c0) → line_nums tree !! s = Some 0) →
  reachable e tasks tree njobs c0 c →
  ctl c ≠ AtAwait ∧ (∀ src mods, ctl c ≠ AtModules src mods) ∧
  ctl c ≠ Returned ∧ ctl c ≠ Exited None ∧
  ∀ ex, ctl c = Raised ex → ex = ZeroDivisionError.
Proof.
  intros Hiter Hkeys (Htree & _ & prior & l & Hl & _ & ->)%build_runs_changed
    Hempty Hreach.
  pose proof (get_tree_wf _ _ _ _ Hiter Hkeys Htree) as Hwf.
  destruct (reachable_stalled e tasks tree njobs Hwf (scheduler_init tree prior l) c)
    as (_ & _ & _ & Hctl); try done.
  - by apply (ctl_inv_init tasks).
  - pose proof (changed_nodup tasks tree Hkeys prior l Hl) as Hnd.
    destruct (changed_counted tasks tree Hwf prior l Hl) as [n Hn].
    pose proof (sum_lines_total tree l n Hnd Hn) as Htotal.
    revert Hempty. unfold stalled, scheduler_init. rewrite Hn. simpl.
    intros Hempty. rewrite (total_lines_zero tree _ Hempty) in Htotal.
    repeat split; try done.
    intros x Hx%elem_of_list_to_set.
    exact (elem_of_sublist _ _ x Hx (changed_sublist _ _ _ _ Hl)).
  - repeat split.
    + intros Hc. by rewrite Hc in Hctl.
    + intros src mods Hc. by rewrite Hc in Hctl.
    + intros Hc. by rewrite Hc in Hctl.
    + intros Hc. by rewrite Hc in Hctl.
    + intros ex Hc. by rewrite Hc in Hctl.
Qed.

Lemma blank_build :
  build Blank.world 10 Missing Blank.tasks false = BuildRuns Blank.tree Blank.start.
Proof. by vm_compute. Qed.

Lemma empty_files_fail_witness :
  ctl (Blank.after Blank.events) = Exited (Some ZeroDivisionError) ∧
  ctl (Blank.after Blank.events) ≠ AtAwait ∧
  (∀ src mods, ctl (Blank.after Blank.events) ≠ AtModules src mods) ∧
  ctl (Blank.after Blank.events) ≠ Returned ∧
  ctl (Blank.after Blank.events) ≠ Exited None ∧
  ∀ ex, ctl (Blank.after Blank.events) = Raised ex → ex = ZeroDivisionError.
Proof.
  split; [by vm_compute|].
  apply (empty_files_fail Blank.world 10 Missing Blank.tasks false 1
           Blank.tree Blank.start (Blank.after Blank.events)).
  - by intros s X.
  - by_compute.
  - apply blank_build.
  - assert (waiting (st Blank.start) = {["z"]}) as -> by (by vm_compute).
    intros s ->%elem_of_singleton. by vm_compute.
  - apply (run_reachable _ _ _ _ Blank.events). by vm_compute.
Defined.


Lemma item_compare_fst (x y : item) :
  match item_compare x y with
  | Gt => y.1.1 ≤ x.1.1
  | _ => x.1.1 ≤ y.1.1
  end.
Proof.
  unfold item_compare. destruct (Z.compare_spec x.1.1 y.1.1) as [Heq|Hlt|Hgt]; [|lia..].
  destruct (String.compare x.1.2 y.1.2); [|lia..].
  destruct (args_compare x.2 y.2); lia.
Qed.

(** [PriorityQueue.get] returns an entry whose first component is least. *)
Lemma pop_min_least : ∀ q x r,
  pop_min q = Some (x, r) → ∀ y : item, y ∈ q → x.1.1 ≤ y.1.1.
Proof.
  induction q as [|x0 q IH]; intros x r; simpl; [done|].
  destruct (pop_min q) as [[z r']|] eqn:Hq.
  - specialize (IH z r' eq_refl). pose proof (item_compare_fst x0 z) as Hcmp.
    destruct (item_compare x0 z); intros [= <- <-] y [->|Hy]%elem_of_cons;
      try lia; specialize (IH y Hy); lia.
  - intros [= <- <-] y [->|Hy]%elem_of_cons; [lia|].
    destruct q as [|y0 q]; [by apply elem_of_nil in Hy|].
    simpl in Hq. destruct (pop_min q) as [[??]|]; [destruct (item_compare _ _)|]; done.
Qed.

Section queue.

Variables (e : env) (tasks : list (string * Task)) (tree : TaskTree) (njobs : nat).

Lemma queued_step ev c c' :
  queued tree c → step e tasks tree njobs ev c = Some c' → queued tree c'.
Proof.
  intros Hq. destruct ev as [mod_bytes order| |i retcode]; simpl.
  - unfold sched_step. destruct (ctl c) as [|blocking todo| |src mods| |ex|ex].
    + case_decide; [|done]. by intros [= <-].
    + destruct todo as [|src todo]; [repeat case_decide; by intros [= <-]|].
      unfold dispatch.
      destruct (ancestors tree !! src) as [anc|]; [|by intros [= <-]].
      destruct (decide (blocking ∩ anc = ∅)); [|by intros [= <-]].
      destruct (priority tree !! src) as [p|] eqn:Hp; [|by intros [= <-]].
      destruct (task_of tasks src) as [t|ex]; [|by intros [= <-]].
      simpl. case_decide; intros [= <-]; unfold queued; simpl;
        intros entry [->|Hin]%elem_of_cons; simpl; eauto.
    + destruct (result_queue c) as [|[src retcode] rest]; [done|]. simpl.
      destruct (complete tree src retcode (st c)) as [s [mods|ex]];
        by intros [= <-].
    + destruct mods as [|m mods]; [by intros [= <-]|].
      intros [= <-]. unfold after.
      by destruct (propagate e tree m mod_bytes (st c)) as [s [ex|]].
    + by intros [= <-].
    + by intros [= <-].
    + done.
  - unfold worker_take. destruct (ctl c); try done. case_decide; [|done].
    destruct (pop_min (task_queue c)) as [[[[p name] a] q]|] eqn:Hpop; [|done].
    intros [= <-]. unfold queued. simpl. intros entry Hin. apply Hq.
    rewrite (pop_min_perm _ _ _ Hpop). by right.
  - unfold worker_done. destruct (ctl c); try done.
    destruct (running c !! i); [|done]. by intros [= <-].
Qed.

Lemma reachable_queued c0 c :
  queued tree c0 → reachable e tasks tree njobs c0 c → queued tree c.
Proof. intros H0. induction 1; [done|]. by eapply queued_step. Qed.

End queue.

(** X26. A worker that takes a source from the queue takes one of
    greatest priority: while [build] runs, the source whose compilation
    a worker starts has a priority, and no source in the queue has a
    greater one. *)
Theorem worker_takes_greatest_priority e fuel cache tasks dry njobs tree c0 c c' :
  build e fuel cache tasks dry = BuildRuns tree c0 →
  reachable e tasks tree njobs c0 c →
  step e tasks tree njobs WorkerTake c = Some c' →
  ∃ src p,
    running c' = running c ++ [src] ∧ priority tree !! src = Some p ∧
    ∀ entry : item, entry ∈ task_queue c →
      ∃ p', priority tree !! entry.1.2 = Some p' ∧ p' ≤ p.
Proof.
  intros (_ & _ & prior & l & _ & _ & ->)%build_runs_changed Hreach.
  assert (queued tree (scheduler_init tree prior l)) as H0.
  { unfold queued, scheduler_init. destruct (sum_lines tree l); simpl;
      intros entry Hin; by apply elem_of_nil in Hin. }
  pose proof (reachable_queued e tasks tree njobs _ _ H0 Hreach) as Hq.
  simpl. unfold worker_take. destruct (ctl c); try done.
  case_decide; [|done].
  destruct (pop_min (task_queue c)) as [[[[p name] a] q]|] eqn:Hpop; [|done].
  intros [= <-]. simpl.
  destruct (Hq (p, name, a)) as (pn & Hpn & Hneg).
  { rewrite (pop_min_perm _ _ _ Hpop). by left. }
  exists name, pn. split; [done|]. split; [done|].
  intros entry Hin. destruct (Hq entry Hin) as (p' & Hp' & Hneg').
  exists p'. split; [done|].
  pose proof (pop_min_least _ _ _ Hpop entry Hin) as Hle. simpl in *. lia.
Qed.

Lemma worker_takes_greatest_priority_witness :
  task_queue (Example.after example_queued) =
    [(-1, "b", ["gfortran"; "-c"; "b.f90"]); (-2, "c", ["gfortran"; "-c"; "c.f90"])] ∧
  ∃ src p,
    running (Example.after (example_queued ++ [WorkerTake])) =
      running (Example.after example_queued) ++ [src] ∧
    priority Example.tree !! src = Some p ∧
    ∀ entry : item, entry ∈ task_queue (Example.after example_queued) →
      ∃ p', priority Example.tree !! entry.1.2 = Some p' ∧ p' ≤ p.
Proof.
  split; [by vm_compute|].
  apply (worker_takes_greatest_priority Example.world 10 Example.cache
           Example.tasks false 2 Example.tree Example.start).
  - apply example_build.
  - apply example_reachable. by_compute.
  - by vm_compute.
Defined.
